(** * idsteamed: a verification development for [main.go]

    The program resolves a list of game names against the Steam store
    search API with a pool of worker goroutines and writes one [.steam]
    file per name.  This file embeds the decision logic of [main.go]
    in Rocq and proves the properties stated about it.

    Definitions:
    - [Utf8], [Sanitizer]: [sanitizeFilename], byte for byte, together
      with the Go library behaviour it relies on (the runes a [range]
      over a string yields, [strings.Builder.WriteRune],
      [regexp.ReplaceAllString] for the pattern [[_\s]+],
      [strings.Trim]); [SanitizerSpec]: the algorithm as the
      specification words it;
    - [Fmt]: [fmt.Sscanf] and [fmt.Sprintf] for the verb [%d];
    - [Sys]: the calls the program makes to the outside world (file
      system, HTTP, standard error) as the events of a small free
      monad, the traces of calls and answers of a program, and its
      interpretation over an explicit world;
    - [Resolver], [Processor]: [findSteamGameID] and
      [processSingleGame];
    - [MemWorld]: a world in memory, to run them on examples: files,
      pages of the web, and writes that fail before or after the file
      is opened;
    - [Pool]: the goroutines, channels and wait group of [main] as a
      transition system over all interleavings; [PoolInv]: its
      invariant and a bound on the steps left;
    - [Strings], [Input], [Output]: the loop of [main] over the lines
      of the input file, with [strings.Split] and [strings.TrimSpace]
      as the Go library implements them, and the text the collecting
      loop shows for a failure.

    Theorems: the sanitizer, the scanner of [%d], the resolver and the
    processor, the pool; then further properties of each of them, of
    the record on disk and of the names read from the input file.
    The integers of the program ([int], 64 bits on the platforms the
    program is built for) are [Z]: the counters of [main] are bounded
    by the number of names, and identifiers are read by
    [strconv.ParseInt] within 64 bits or decoded by [encoding/json]. *)

From Stdlib Require Import ZArith Lia Bool List Ascii String.
From Stdlib Require Import Numbers.DecimalString Numbers.DecimalPos Numbers.DecimalFacts.
From stdpp Require Import base gmap strings list.

Open Scope Z_scope.

(** A Go [byte] is an 8-bit character, a Go [string] a sequence of bytes
    (Rocq's [string]); a [rune] is an [int32] code point. *)
Abbreviation byte := ascii.
Abbreviation rune := Z.

Definition byteVal (c : byte) : Z := Z.of_N (N_of_ascii c).

(** [byte(x)]: conversion of an integer to a byte keeps the low 8 bits. *)
Definition toByte (x : Z) : byte := ascii_of_N (Z.to_N (x mod 256)).

(** A rune literal such as ['a']. *)
Definition runeLit (c : byte) : rune := byteVal c.

(** ** UTF-8, as the Go runtime and [unicode/utf8] implement it *)
Module Utf8.

Definition RuneSelf : Z := 128.       (* 0x80 *)
Definition runeError : rune := 65533. (* U+FFFD *)
Definition maxRune : rune := 1114111. (* U+10FFFF *)
Definition surrogateMin : Z := 55296. (* 0xD800 *)
Definition surrogateMax : Z := 57343. (* 0xDFFF *)

Definition t1 : Z := 0.
Definition tx : Z := 128.   (* 0x80 *)
Definition t2 : Z := 192.   (* 0xC0 *)
Definition t3 : Z := 224.   (* 0xE0 *)
Definition t4 : Z := 240.   (* 0xF0 *)
Definition t5 : Z := 248.   (* 0xF8 *)

Definition maskx : Z := 63. (* 0x3F *)
Definition mask2 : Z := 31. (* 0x1F *)
Definition mask3 : Z := 15. (* 0x0F *)
Definition mask4 : Z := 7.  (* 0x07 *)

Definition rune1Max : Z := 127.   (* 1<<7 - 1 *)
Definition rune2Max : Z := 2047.  (* 1<<11 - 1 *)
Definition rune3Max : Z := 65535. (* 1<<16 - 1 *)

Definition locb : Z := 128. (* 0x80 *)
Definition hicb : Z := 191. (* 0xBF *)

(** [locb <= b && b <= hicb]: [b] is a continuation byte. *)
Definition isCont (b : byte) : bool :=
  (locb <=? byteVal b) && (byteVal b <=? hicb).

(** [decoderune] of the Go runtime, called on [s[k:]] when the byte at
    [k] is not ASCII: the rune that starts there and the number of
    bytes it takes; [(runeError, 1)] when the bytes are not the
    shortest UTF-8 encoding of a code point. *)
Definition decoderune (s : list byte) : rune * nat :=
  match s with
  | [] => (runeError, 1%nat)
  | s0 :: tl =>
    let b0 := byteVal s0 in
    if (t2 <=? b0) && (b0 <? t3) then
      (* 0080-07FF two byte sequence *)
      match tl with
      | s1 :: _ =>
        if isCont s1 then
          let r := Z.lor (Z.shiftl (Z.land b0 mask2) 6)
                         (Z.land (byteVal s1) maskx) in
          if rune1Max <? r then (r, 2%nat) else (runeError, 1%nat)
        else (runeError, 1%nat)
      | _ => (runeError, 1%nat)
      end
    else if (t3 <=? b0) && (b0 <? t4) then
      (* 0800-FFFF three byte sequence *)
      match tl with
      | s1 :: s2 :: _ =>
        if isCont s1 && isCont s2 then
          let r := Z.lor (Z.lor (Z.shiftl (Z.land b0 mask3) 12)
                                (Z.shiftl (Z.land (byteVal s1) maskx) 6))
                         (Z.land (byteVal s2) maskx) in
          if (rune2Max <? r)
             && negb ((surrogateMin <=? r) && (r <=? surrogateMax))
          then (r, 3%nat) else (runeError, 1%nat)
        else (runeError, 1%nat)
      | _ => (runeError, 1%nat)
      end
    else if (t4 <=? b0) && (b0 <? t5) then
      (* 10000-1FFFFF four byte sequence *)
      match tl with
      | s1 :: s2 :: s3 :: _ =>
        if isCont s1 && isCont s2 && isCont s3 then
          let r := Z.lor (Z.lor (Z.lor (Z.shiftl (Z.land b0 mask4) 18)
                                       (Z.shiftl (Z.land (byteVal s1) maskx) 12))
                                (Z.shiftl (Z.land (byteVal s2) maskx) 6))
                         (Z.land (byteVal s3) maskx) in
          if (rune3Max <? r) && (r <=? maxRune)
          then (r, 4%nat) else (runeError, 1%nat)
        else (runeError, 1%nat)
      | _ => (runeError, 1%nat)
      end
    else (runeError, 1%nat)
  end.

(** One iteration of [for _, char := range s]: a byte below [RuneSelf]
    is the rune itself, anything else goes through [decoderune]. *)
Definition nextRune (s : list byte) : rune * nat :=
  match s with
  | [] => (runeError, 1%nat)
  | c :: _ => if byteVal c <? RuneSelf then (byteVal c, 1%nat) else decoderune s
  end.

(** The runes [for _, char := range s] iterates over, in order.  The
    loop index moves past the bytes of the rune just decoded: [skip]
    counts the bytes of it that are still ahead. *)
Fixpoint rangeFrom (skip : nat) (s : list byte) : list rune :=
  match s with
  | [] => []
  | _ :: tl =>
    match skip with
    | S k => rangeFrom k tl
    | O => let '(r, w) := nextRune s in r :: rangeFrom (Nat.pred w) tl
    end
  end.

Definition rangeRunes (s : string) : list rune :=
  rangeFrom 0 (list_ascii_of_string s).

(** [utf8.AppendRune]: the UTF-8 encoding of [r]; the comparisons are
    on [uint32(r)]. *)
Definition AppendRune (p : list byte) (r : rune) : list byte :=
  let i := r mod 2 ^ 32 in
  if i <=? rune1Max then p ++ [toByte r]
  else if i <=? rune2Max then
    p ++ [toByte (Z.lor t2 (byteVal (toByte (Z.shiftr r 6))));
          toByte (Z.lor tx (Z.land (byteVal (toByte r)) maskx))]
  else if (i <? surrogateMin) || ((surrogateMax <? i) && (i <=? rune3Max)) then
    p ++ [toByte (Z.lor t3 (byteVal (toByte (Z.shiftr r 12))));
          toByte (Z.lor tx (Z.land (byteVal (toByte (Z.shiftr r 6))) maskx));
          toByte (Z.lor tx (Z.land (byteVal (toByte r)) maskx))]
  else if (rune3Max <? i) && (i <=? maxRune) then
    p ++ [toByte (Z.lor t4 (byteVal (toByte (Z.shiftr r 18))));
          toByte (Z.lor tx (Z.land (byteVal (toByte (Z.shiftr r 12))) maskx));
          toByte (Z.lor tx (Z.land (byteVal (toByte (Z.shiftr r 6))) maskx));
          toByte (Z.lor tx (Z.land (byteVal (toByte r)) maskx))]
  else p ++ [toByte 239; toByte 191; toByte 189]. (* U+FFFD *)

End Utf8.

(** ** [sanitizeFilename] *)
Module Sanitizer.

(** [strings.Builder]: the bytes written so far. *)
Definition Builder := list byte.

Definition WriteRune (b : Builder) (r : rune) : Builder := Utf8.AppendRune b r.

Definition isValidChar (char : rune) : bool :=
  ((runeLit "a" <=? char) && (char <=? runeLit "z")) ||
  ((runeLit "A" <=? char) && (char <=? runeLit "Z")) ||
  ((runeLit "0" <=? char) && (char <=? runeLit "9")) ||
  (char =? runeLit " ") || (char =? runeLit "-") || (char =? runeLit "_").

(** The character class [[_\s]] of the pattern [[_\s]+]; in Go's
    regexp syntax [\s] is [[\t\n\f\r ]]. *)
Definition spaceUnderscoreClass (c : byte) : bool :=
  (byteVal c =? runeLit "_") ||
  (byteVal c =? 9) || (byteVal c =? 10) || (byteVal c =? 12) ||
  (byteVal c =? 13) || (byteVal c =? runeLit " ").

(** Length of the match of [cls+] that starts at the head of [s]
    (0: no match there); [+] is greedy, the match is the longest run. *)
Fixpoint matchLen (cls : byte -> bool) (s : list byte) : nat :=
  match s with
  | c :: tl => if cls c then S (matchLen cls tl) else O
  | [] => O
  end.

(** [regexp.MustCompile(cls+).ReplaceAllString(src, repl)] for a
    replacement without [$]: bytes outside a match are copied, each
    match, taken leftmost and longest, is replaced by [repl] and the
    scan goes on behind it ([skip] bytes of the match are still
    ahead). *)
Fixpoint replaceAllFrom (cls : byte -> bool) (repl : list byte)
         (skip : nat) (src : list byte) : list byte :=
  match src with
  | [] => []
  | c :: tl =>
    match skip with
    | S k => replaceAllFrom cls repl k tl
    | O =>
      match matchLen cls src with
      | O => c :: replaceAllFrom cls repl 0 tl
      | S n => repl ++ replaceAllFrom cls repl n tl
      end
    end
  end.

Definition ReplaceAllString (cls : byte -> bool) (src repl : list byte) : list byte :=
  replaceAllFrom cls repl 0 src.

(** [strings.Trim(s, cutset)] for a cutset of one ASCII byte [c]:
    [trimLeftByte(trimRightByte(s, c), c)]. *)
Fixpoint trimLeftByte (s : list byte) (c : byte) : list byte :=
  match s with
  | x :: tl => if Ascii.eqb x c then trimLeftByte tl c else s
  | [] => []
  end.

Fixpoint trimRightByte (s : list byte) (c : byte) : list byte :=
  match s with
  | [] => []
  | x :: tl =>
    match trimRightByte tl c with
    | [] => if Ascii.eqb x c then [] else [x]
    | tl' => x :: tl'
    end
  end.

Definition Trim (s : list byte) (c : byte) : list byte :=
  trimLeftByte (trimRightByte s c) c.

(** The first loop of [sanitizeFilename]: the builder after all runes
    of [gameName]. *)
Definition sanitizeLoop (gameName : string) : Builder :=
  fold_left
    (fun (sanitized : Builder) (char : rune) =>
       if isValidChar char
       then WriteRune sanitized char
       else WriteRune sanitized (runeLit "_"))
    (Utf8.rangeRunes gameName) [].

Definition sanitizeFilename (gameName : string) : string :=
  let sanitized := sanitizeLoop gameName in
  let cleaned := ReplaceAllString spaceUnderscoreClass sanitized ["_"%char] in
  let cleaned := Trim cleaned "_"%char in
  string_of_list_ascii cleaned.

End Sanitizer.



(** ** The sanitizer as the specification words it *)

(** The character sets the statements about sanitized keys speak of. *)
Definition isLetter (c : byte) : Prop :=
  (runeLit "a" <= byteVal c <= runeLit "z") \/ (runeLit "A" <= byteVal c <= runeLit "Z").

Definition isDigit (c : byte) : Prop :=
  runeLit "0" <= byteVal c <= runeLit "9".

Definition keyChar (c : byte) : Prop :=
  isLetter c \/ isDigit c \/ c = " "%char \/ c = "-"%char \/ c = "_"%char.

Definition spaceOrUnderscore (c : byte) : Prop :=
  c = " "%char \/ c = "_"%char.

(** The reference algorithm of the specification, step by step:
    replace every character outside {letters, digits, space, hyphen,
    underscore} with an underscore; collapse every maximal run of
    spaces and underscores into one underscore; strip leading and
    trailing underscores. *)
Module SanitizerSpec.

Definition allowedChars : list rune :=
  map runeLit (list_ascii_of_string
    "abcdefghijklmnopqrstuvwxyzABCDEFGHIJKLMNOPQRSTUVWXYZ0123456789 -_").

Definition allowed (r : rune) : bool := existsb (Z.eqb r) allowedChars.

(** Step 1.  Every allowed character is an ASCII character, one byte. *)
Definition replaceStep (chars : list rune) : list byte :=
  map (fun r => if allowed r then toByte r else "_"%char) chars.

Definition isSpaceOrUnderscore (c : byte) : bool :=
  Ascii.eqb c " " || Ascii.eqb c "_".

(** The maximal runs of [l]: consecutive characters that are all
    spaces/underscores ([true]) or all something else ([false]). *)
Fixpoint runs (l : list byte) : list (bool * list byte) :=
  match l with
  | [] => []
  | c :: tl =>
    match runs tl with
    | (b, g) :: rest =>
      if Bool.eqb b (isSpaceOrUnderscore c)
      then (b, c :: g) :: rest
      else (isSpaceOrUnderscore c, [c]) :: (b, g) :: rest
    | [] => [(isSpaceOrUnderscore c, [c])]
    end
  end.

(** Step 2. *)
Definition collapseStep (l : list byte) : list byte :=
  flat_map (fun run : bool * list byte => if fst run then ["_"%char] else snd run)
           (runs l).

Fixpoint dropUnderscores (l : list byte) : list byte :=
  match l with
  | c :: tl => if Ascii.eqb c "_" then dropUnderscores tl else l
  | [] => []
  end.

(** Step 3. *)
Definition stripStep (l : list byte) : list byte :=
  rev (dropUnderscores (rev (dropUnderscores l))).

Definition sanitize (name : string) : string :=
  string_of_list_ascii (stripStep (collapseStep (replaceStep (Utf8.rangeRunes name)))).

End SanitizerSpec.

(** ** Auxiliary definitions of the sanitizer proofs *)

(** What the first loop writes for one rune. *)
Definition substByte (r : rune) : byte :=
  if Sanitizer.isValidChar r then toByte r else "_"%char.

(** [ReplaceAllString] as a scan with one flag: [inRun] says that the
    previous byte was part of a match. *)
Fixpoint collapse (cls : byte -> bool) (u : byte) (inRun : bool) (s : list byte) : list byte :=
  match s with
  | [] => []
  | c :: tl =>
    if cls c then (if inRun then collapse cls u true tl else u :: collapse cls u true tl)
    else c :: collapse cls u false tl
  end.

(** No two neighbours of [l] both satisfy [P]. *)
Fixpoint adjFree (P : byte -> Prop) (l : list byte) : Prop :=
  match l with
  | [] => True
  | a :: tl =>
    match tl with
    | b :: _ => ~ (P a /\ P b)
    | [] => True
    end /\ adjFree P tl
  end.

(** The bytes [sanitizeFilename] returns. *)
Definition sanitizedBytes (gameName : string) : list byte :=
  Sanitizer.Trim
    (Sanitizer.ReplaceAllString Sanitizer.spaceUnderscoreClass
       (Sanitizer.sanitizeLoop gameName) ["_"%char])
    "_"%char.

(** A byte that [sanitizeFilename] can return: valid and not a space. *)
Definition keyByte (c : byte) : Prop :=
  Sanitizer.isValidChar (byteVal c) = true /\ c <> " "%char.

(** The shape of a sanitized key. *)
Record keyShape (o : list byte) : Prop := {
  shape_bytes : Forall keyByte o;
  shape_adjacent : adjFree (fun c => c = "_"%char) o;
  shape_head : head o <> Some "_"%char;
  shape_last : last o <> Some "_"%char
}.

(** ** [fmt]: the verb [%d] *)
Module Fmt.

(** [fmt.Sprintf("%d", n)]: the decimal text of [n]. *)
Definition Sprintf_d (n : Z) : string := NilZero.string_of_int (Z.to_int n).

Definition hugeWid : Z := 1073741824. (* 1 << 30 *)

(** The table [space] of [fmt/scan.go]. *)
Definition space : list (Z * Z) :=
  [(9, 13); (32, 32); (133, 133); (160, 160); (5760, 5760); (8192, 8202);
   (8232, 8233); (8239, 8239); (8287, 8287); (12288, 12288)].

Fixpoint inRanges (tbl : list (Z * Z)) (rx : Z) : bool :=
  match tbl with
  | [] => false
  | (lo, hi) :: rest =>
    if rx <? lo then false
    else if rx <=? hi then true
    else inRanges rest rx
  end.

Definition isSpace (r : rune) : bool :=
  if 65536 <=? r then false else inRanges space (r mod 65536).

(** The scanner reads the runes of its input one by one and counts
    them; a read at [count >= hugeWid] (the limit of a scan without a
    width) or at the end of the input reports end of file.  The
    functions below take the runes still ahead and the count. *)
Definition atEOF (input : list rune) (count : Z) : bool :=
  (hugeWid <=? count) || match input with [] => true | _ => false end.

(** [SkipSpace] for [Sscanf], where a newline is not a space: it stops
    in front of the first rune that is not a space, and fails
    ("unexpected newline") on a newline.  A carriage return is a space
    whether or not a newline follows. *)
Fixpoint SkipSpace (input : list rune) (count : Z) : option (list rune * Z) :=
  if hugeWid <=? count then Some (input, count)
  else
    match input with
    | [] => Some ([], count)
    | r :: tl =>
      if r =? runeLit "010" then None
      else if isSpace r then SkipSpace tl (count + 1)
      else Some (input, count)
    end.

Definition sign : list rune := [runeLit "+"; runeLit "-"].

(** The digits [scanInt] accepts for the verb [%d]: [getBase] returns
    [decimalDigits]; the underscore is added by [scanBasePrefix], for
    the verb [%v] only. *)
Definition decimalDigits : list rune :=
  map runeLit (list_ascii_of_string "0123456789").

Definition indexRune (ok : list rune) (r : rune) : bool := existsb (Z.eqb r) ok.

(** [accept(ok)]: consume the next rune if it is one of [ok]. *)
Definition accept (ok : list rune) (input : list rune) (count : Z)
  : list rune * list rune * Z :=
  if hugeWid <=? count then ([], input, count)
  else
    match input with
    | r :: tl => if indexRune ok r then ([r], tl, count + 1) else ([], input, count)
    | [] => ([], input, count)
    end.

(** [for s.accept(digits) {}]: the runes accepted. *)
Fixpoint acceptAll (ok : list rune) (input : list rune) (count : Z) : list rune :=
  if hugeWid <=? count then []
  else
    match input with
    | r :: tl => if indexRune ok r then r :: acceptAll ok tl (count + 1) else []
    | [] => []
    end.

(** [strconv.ParseUint(s, 10, 64)] on a string of runes, before the
    range check: an underscore (allowed in base 0 only) or any other
    rune that is not a decimal digit is a syntax error, and so is the
    empty string. *)
Fixpoint parseDigits (acc : Z) (s : list rune) : option Z :=
  match s with
  | [] => Some acc
  | c :: tl =>
    if (runeLit "0" <=? c) && (c <=? runeLit "9")
    then parseDigits (acc * 10 + (c - runeLit "0")) tl
    else None
  end.

(** [strconv.ParseInt(tok, 10, 64)]: [None] for a syntax or a range
    error. *)
Definition ParseInt (tok : list rune) : option Z :=
  match tok with
  | [] => None
  | c :: rest =>
    let '(neg, ds) :=
      if c =? runeLit "+" then (false, rest)
      else if c =? runeLit "-" then (true, rest)
      else (false, tok) in
    match ds with
    | [] => None
    | _ =>
      match parseDigits 0 ds with
      | None => None
      | Some un =>
        let cutoff := 2 ^ 63 in
        if negb neg && (cutoff <=? un) then None
        else if neg && (cutoff <? un) then None
        else Some (if neg then - un else un)
      end
    end
  end.

(** [scanInt('d', 64)]: skip spaces, an optional sign, at least one
    digit, then [ParseInt] on the token. *)
Definition scanInt (input : list rune) (count : Z) : option Z :=
  match SkipSpace input count with
  | None => None
  | Some (input, count) =>
    if atEOF input count then None
    else
      let '(signTok, input, count) := accept sign input count in
      if atEOF input count then None
      else
        match acceptAll decimalDigits input count with
        | [] => None
        | number => ParseInt (signTok ++ number)
        end
  end.

(** [fmt.Sscanf(str, "%d", &n)]: [Some n] when the error returned is
    [nil], with the value stored in [n]; [None] when the scan fails.
    Input behind the number is not looked at. *)
Definition Sscanf_d (str : string) : option Z :=
  match SkipSpace (Utf8.rangeRunes str) 0 with
  | None => None
  | Some (input, count) => scanInt input count
  end.

End Fmt.

(** ** The outside world *)
Module Sys.

(** A Go [error], by the text [Error()] returns. *)
Inductive error : Type := errorString (text : string).

Definition errorText (e : error) : string := let 'errorString text := e in text.

(** A call that returns a value and an error: the value counts only
    when the error is [nil]. *)
Inductive Result (A : Type) : Type :=
| Ok (a : A)
| Err (e : error).
Arguments Ok {A} a.
Arguments Err {A} e.

(** [*http.Response], as far as the program looks at it: the status
    code, and what [io.ReadAll] of the body returns. *)
Record Response : Type := {
  StatusCode : Z;
  Body : Result string
}.

(** The lines the program writes to [os.Stderr] in verbose mode, by
    their arguments (the elapsed time shown with the status is left
    out). *)
Inductive LogLine : Type :=
| DebugQuerying (requestURL : string)
| ErrorNetwork (err : error)
| DebugStatus (statusCode : Z)
| ErrorLine (err : error)
| ErrorRead (err : error)
| ErrorJSON (err : error)
| DebugFound (resultCount : Z)
| DebugItem (index : Z) (name : string) (id : Z)
| SkipExisting (steamFilePath : string).

(** The calls to the outside world, indexed by what they answer:
    for [os.Stat] and [os.WriteFile] the error ([None] is [nil]). *)
Inductive Event : Type -> Type :=
| Stat (name : string) : Event (option error)
| ReadFile (name : string) : Event (Result string)
| WriteFile (name : string) (data : string) (perm : Z) : Event (option error)
| HttpGet (url : string) : Event (Result Response)
| Stderr (line : LogLine) : Event unit.

(** Programs over these calls. *)
Inductive Prog (A : Type) : Type :=
| Ret (a : A)
| Vis (X : Type) (e : Event X) (k : X -> Prog A).
Arguments Ret {A} a.
Arguments Vis {A X} e k.

Fixpoint bind {A B : Type} (p : Prog A) (f : A -> Prog B) : Prog B :=
  match p with
  | Ret a => f a
  | Vis e k => Vis e (fun x => bind (k x) f)
  end.

Definition trigger {X : Type} (e : Event X) : Prog X := Vis e Ret.

Definition when (b : bool) (p : Prog unit) : Prog unit :=
  if b then p else Ret tt.

(** One call together with its answer. *)
Inductive Call : Type :=
| CStat (name : string) (err : option error)
| CReadFile (name : string) (read : Result string)
| CWriteFile (name : string) (data : string) (perm : Z) (err : option error)
| CHttpGet (url : string) (got : Result Response)
| CStderr (line : LogLine).

Definition call {X : Type} (e : Event X) : X -> Call :=
  match e in Event X return X -> Call with
  | Stat name => CStat name
  | ReadFile name => CReadFile name
  | WriteFile name data perm => CWriteFile name data perm
  | HttpGet url => CHttpGet url
  | Stderr line => fun _ => CStderr line
  end.

(** [exec p t a]: [p] returns [a] after the calls [t], whatever the
    world is that gave these answers. *)
Inductive exec {A : Type} : Prog A -> list Call -> A -> Prop :=
| exec_Ret (a : A) : exec (Ret a) [] a
| exec_Vis (X : Type) (e : Event X) (k : X -> Prog A) (x : X) (t : list Call) (a : A) :
    exec (k x) t a -> exec (Vis e k) (call e x :: t) a.

(** A world of type [W] answers every call and changes with it. *)
Definition Handler (W : Type) : Type := forall X : Type, Event X -> W -> X * W.

Fixpoint run {W A : Type} (h : Handler W) (p : Prog A) (w : W) : A * W * list Call :=
  match p with
  | Ret a => (a, w, [])
  | Vis e k =>
    let '(x, w1) := h _ e w in
    let '(a, w2, t) := run h (k x) w1 in
    (a, w2, call e x :: t)
  end.

Definition isHttpGet (c : Call) : bool :=
  match c with
  | CHttpGet _ _ => true
  | _ => false
  end.

End Sys.

Declare Scope prog_scope.
Delimit Scope prog_scope with prog.
Notation "x <- p ;; q" := (Sys.bind p (fun x => q))
  (at level 100, p at next level, right associativity) : prog_scope.
Notation "p ;; q" := (Sys.bind p (fun _ => q))
  (at level 100, right associativity) : prog_scope.

(** ** Library functions the program calls and the model leaves open *)

(** [SteamAPIResponse]. *)
Record Item : Type := {
  ID : Z;
  Name : string
}.

Record SteamAPIResponse : Type := {
  Items : list Item
}.

(** [filepath.Join] of two elements, [url.Values.Encode] of the values
    set, and [json.Unmarshal] into a [SteamAPIResponse]: any functions
    can stand for them. *)
Class GoLib : Type := {
  filepath_Join : string -> string -> string;
  url_Values_Encode : list (string * string) -> string;
  json_Unmarshal : string -> Sys.Result SteamAPIResponse
}.

(** ** [findSteamGameID] *)
Module Resolver.
Import Sys.
Local Open Scope prog_scope.

Definition steamAPIEndpoint : string := "https://store.steampowered.com/api/storesearch/".
Definition apiLanguage : string := "english".
Definition apiCountryCode : string := "US".
Definition maxVerboseResults : Z := 3.
Definition StatusOK : Z := 200.

(** [fmt.Errorf("HTTP error: %d", code)] and the two fixed errors. *)
Definition errHTTP (code : Z) : error := errorString ("HTTP error: " +:+ Fmt.Sprintf_d code).
Definition errEmptyName : error := errorString "empty game name".
Definition errNoResults : error := errorString "no results found".

Section WithLib.
Context `{GoLib}.

Definition requestURL (gameName : string) : string :=
  steamAPIEndpoint +:+ "?" +:+
  url_Values_Encode [("term", gameName); ("l", apiLanguage); ("cc", apiCountryCode)].

(** The loop that shows the top results in verbose mode. *)
Fixpoint logItems (i : Z) (items : list Item) : Prog unit :=
  match items with
  | [] => Ret tt
  | item :: rest =>
    when (i <? maxVerboseResults) (trigger (Stderr (DebugItem (i + 1) (Name item) (ID item)))) ;;
    logItems (i + 1) rest
  end.

(** The value returned is the pair [(int, error)] of the source. *)
Definition findSteamGameID (gameName : string) (verbose : bool) : Prog (Z * option error) :=
  if String.eqb gameName "" then Ret (0, Some errEmptyName)
  else
    let requestURL := requestURL gameName in
    when verbose (trigger (Stderr (DebugQuerying requestURL))) ;;
    got <- trigger (HttpGet requestURL) ;;
    match got with
    | Err err =>
      when verbose (trigger (Stderr (ErrorNetwork err))) ;;
      Ret (0, Some err)
    | Ok httpResponse =>
      when verbose (trigger (Stderr (DebugStatus (StatusCode httpResponse)))) ;;
      if negb (StatusCode httpResponse =? StatusOK) then
        let err := errHTTP (StatusCode httpResponse) in
        when verbose (trigger (Stderr (ErrorLine err))) ;;
        Ret (0, Some err)
      else
        match Body httpResponse with
        | Err err =>
          when verbose (trigger (Stderr (ErrorRead err))) ;;
          Ret (0, Some err)
        | Ok responseBody =>
          match json_Unmarshal responseBody with
          | Err err =>
            when verbose (trigger (Stderr (ErrorJSON err))) ;;
            Ret (0, Some err)
          | Ok apiResponse =>
            when verbose
              (let resultCount := Z.of_nat (length (Items apiResponse)) in
               trigger (Stderr (DebugFound resultCount)) ;;
               if 0 <? resultCount then logItems 0 (Items apiResponse) else Ret tt) ;;
            match Items apiResponse with
            | item :: _ => Ret (ID item, None)
            | [] =>
              let err := errNoResults in
              when verbose (trigger (Stderr (ErrorLine err))) ;;
              Ret (0, Some err)
            end
          end
        end
    end.
End WithLib.
End Resolver.

(** ** [processSingleGame] *)
Module Processor.
Import Sys.
Local Open Scope prog_scope.

Definition fileMode : Z := 420. (* 0644 *)

Record GameResult : Type := {
  GameName : string;
  GameID : Z;
  Success : bool;
  Error : option error
}.

(** [fmt.Errorf("error writing file: %v", err)]. *)
Definition errWriting (err : error) : error :=
  errorString ("error writing file: " +:+ errorText err).

Section WithLib.
Context `{GoLib}.

Definition steamFilePath (gameName outputDirectory : string) : string :=
  filepath_Join outputDirectory (Sanitizer.sanitizeFilename gameName +:+ ".steam").

(** The block under [if shouldSkipExisting]: [Some] result when the
    function returns from inside it, [None] when control leaves the
    block. *)
Definition skipExisting (gameName steamFilePath : string) (verbose : bool)
  : Prog (option GameResult) :=
  statErr <- trigger (Stat steamFilePath) ;;
  match statErr with
  | Some _ => Ret None
  | None =>
    when verbose (trigger (Stderr (SkipExisting steamFilePath))) ;;
    read <- trigger (ReadFile steamFilePath) ;;
    match read with
    | Err _ => Ret None
    | Ok existingFileContent =>
      match Fmt.Sscanf_d existingFileContent with
      | Some existingGameID =>
        Ret (Some {| GameName := gameName; GameID := existingGameID;
                     Success := true; Error := None |})
      | None => Ret None
      end
    end
  end.

(** The rest of the function, from the query to the API on. *)
Definition queryAndWrite (gameName steamFilePath : string) (verbose : bool)
  : Prog GameResult :=
  found <- Resolver.findSteamGameID gameName verbose ;;
  match found with
  | (_, Some err) =>
    Ret {| GameName := gameName; GameID := 0; Success := false; Error := Some err |}
  | (gameID, None) =>
    let gameIDString := Fmt.Sprintf_d gameID in
    writeErr <- trigger (WriteFile steamFilePath gameIDString fileMode) ;;
    match writeErr with
    | Some err =>
      Ret {| GameName := gameName; GameID := 0; Success := false;
             Error := Some (errWriting err) |}
    | None =>
      Ret {| GameName := gameName; GameID := gameID; Success := true; Error := None |}
    end
  end.

Definition processSingleGame (gameName outputDirectory : string)
           (shouldSkipExisting verbose : bool) : Prog GameResult :=
  let steamFilePath := steamFilePath gameName outputDirectory in
  early <- (if shouldSkipExisting
            then skipExisting gameName steamFilePath verbose
            else Ret None) ;;
  match early with
  | Some result => Ret result
  | None => queryAndWrite gameName steamFilePath verbose
  end.
End WithLib.
End Processor.

(** ** Auxiliary definitions of the resolver and processor proofs *)

(** What [findSteamGameID] returns, as a function of the answer to its
    HTTP request. *)
Definition resolveOutcome `{GoLib} (got : Sys.Result Sys.Response) : Z * option Sys.error :=
  match got with
  | Sys.Err err => (0, Some err)
  | Sys.Ok httpResponse =>
    if negb (Sys.StatusCode httpResponse =? Resolver.StatusOK)
    then (0, Some (Resolver.errHTTP (Sys.StatusCode httpResponse)))
    else
      match Sys.Body httpResponse with
      | Sys.Err err => (0, Some err)
      | Sys.Ok responseBody =>
        match json_Unmarshal responseBody with
        | Sys.Err err => (0, Some err)
        | Sys.Ok apiResponse =>
          match Items apiResponse with
          | item :: _ => (ID item, None)
          | [] => (0, Some Resolver.errNoResults)
          end
        end
      end
  end.

(** The calls of a trace that are log lines. *)
Definition isStderr (c : Sys.Call) : bool :=
  match c with
  | Sys.CStderr _ => true
  | _ => false
  end.

Definition logOnly (t : list Sys.Call) : Prop := Forall (fun c => isStderr c = true) t.

(** The two results of [processSingleGame] by their fields. *)
Definition successResult (gameName : string) (gameID : Z) : Processor.GameResult :=
  {| Processor.GameName := gameName; Processor.GameID := gameID;
     Processor.Success := true; Processor.Error := None |}.

Definition failureResult (gameName : string) (err : Sys.error) : Processor.GameResult :=
  {| Processor.GameName := gameName; Processor.GameID := 0;
     Processor.Success := false; Processor.Error := Some err |}.

(** What the block under [if shouldSkipExisting] does with the answer
    of [os.ReadFile]. *)
Definition cachedOutcome (gameName : string) (read : Sys.Result string)
  : option Processor.GameResult :=
  match read with
  | Sys.Err _ => None
  | Sys.Ok existingFileContent =>
    match Fmt.Sscanf_d existingFileContent with
    | Some existingGameID => Some (successResult gameName existingGameID)
    | None => None
    end
  end.

(** The calls that probe the stored record. *)
Definition isProbe (c : Sys.Call) : bool :=
  match c with
  | Sys.CStat _ _ | Sys.CReadFile _ _ => true
  | _ => false
  end.

Definition isWriteFile (c : Sys.Call) : bool :=
  match c with
  | Sys.CWriteFile _ _ _ _ => true
  | _ => false
  end.

(** ** A world in memory

    Files, pages of the web and the lines written to standard error,
    for running the programs above on examples. *)
Module MemWorld.
Import Sys.

Record World : Type := {
  files : gmap string string;        (* path to content *)
  locked : gset string;              (* paths that cannot be opened for writing *)
  faulty : gmap string nat;          (* paths whose write fails once the file is
                                        open, with the bytes written by then *)
  web : gmap string (Result Response); (* URL to what a GET returns *)
  stderr : list LogLine
}.

Definition errNotExist (op name : string) : error :=
  errorString (op +:+ " " +:+ name +:+ ": no such file or directory").
Definition errPermission (name : string) : error :=
  errorString ("open " +:+ name +:+ ": permission denied").
Definition errIO (name : string) : error :=
  errorString ("write " +:+ name +:+ ": input/output error").
Definition errNoHost : error := errorString "dial tcp: no such host".

Definition setFile (w : World) (name content : string) : World :=
  {| files := <[name := content]> (files w); locked := locked w; faulty := faulty w;
     web := web w; stderr := stderr w |}.

(** [os.WriteFile] opens the file with [O_TRUNC], writes the data and
    closes the file.  When the open fails (a path in [locked]) the
    file is not touched.  When the write or the close fails (a path in
    [faulty]) the error is returned and the file is left with the
    bytes written by then: none, some, or all of the data. *)
Definition writeFile (w : World) (name data : string) : option error * World :=
  if decide (name ∈ locked w) then (Some (errPermission name), w)
  else
    match faulty w !! name with
    | Some k => (Some (errIO name), setFile w name (substring 0 k data))
    | None => (None, setFile w name data)
    end.

Definition handler : Handler World :=
  fun (X : Type) (e : Event X) =>
    match e in Event X return World -> X * World with
    | Stat name => fun w =>
        (match files w !! name with
         | Some _ => None
         | None => Some (errNotExist "stat" name)
         end, w)
    | ReadFile name => fun w =>
        (match files w !! name with
         | Some content => Ok content
         | None => Err (errNotExist "open" name)
         end, w)
    | WriteFile name data perm => fun w => writeFile w name data
    | HttpGet url => fun w =>
        (match web w !! url with
         | Some got => got
         | None => Err errNoHost
         end, w)
    | Stderr line => fun w =>
        (tt, {| files := files w; locked := locked w; faulty := faulty w; web := web w;
                stderr := stderr w ++ [line] |})
    end.

(** JSON text, written with apostrophes where JSON has quotes. *)
Fixpoint jsonText (s : string) : string :=
  match s with
  | EmptyString => EmptyString
  | String c rest =>
    String (if Ascii.eqb c "'" then "034"%char else c) (jsonText rest)
  end.

Definition portalBody : string := jsonText "{'items':[{'id':400,'name':'Portal'}]}".
Definition emptyBody : string := jsonText "{'items':[]}".
Definition negativeBody : string := jsonText "{'items':[{'id':-1,'name':'Unlisted'}]}".

(** An instance of the library functions for the examples:
    [json_Unmarshal] knows the three bodies above and what
    [encoding/json] decodes them to. *)
#[export] Instance exampleLib : GoLib := {|
  filepath_Join := fun dir file => dir +:+ "/" +:+ file;
  url_Values_Encode := fun values =>
    match values with
    | [(_, term); _; _] => "cc=US&l=english&term=" +:+ term
    | _ => ""
    end;
  json_Unmarshal := fun body =>
    if String.eqb body portalBody
    then Ok {| Items := [{| ID := 400; Name := "Portal" |}] |}
    else if String.eqb body emptyBody
    then Ok {| Items := [] |}
    else if String.eqb body negativeBody
    then Ok {| Items := [{| ID := -1; Name := "Unlisted" |}] |}
    else Err (errorString "invalid character")
|}.

Definition page (body : string) : Result Response :=
  Ok {| StatusCode := 200; Body := Ok body |}.

(** The store answers for "Portal" and for nothing else. *)
Definition portalWeb : gmap string (Result Response) :=
  {[ Resolver.requestURL "Portal" := page portalBody ]}.

Definition emptyWorld : World :=
  {| files := ∅; locked := ∅; faulty := ∅; web := portalWeb; stderr := [] |}.

(** [Portal.steam] is there already. *)
Definition cachedWorld (content : string) : World :=
  {| files := {[ "output/Portal.steam" := content ]}; locked := ∅; faulty := ∅;
     web := portalWeb; stderr := [] |}.

(** The output file cannot be opened for writing. *)
Definition lockedWorld : World :=
  {| files := ∅; locked := {[ "output/Portal.steam" ]}; faulty := ∅;
     web := portalWeb; stderr := [] |}.

(** The store lists an item with a negative id. *)
Definition negativeWorld : World :=
  {| files := ∅; locked := ∅; faulty := ∅;
     web := {[ Resolver.requestURL "Portal" := page negativeBody ]}; stderr := [] |}.

(** [processSingleGame("Portal", "output", ...)] in a world: the
    result, the world afterwards and the calls made. *)
Definition runPortal (w : World) (shouldSkipExisting verbose : bool)
  : Processor.GameResult * World * list Call :=
  run handler (Processor.processSingleGame "Portal" "output" shouldSkipExisting verbose) w.

Definition runResolver (w : World) (verbose : bool) : Z * option error * World * list Call :=
  run handler (Resolver.findSteamGameID "Portal" verbose) w.

End MemWorld.

(** ** The worker pool of [main]

    The goroutines of [main] (the workers, the one that fills the job
    queue, the one that closes the result queue, and [main] itself with
    its collecting loop), the two buffered channels and the wait group,
    as a transition system: a step is one operation of one goroutine,
    and any goroutine that can move may move next. *)
Module Pool.
Import Sys Processor.

(** A buffered channel: the values sent and not yet received, the
    capacity given to [make], and whether [close] was called. *)
Record Chan (A : Type) : Type := {
  buf : list A;
  cap : Z;
  closed : bool
}.
Arguments buf {A} c.
Arguments cap {A} c.
Arguments closed {A} c.

Definition makeChan (A : Type) (size : Z) : Chan A :=
  {| buf := []; cap := size; closed := false |}.

(** [c <- x] can go ahead: there is room in the buffer. *)
Definition hasRoom {A : Type} (c : Chan A) : Prop :=
  Z.of_nat (length (buf c)) < cap c.

Definition push {A : Type} (c : Chan A) (x : A) : Chan A :=
  {| buf := buf c ++ [x]; cap := cap c; closed := closed c |}.

Definition setBuf {A : Type} (c : Chan A) (rest : list A) : Chan A :=
  {| buf := rest; cap := cap c; closed := closed c |}.

Definition close {A : Type} (c : Chan A) : Chan A :=
  {| buf := buf c; cap := cap c; closed := true |}.

(** A worker goroutine: waiting at [range jobQueue], inside
    [processSingleGame(gameName, ...)], about to send the result, or
    returned (with [waitGroup.Done()] run). *)
Inductive Worker : Type :=
| WIdle
| WProcessing (gameName : string)
| WSending (result : GameResult)
| WDone.

(** The goroutine that sends the names: the names still to send, then
    [close(jobQueue)]. *)
Inductive Sender : Type :=
| SNotStarted
| SSending (rest : list string)
| SDone.

(** The goroutine that waits for the workers and closes the result
    queue. *)
Inductive Closer : Type :=
| CNotStarted
| CWaiting
| CClosing
| CDone.

(** [main]: in the loop that starts the workers with [i] started, at
    the [go] of the closing goroutine, in the collecting loop, behind
    it. *)
Inductive Main : Type :=
| MSpawn (i : Z)
| MGoCloser
| MCollect
| MDone.

(** The variables of the collecting loop, and the results it printed,
    in order. *)
Record Tally : Type := {
  successCount : Z;
  failedCount : Z;
  completedCount : Z;
  failedGameNames : list string;
  printed : list GameResult
}.

Record State : Type := {
  jobQueue : Chan string;
  resultQueue : Chan GameResult;
  waitGroup : Z;
  workers : list Worker;
  sender : Sender;
  closer : Closer;
  main : Main;
  tally : Tally;
  panicked : bool
}.

(** The body of the collecting loop. *)
Definition collect (result : GameResult) (y : Tally) : Tally :=
  if Success result
  then {| successCount := successCount y + 1;
          failedCount := failedCount y;
          completedCount := completedCount y + 1;
          failedGameNames := failedGameNames y;
          printed := printed y ++ [result] |}
  else {| successCount := successCount y;
          failedCount := failedCount y + 1;
          completedCount := completedCount y + 1;
          failedGameNames := failedGameNames y ++ [GameName result];
          printed := printed y ++ [result] |}.

(** [actualWorkerCount] as [main] computes it. *)
Definition actualWorkerCount (workerCountFlag totalGames : Z) : Z :=
  if totalGames <? workerCountFlag then totalGames else workerCountFlag.

Definition setWorker (s : State) (i : nat) (w : Worker) : list Worker :=
  <[i := w]> (workers s).

Definition panic (s : State) : State :=
  {| jobQueue := jobQueue s; resultQueue := resultQueue s; waitGroup := waitGroup s;
     workers := workers s; sender := sender s; closer := closer s; main := main s;
     tally := tally s; panicked := true |}.

Section WithRun.
Context `{GoLib}.
Variable gameNames : list string.
Variable workerCountFlag : Z.
Variable outputDirectory : string.
Variable shouldSkipExisting verbose : bool.

Definition totalGames : Z := Z.of_nat (length gameNames).

Definition init : State :=
  {| jobQueue := makeChan string totalGames;
     resultQueue := makeChan GameResult totalGames;
     waitGroup := 0;
     workers := [];
     sender := SNotStarted;
     closer := CNotStarted;
     main := MSpawn 0;
     tally := {| successCount := 0; failedCount := 0; completedCount := 0;
                 failedGameNames := []; printed := [] |};
     panicked := false |}.

Inductive step (s : State) : State -> Prop :=
(* main: [waitGroup.Add(1); go workerGoroutine(...)], [i++] *)
| step_spawn_worker (i : Z) :
    panicked s = false -> main s = MSpawn i ->
    i < actualWorkerCount workerCountFlag totalGames ->
    step s {| jobQueue := jobQueue s; resultQueue := resultQueue s;
              waitGroup := waitGroup s + 1;
              workers := workers s ++ [WIdle];
              sender := sender s; closer := closer s; main := MSpawn (i + 1);
              tally := tally s; panicked := false |}
(* main: the loop is over, [go func() { ... close(jobQueue) }()] *)
| step_spawn_sender (i : Z) :
    panicked s = false -> main s = MSpawn i ->
    ~ i < actualWorkerCount workerCountFlag totalGames ->
    step s {| jobQueue := jobQueue s; resultQueue := resultQueue s;
              waitGroup := waitGroup s; workers := workers s;
              sender := SSending gameNames; closer := closer s; main := MGoCloser;
              tally := tally s; panicked := false |}
(* main: [go func() { workerWaitGroup.Wait(); close(resultQueue) }()] *)
| step_spawn_closer :
    panicked s = false -> main s = MGoCloser ->
    step s {| jobQueue := jobQueue s; resultQueue := resultQueue s;
              waitGroup := waitGroup s; workers := workers s;
              sender := sender s; closer := CWaiting; main := MCollect;
              tally := tally s; panicked := false |}
(* sender: [jobQueue <- gameName] *)
| step_send_job (gameName : string) (rest : list string) :
    panicked s = false -> sender s = SSending (gameName :: rest) ->
    closed (jobQueue s) = false -> hasRoom (jobQueue s) ->
    step s {| jobQueue := push (jobQueue s) gameName; resultQueue := resultQueue s;
              waitGroup := waitGroup s; workers := workers s;
              sender := SSending rest; closer := closer s; main := main s;
              tally := tally s; panicked := false |}
| step_send_job_closed (gameName : string) (rest : list string) :
    panicked s = false -> sender s = SSending (gameName :: rest) ->
    closed (jobQueue s) = true ->
    step s (panic s)
(* sender: [close(jobQueue)] *)
| step_close_jobs :
    panicked s = false -> sender s = SSending [] ->
    closed (jobQueue s) = false ->
    step s {| jobQueue := close (jobQueue s); resultQueue := resultQueue s;
              waitGroup := waitGroup s; workers := workers s;
              sender := SDone; closer := closer s; main := main s;
              tally := tally s; panicked := false |}
| step_close_jobs_closed :
    panicked s = false -> sender s = SSending [] ->
    closed (jobQueue s) = true ->
    step s (panic s)
(* worker: [for gameName := range jobQueue] receives a name *)
| step_recv_job (i : nat) (gameName : string) (rest : list string) :
    panicked s = false -> workers s !! i = Some WIdle ->
    buf (jobQueue s) = gameName :: rest ->
    step s {| jobQueue := setBuf (jobQueue s) rest; resultQueue := resultQueue s;
              waitGroup := waitGroup s;
              workers := setWorker s i (WProcessing gameName);
              sender := sender s; closer := closer s; main := main s;
              tally := tally s; panicked := false |}
(* worker: the queue is closed and empty, the loop ends,
   [waitGroup.Done()] *)
| step_worker_exit (i : nat) :
    panicked s = false -> workers s !! i = Some WIdle ->
    buf (jobQueue s) = [] -> closed (jobQueue s) = true ->
    0 <= waitGroup s - 1 ->
    step s {| jobQueue := jobQueue s; resultQueue := resultQueue s;
              waitGroup := waitGroup s - 1;
              workers := setWorker s i WDone;
              sender := sender s; closer := closer s; main := main s;
              tally := tally s; panicked := false |}
| step_worker_exit_negative (i : nat) :
    panicked s = false -> workers s !! i = Some WIdle ->
    buf (jobQueue s) = [] -> closed (jobQueue s) = true ->
    waitGroup s - 1 < 0 ->
    step s (panic s)
(* worker: [processSingleGame(gameName, ...)] returns, whatever the
   world answers to its calls *)
| step_process (i : nat) (gameName : string) (t : list Call) (result : GameResult) :
    panicked s = false -> workers s !! i = Some (WProcessing gameName) ->
    exec (processSingleGame gameName outputDirectory shouldSkipExisting verbose)
         t result ->
    step s {| jobQueue := jobQueue s; resultQueue := resultQueue s;
              waitGroup := waitGroup s;
              workers := setWorker s i (WSending result);
              sender := sender s; closer := closer s; main := main s;
              tally := tally s; panicked := false |}
(* worker: [resultQueue <- ...] *)
| step_send_result (i : nat) (result : GameResult) :
    panicked s = false -> workers s !! i = Some (WSending result) ->
    closed (resultQueue s) = false -> hasRoom (resultQueue s) ->
    step s {| jobQueue := jobQueue s; resultQueue := push (resultQueue s) result;
              waitGroup := waitGroup s;
              workers := setWorker s i WIdle;
              sender := sender s; closer := closer s; main := main s;
              tally := tally s; panicked := false |}
| step_send_result_closed (i : nat) (result : GameResult) :
    panicked s = false -> workers s !! i = Some (WSending result) ->
    closed (resultQueue s) = true ->
    step s (panic s)
(* closer: [workerWaitGroup.Wait()] returns *)
| step_wait :
    panicked s = false -> closer s = CWaiting -> waitGroup s = 0 ->
    step s {| jobQueue := jobQueue s; resultQueue := resultQueue s;
              waitGroup := waitGroup s; workers := workers s;
              sender := sender s; closer := CClosing; main := main s;
              tally := tally s; panicked := false |}
(* closer: [close(resultQueue)] *)
| step_close_results :
    panicked s = false -> closer s = CClosing ->
    closed (resultQueue s) = false ->
    step s {| jobQueue := jobQueue s; resultQueue := close (resultQueue s);
              waitGroup := waitGroup s; workers := workers s;
              sender := sender s; closer := CDone; main := main s;
              tally := tally s; panicked := false |}
| step_close_results_closed :
    panicked s = false -> closer s = CClosing ->
    closed (resultQueue s) = true ->
    step s (panic s)
(* main: [for result := range resultQueue] receives a result *)
| step_collect (result : GameResult) (rest : list GameResult) :
    panicked s = false -> main s = MCollect ->
    buf (resultQueue s) = result :: rest ->
    step s {| jobQueue := jobQueue s; resultQueue := setBuf (resultQueue s) rest;
              waitGroup := waitGroup s; workers := workers s;
              sender := sender s; closer := closer s; main := main s;
              tally := collect result (tally s); panicked := false |}
(* main: the queue is closed and empty, the loop ends *)
| step_finish :
    panicked s = false -> main s = MCollect ->
    buf (resultQueue s) = [] -> closed (resultQueue s) = true ->
    step s {| jobQueue := jobQueue s; resultQueue := resultQueue s;
              waitGroup := waitGroup s; workers := workers s;
              sender := sender s; closer := closer s; main := MDone;
              tally := tally s; panicked := false |}.

(** [steps n s s']: [n] steps lead from [s] to [s']. *)
Inductive steps : nat -> State -> State -> Prop :=
| steps_O (s : State) : steps 0 s s
| steps_S (n : nat) (s1 s2 s3 : State) :
    steps n s1 s2 -> step s2 s3 -> steps (S n) s1 s3.

Definition reachable (s : State) : Prop := exists n, steps n init s.

End WithRun.
End Pool.

(** ** Auxiliary definitions of the pool proofs *)
Module PoolInv.
Import Sys Processor Pool.

(** The name a worker holds, if any. *)
Definition workerName (w : Worker) : list string :=
  match w with
  | WProcessing gameName => [gameName]
  | WSending result => [GameName result]
  | _ => []
  end.

Definition inFlight (ws : list Worker) : list string := flat_map workerName ws.

Definition isLive (w : Worker) : nat :=
  match w with
  | WDone => 0
  | _ => 1
  end.

(** The workers that have not returned. *)
Definition liveCount (ws : list Worker) : nat := list_sum (map isLive ws).

Section WithRun.
Context `{GoLib}.
Variable gameNames : list string.
Variable workerCountFlag : Z.
Variable outputDirectory : string.
Variable shouldSkipExisting verbose : bool.

Definition W : Z := actualWorkerCount workerCountFlag (totalGames gameNames).

(** The names not yet sent to the job queue. *)
Definition unsent (s : State) : list string :=
  match sender s with
  | SNotStarted => gameNames
  | SSending rest => rest
  | SDone => []
  end.

(** Where the names are: not yet sent, in the job queue, with a
    worker, in the result queue, or printed. *)
Definition accounted (s : State) : list string :=
  unsent s ++ buf (jobQueue s) ++ inFlight (workers s) ++
  map GameName (buf (resultQueue s)) ++ map GameName (printed (tally s)).

(** [result] is what some run of [processSingleGame] on its name
    returned. *)
Definition genuine (result : GameResult) : Prop :=
  exists t : list Call,
    exec (processSingleGame (GameName result) outputDirectory shouldSkipExisting verbose)
         t result.

Definition genuineWorker (w : Worker) : Prop :=
  match w with
  | WSending result => genuine result
  | _ => True
  end.

Record Inv (s : State) : Prop := {
  inv_panicked : panicked s = false;
  inv_names : gameNames ≡ₚ accounted s;
  inv_waitGroup : waitGroup s = Z.of_nat (liveCount (workers s));
  inv_cap_jobs : cap (jobQueue s) = totalGames gameNames;
  inv_cap_results : cap (resultQueue s) = totalGames gameNames;
  inv_main :
    match main s with
    | MSpawn i =>
        Z.of_nat (length (workers s)) = i /\ i <= Z.max 0 W /\
        sender s = SNotStarted /\ closer s = CNotStarted
    | MGoCloser =>
        Z.of_nat (length (workers s)) = Z.max 0 W /\
        sender s <> SNotStarted /\ closer s = CNotStarted
    | MCollect =>
        Z.of_nat (length (workers s)) = Z.max 0 W /\
        sender s <> SNotStarted /\ closer s <> CNotStarted
    | MDone =>
        Z.of_nat (length (workers s)) = Z.max 0 W /\
        sender s <> SNotStarted /\ closer s <> CNotStarted /\
        closed (resultQueue s) = true /\ buf (resultQueue s) = []
    end;
  inv_jobs_closed : closed (jobQueue s) = true <-> sender s = SDone;
  inv_worker_done :
    In WDone (workers s) -> closed (jobQueue s) = true /\ buf (jobQueue s) = [];
  inv_closer :
    match closer s with
    | CNotStarted | CWaiting => closed (resultQueue s) = false
    | CClosing => closed (resultQueue s) = false /\ waitGroup s = 0
    | CDone => closed (resultQueue s) = true /\ waitGroup s = 0
    end;
  inv_tally :
    completedCount (tally s) = Z.of_nat (length (printed (tally s))) /\
    successCount (tally s) =
      Z.of_nat (length (filter (fun r => Success r = true) (printed (tally s)))) /\
    failedCount (tally s) =
      Z.of_nat (length (filter (fun r => Success r = false) (printed (tally s)))) /\
    failedGameNames (tally s) =
      map GameName (filter (fun r => Success r = false) (printed (tally s)));
  inv_genuine :
    Forall genuineWorker (workers s) /\
    Forall genuine (buf (resultQueue s)) /\
    Forall genuine (printed (tally s))
}.

(** The steps a state still has in it, at most. *)
Definition mainSteps (m : Main) : nat :=
  match m with
  | MSpawn i => 2 * Z.to_nat (W - i) + 3
  | MGoCloser => 2
  | MCollect => 1
  | MDone => 0
  end.

Definition senderSteps (x : Sender) : nat :=
  match x with
  | SDone => 0
  | _ => 1
  end.

Definition closerSteps (c : Closer) : nat :=
  match c with
  | CNotStarted | CWaiting => 2
  | CClosing => 1
  | CDone => 0
  end.

Definition workerSteps (w : Worker) : nat :=
  match w with
  | WIdle => 1
  | WProcessing _ => 4
  | WSending _ => 3
  | WDone => 0
  end.

Definition potential (s : State) : nat :=
  mainSteps (main s) + senderSteps (sender s) + closerSteps (closer s) +
  5 * length (unsent s) + 4 * length (buf (jobQueue s)) +
  list_sum (map workerSteps (workers s)) + length (buf (resultQueue s)).

End WithRun.
End PoolInv.

(** ** Two runs of the pool, for the examples *)
Module PoolExample.
Import Sys Processor Pool.

Definition portalResult : GameResult :=
  {| GameName := "Portal"; GameID := 400; Success := true; Error := None |}.

(** The state [main] ends in for the one name "Portal" and one worker,
    when the store answers as in [MemWorld.emptyWorld]. *)
Definition oneWorkerEnd : State :=
  {| jobQueue := {| buf := []; cap := 1; closed := true |};
     resultQueue := {| buf := []; cap := 1; closed := true |};
     waitGroup := 0;
     workers := [WDone];
     sender := SDone;
     closer := CDone;
     main := MDone;
     tally := {| successCount := 1; failedCount := 0; completedCount := 1;
                 failedGameNames := []; printed := [portalResult] |};
     panicked := false |}.

(** A state [main] can end in for the one name "Portal" and
    [--workers 0]: the name is still with the sender. *)
Definition noWorkerEnd : State :=
  {| jobQueue := {| buf := []; cap := 1; closed := false |};
     resultQueue := {| buf := []; cap := 1; closed := true |};
     waitGroup := 0;
     workers := [];
     sender := SSending ["Portal"];
     closer := CDone;
     main := MDone;
     tally := {| successCount := 0; failedCount := 0; completedCount := 0;
                 failedGameNames := []; printed := [] |};
     panicked := false |}.

End PoolExample.
(** ** [strings] and [unicode]: what the loop over the input lines uses *)
Module Strings.

(** [unicode.IsSpace]: the switch on the Latin-1 runes; above Latin-1
    the code points of [unicode.White_Space], written as ranges, the
    last of which ends at U+3000. *)
Definition MaxLatin1 : Z := 255.

Definition White_Space : list (Z * Z) :=
  [(5760, 5760); (8192, 8202); (8232, 8233); (8239, 8239); (8287, 8287); (12288, 12288)].

Definition IsSpace (r : rune) : bool :=
  if r mod 2 ^ 32 <=? MaxLatin1 then
    (r =? 9) || (r =? 10) || (r =? 11) || (r =? 12) || (r =? 13) || (r =? 32) ||
    (r =? 133) || (r =? 160)
  else if r mod 2 ^ 32 <=? 12288 then Fmt.inRanges White_Space (r mod 65536)
  else false.

(** The table [asciiSpace]. *)
Definition asciiSpace (c : byte) : bool :=
  (byteVal c =? 9) || (byteVal c =? 10) || (byteVal c =? 11) ||
  (byteVal c =? 12) || (byteVal c =? 13) || (byteVal c =? 32).

(** [utf8.RuneStart]. *)
Definition RuneStart (b : byte) : bool := negb (Z.land (byteVal b) 192 =? 128).

Definition UTFMax : Z := 4.

(** [s[i]] for an index within the string. *)
Definition byteAt (s : list byte) (i : Z) : byte := nth (Z.to_nat i) s "000"%char.

(** The loop [for start--; start >= lim; start-- { if RuneStart(s[start]) { break } }]
    of [DecodeLastRuneInString]: [start] when the loop is left. *)
Fixpoint backToStart (n : nat) (s : list byte) (start lim : Z) : Z :=
  match n with
  | O => start
  | S n' =>
    if start <? lim then start
    else if RuneStart (byteAt s start) then start
    else backToStart n' s (start - 1) lim
  end.

(** [utf8.DecodeRuneInString]: for a string that is not empty, the
    rune and the width that one iteration of [range] yields. *)
Definition DecodeRuneInString (s : list byte) : rune * nat :=
  match s with
  | [] => (Utf8.runeError, 0%nat)
  | _ :: _ => Utf8.nextRune s
  end.

(** [utf8.DecodeLastRuneInString]. *)
Definition DecodeLastRuneInString (s : list byte) : rune * Z :=
  let end_ := Z.of_nat (length s) in
  if end_ =? 0 then (Utf8.runeError, 0)
  else
    let start := end_ - 1 in
    let r := byteVal (byteAt s start) in
    if r <? Utf8.RuneSelf then (r, 1)
    else
      let lim := Z.max 0 (end_ - UTFMax) in
      let start := backToStart 4 s (start - 1) lim in
      let start := Z.max 0 start in
      let '(r, size) := DecodeRuneInString (drop (Z.to_nat start) s) in
      if negb (start + Z.of_nat size =? end_) then (Utf8.runeError, 1)
      else (r, Z.of_nat size).

(** [indexFunc(s, f, false)]: the index of the first rune of
    [for i, r := range s] that [f] rejects; [i] is the index of the
    head of [s], [skip] counts the bytes of the rune before that are
    still ahead. *)
Fixpoint indexFuncFrom (f : rune -> bool) (skip : nat) (i : Z) (s : list byte) : option Z :=
  match s with
  | [] => None
  | _ :: tl =>
    match skip with
    | S k => indexFuncFrom f k (i + 1) tl
    | O =>
      let '(r, w) := Utf8.nextRune s in
      if f r then indexFuncFrom f (Nat.pred w) (i + 1) tl else Some i
    end
  end.

(** [lastIndexFunc(s, f, false)]: the loop
    [for i := len(s); i > 0; ] runs at most [len(s)] times, each time
    with a smaller [i]. *)
Fixpoint lastIndexFuncFrom (f : rune -> bool) (n : nat) (s : list byte) (i : Z) : option Z :=
  match n with
  | O => None
  | S n' =>
    if 0 <? i then
      let '(r, size) := DecodeLastRuneInString (take (Z.to_nat i) s) in
      let i := i - size in
      if f r then lastIndexFuncFrom f n' s i else Some i
    else None
  end.

(** [TrimLeftFunc]: the empty string when [indexFunc] returns -1. *)
Definition TrimLeftFunc (s : list byte) (f : rune -> bool) : list byte :=
  match indexFuncFrom f 0 0 s with
  | None => []
  | Some i => drop (Z.to_nat i) s
  end.

(** [TrimRightFunc]: [i] is the index of the last rune that [f] rejects,
    or -1. *)
Definition TrimRightFunc (s : list byte) (f : rune -> bool) : list byte :=
  let i := match lastIndexFuncFrom f (length s) s (Z.of_nat (length s)) with
           | Some i => i
           | None => -1
           end in
  if (0 <=? i) && (Utf8.RuneSelf <=? byteVal (byteAt s i))
  then let '(_, wid) := DecodeRuneInString (drop (Z.to_nat i) s) in
       take (Z.to_nat (i + Z.of_nat wid)) s
  else take (Z.to_nat (i + 1)) s.

Definition TrimFunc (s : list byte) (f : rune -> bool) : list byte :=
  TrimRightFunc (TrimLeftFunc s f) f.

(** The second loop of [TrimSpace], over [s[start:]] from its end:
    [r] is what is left of it, reversed. *)
Fixpoint trimSpaceStop (r : list byte) : list byte :=
  match r with
  | [] => []
  | c :: tl =>
    if Utf8.RuneSelf <=? byteVal c then TrimRightFunc (rev r) IsSpace
    else if asciiSpace c then trimSpaceStop tl
    else rev r
  end.

(** [strings.TrimSpace]: the first loop, over [s] from its start. *)
Fixpoint TrimSpace (s : list byte) : list byte :=
  match s with
  | [] => []
  | c :: tl =>
    if Utf8.RuneSelf <=? byteVal c then TrimFunc s IsSpace
    else if asciiSpace c then TrimSpace tl
    else trimSpaceStop (rev s)
  end.

(** [strings.Split(s, sep)] for a separator of one byte: the pieces of
    [s] between the separators, one more than there are separators. *)
Fixpoint Split (s : list byte) (sep : byte) : list (list byte) :=
  match s with
  | [] => [[]]
  | c :: tl =>
    if Ascii.eqb c sep then [] :: Split tl sep
    else
      match Split tl sep with
      | piece :: rest => (c :: piece) :: rest
      | [] => [[c]]
      end
  end.

End Strings.

(** ** The names [main] reads from the input file *)
Module Input.

(** [strings.Split(string(inputFileContent), "\n")]. *)
Definition inputLines (inputFileContent : string) : list string :=
  map string_of_list_ascii (Strings.Split (list_ascii_of_string inputFileContent) "010"%char).

(** The loop over [inputLines]. *)
Definition gameNames (inputFileContent : string) : list string :=
  fold_left
    (fun (gameNames : list string) (line : string) =>
       let trimmedLine := string_of_list_ascii (Strings.TrimSpace (list_ascii_of_string line)) in
       if String.eqb trimmedLine "" then gameNames else gameNames ++ [trimmedLine])
    (inputLines inputFileContent) [].

End Input.

(** ** What the collecting loop prints for a failure *)
Module Output.

(** [errorMessage], as the [else] branch of the loop computes it. *)
Definition errorMessage (verboseFlag : bool) (result : Processor.GameResult) : string :=
  let errorMessage := "Not found" in
  match Processor.Error result with
  | Some err => if verboseFlag then Sys.errorText err else errorMessage
  | None => errorMessage
  end.

End Output.


(** ** Auxiliary definitions of the further proofs *)

(** *** The words of a name *)
Module Words.
Import Sanitizer.

(** A rune that [sanitizeFilename] keeps as it is and never merges: an
    ASCII letter, a digit or a hyphen. *)
Definition isWordRune (r : rune) : bool :=
  isValidChar r && negb (r =? runeLit " ") && negb (r =? runeLit "_").

Definition notUnderscore (c : byte) : bool := negb (Ascii.eqb c "_").

Definition consWord {A : Type} (w : list A) (ws : list (list A)) : list (list A) :=
  match w with
  | [] => ws
  | _ => w :: ws
  end.

(** The word at the head of [l] (empty when [l] starts with a
    separator) and the words behind it. *)
Fixpoint wordsFrom {A : Type} (sep : A -> bool) (l : list A) : list A * list (list A) :=
  match l with
  | [] => ([], [])
  | c :: tl =>
    let '(w, ws) := wordsFrom sep tl in
    if sep c then ([], consWord w ws) else (c :: w, ws)
  end.

(** The maximal runs of elements that are not separators. *)
Definition words {A : Type} (sep : A -> bool) (l : list A) : list (list A) :=
  let '(w, ws) := wordsFrom sep l in consWord w ws.

(** The words of a name: the maximal runs of ASCII letters, digits and
    hyphens among its runes. *)
Definition nameWords (gameName : string) : list (list rune) :=
  words (fun r => negb (isWordRune r)) (Utf8.rangeRunes gameName).

(** Words with one [u] between two of them. *)
Fixpoint joinWords {A : Type} (u : A) (ws : list (list A)) : list A :=
  match ws with
  | [] => []
  | w :: rest =>
    match rest with
    | [] => w
    | _ => w ++ u :: joinWords u rest
    end
  end.

End Words.

(** *** Decimal text *)
Module Scan.
Import Fmt.

(** The runes of the decimal text of [d]. *)
Fixpoint digitRunes (d : Decimal.uint) : list rune :=
  match d with
  | Decimal.Nil => []
  | Decimal.D0 l => 48 :: digitRunes l
  | Decimal.D1 l => 49 :: digitRunes l
  | Decimal.D2 l => 50 :: digitRunes l
  | Decimal.D3 l => 51 :: digitRunes l
  | Decimal.D4 l => 52 :: digitRunes l
  | Decimal.D5 l => 53 :: digitRunes l
  | Decimal.D6 l => 54 :: digitRunes l
  | Decimal.D7 l => 55 :: digitRunes l
  | Decimal.D8 l => 56 :: digitRunes l
  | Decimal.D9 l => 57 :: digitRunes l
  end.

(** [scanInt] stops in front of [more]: there is nothing left, or a
    rune that is not one of its digits. *)
Definition stopsNumber (more : list rune) : Prop :=
  match more with
  | [] => True
  | r :: _ => indexRune decimalDigits r = false
  end.

(** The text behind a number: nothing, or something that starts with
    a byte that is not a digit. *)
Definition endsNumber (rest : string) : bool :=
  match rest with
  | EmptyString => true
  | String c _ => negb (existsb (Ascii.eqb c) (list_ascii_of_string "0123456789"))
  end.

(** A text that cannot start a number: nothing at all; a sign and then
    nothing or a byte that is not a digit; or a first byte that is
    printable ASCII and neither a sign nor a digit. *)
Definition notNumber (content : string) : bool :=
  match content with
  | EmptyString => true
  | String c rest =>
    if Ascii.eqb c "+" || Ascii.eqb c "-" then endsNumber rest
    else (33 <=? byteVal c) && (byteVal c <=? 126) &&
         negb (existsb (Ascii.eqb c) (list_ascii_of_string "0123456789"))
  end.

End Scan.

(** *** The calls of [findSteamGameID] and [processSingleGame] *)
Module Trace.
Import Sys Processor.

Definition notLog (c : Call) : bool := negb (isStderr c).

Definition noRequestNoWrite (c : Call) : Prop :=
  isHttpGet c = false /\ isWriteFile c = false.

(** What one call of [processSingleGame] may be: a probe or a write
    of its own file, the request for its own name, a log line in
    verbose mode. *)
Definition ownCall `{GoLib} (gameName outputDirectory : string)
           (shouldSkipExisting verbose : bool) (c : Call) : Prop :=
  match c with
  | CStat name _ | CReadFile name _ =>
    shouldSkipExisting = true /\ name = steamFilePath gameName outputDirectory
  | CWriteFile name _ perm _ =>
    name = steamFilePath gameName outputDirectory /\ perm = 420
  | CHttpGet url _ => url = Resolver.requestURL gameName
  | CStderr _ => verbose = true
  end.

(** The probe of the stored record, when it does not end the call. *)
Definition missedProbe (gameName path : string) (shouldSkipExisting : bool)
           (tProbe : list Call) : Prop :=
  (shouldSkipExisting = false /\ tProbe = []) \/
  (shouldSkipExisting = true /\
   ((exists err, tProbe = [CStat path (Some err)]) \/
    (exists l read, tProbe = CStat path None :: l ++ [CReadFile path read] /\
                    logOnly l /\ cachedOutcome gameName read = None))).

(** What follows the answer of [findSteamGameID]. *)
Definition writeStep (gameName path : string) (found : Z * option error)
           (tWrite : list Call) (result : GameResult) : Prop :=
  match found with
  | (_, Some err) => tWrite = [] /\ result = failureResult gameName err
  | (gameID, None) =>
    exists writeErr,
      tWrite = [CWriteFile path (Fmt.Sprintf_d gameID) fileMode writeErr] /\
      result = match writeErr with
               | Some err => failureResult gameName (errWriting err)
               | None => successResult gameName gameID
               end
  end.

End Trace.

(** *** The calls of a run in the world in memory *)
Module Store.
Import Sys MemWorld.

(** The world after a call. *)
Definition applyCall (c : Call) (w : World) : World :=
  match c with
  | CStat name _ => snd (handler _ (Stat name) w)
  | CReadFile name _ => snd (handler _ (ReadFile name) w)
  | CWriteFile name data perm _ => snd (handler _ (WriteFile name data perm) w)
  | CHttpGet url _ => snd (handler _ (HttpGet url) w)
  | CStderr line => snd (handler _ (Stderr line) w)
  end.

(** The answer of a call is the one the world gives. *)
Definition answered (c : Call) (w : World) : Prop :=
  match c with
  | CStat name err => err = fst (handler _ (Stat name) w)
  | CReadFile name read => read = fst (handler _ (ReadFile name) w)
  | CWriteFile name data perm err => err = fst (handler _ (WriteFile name data perm) w)
  | CHttpGet url got => got = fst (handler _ (HttpGet url) w)
  | CStderr _ => True
  end.

Fixpoint replay (t : list Call) (w : World) : World :=
  match t with
  | [] => w
  | c :: rest => replay rest (applyCall c w)
  end.

Fixpoint agrees (t : list Call) (w : World) : Prop :=
  match t with
  | [] => True
  | c :: rest => answered c w /\ agrees rest (applyCall c w)
  end.

End Store.

(** *** More worlds *)
Module Worlds.
Import Sys MemWorld.

(** No network. *)
Definition offlineWorld : World :=
  {| files := ∅; locked := ∅; faulty := ∅; web := ∅; stderr := [] |}.

(** The store answers 503. *)
Definition unavailableWorld : World :=
  {| files := ∅; locked := ∅; faulty := ∅;
     web := {[ Resolver.requestURL "Portal" :=
                 Ok {| StatusCode := 503; Body := Ok "Service Unavailable" |} ]};
     stderr := [] |}.

(** The write of the output file fails after one byte. *)
Definition faultyWorld : World :=
  {| files := ∅; locked := ∅; faulty := {[ "output/Portal.steam" := 1%nat ]};
     web := portalWeb; stderr := [] |}.

End Worlds.

(** *** Two states on the way of the pool *)
Module PoolStates.
Import Sys Processor Pool.

(** The pool for "Portal" and one worker when the sender is about to
    send the name, and when the worker is about to send the result. *)
Definition senderReady : State :=
  {| jobQueue := {| buf := []; cap := 1; closed := false |};
     resultQueue := {| buf := []; cap := 1; closed := false |};
     waitGroup := 1;
     workers := [WIdle];
     sender := SSending ["Portal"];
     closer := CNotStarted;
     main := MGoCloser;
     tally := {| successCount := 0; failedCount := 0; completedCount := 0;
                 failedGameNames := []; printed := [] |};
     panicked := false |}.

Definition workerReady : State :=
  {| jobQueue := {| buf := []; cap := 1; closed := false |};
     resultQueue := {| buf := []; cap := 1; closed := false |};
     waitGroup := 1;
     workers := [WSending PoolExample.portalResult];
     sender := SSending [];
     closer := CNotStarted;
     main := MGoCloser;
     tally := {| successCount := 0; failedCount := 0; completedCount := 0;
                 failedGameNames := []; printed := [] |};
     panicked := false |}.

End PoolStates.

(** *** Input files *)
Module Lines.

Definition nl : string := String "010"%char EmptyString.
Definition crlf : string := String "013"%char (String "010"%char EmptyString).

(** A byte a clean name starts and ends with: ASCII, not white
    space. *)
Definition edgeByte (c : byte) : bool :=
  (byteVal c <? Utf8.RuneSelf) && negb (Strings.asciiSpace c).

(** A name as a line of the input file has it: it starts and ends with
    an ASCII character that is not white space, and has no newline. *)
Definition cleanName (name : string) : bool :=
  match list_ascii_of_string name with
  | [] => false
  | c :: tl =>
    edgeByte c && edgeByte (List.last tl c) &&
    forallb (fun x => negb (Ascii.eqb x "010")) (c :: tl)
  end.

(** The file with one name per line, each line ended by [eol]. *)
Definition unlines (eol : string) (names : list string) : string :=
  fold_right (fun name rest => name +:+ eol +:+ rest) "" names.

End Lines.
(** * Proofs *)

Import Sanitizer.

(** ** Bytes and runes *)

Lemma byteVal_range (c : byte) : 0 <= byteVal c < 256.
Proof.
  unfold byteVal. pose proof (N_ascii_bounded c). lia.
Qed.

Lemma toByte_byteVal (c : byte) : toByte (byteVal c) = c.
Proof.
  unfold toByte. pose proof (byteVal_range c).
  rewrite Z.mod_small by lia. unfold byteVal.
  rewrite N2Z.id. apply ascii_N_embedding.
Qed.

Lemma byteVal_toByte (x : Z) : 0 <= x < 256 -> byteVal (toByte x) = x.
Proof.
  intros Hx. unfold toByte, byteVal.
  rewrite Z.mod_small by lia.
  rewrite N_ascii_embedding by lia. lia.
Qed.

Lemma byteVal_inj (a b : byte) : byteVal a = byteVal b -> a = b.
Proof.
  intros H. rewrite <- (toByte_byteVal a), <- (toByte_byteVal b). now rewrite H.
Qed.

Ltac unfold_lits :=
  unfold runeLit in *;
  repeat match goal with
  | |- context [byteVal (Ascii ?a ?b ?c ?d ?e ?f ?g ?h)] =>
      let v := eval vm_compute in (byteVal (Ascii a b c d e f g h)) in
      change (byteVal (Ascii a b c d e f g h)) with v
  | H : context [byteVal (Ascii ?a ?b ?c ?d ?e ?f ?g ?h)] |- _ =>
      let v := eval vm_compute in (byteVal (Ascii a b c d e f g h)) in
      change (byteVal (Ascii a b c d e f g h)) with v in H
  end.

Lemma isValidChar_ascii (r : rune) : isValidChar r = true -> 32 <= r < 128.
Proof.
  unfold isValidChar. unfold_lits. lia.
Qed.

Lemma isValidChar_byte (r : rune) :
  isValidChar r = true -> byteVal (toByte r) = r.
Proof.
  intros H. apply isValidChar_ascii in H. apply byteVal_toByte. lia.
Qed.

Lemma isValidChar_underscore : isValidChar (runeLit "_") = true.
Proof. reflexivity. Qed.

(** *** The loop over the runes *)

Lemma nextRune_low (c : byte) (tl : list byte) :
  byteVal c < 128 -> Utf8.nextRune (c :: tl) = (byteVal c, 1%nat).
Proof.
  intros H. unfold Utf8.nextRune, Utf8.RuneSelf.
  destruct (Z.ltb_spec (byteVal c) 128); [reflexivity | lia].
Qed.

Lemma decoderune_high (s : list byte) : 127 < fst (Utf8.decoderune s).
Proof.
  unfold Utf8.decoderune, Utf8.runeError, Utf8.rune1Max, Utf8.rune2Max,
    Utf8.rune3Max, Utf8.maxRune.
  repeat case_match; simpl; lia.
Qed.

Lemma nextRune_high (c : byte) (tl : list byte) :
  128 <= byteVal c -> 127 < fst (Utf8.nextRune (c :: tl)).
Proof.
  intros H. unfold Utf8.nextRune, Utf8.RuneSelf.
  destruct (Z.ltb_spec (byteVal c) 128); [lia | apply decoderune_high].
Qed.

Lemma WriteRune_valid (b : Builder) (r : rune) :
  isValidChar r = true -> WriteRune b r = b ++ [toByte r].
Proof.
  intros H. apply isValidChar_ascii in H.
  unfold WriteRune, Utf8.AppendRune, Utf8.rune1Max.
  rewrite Z.mod_small by lia.
  destruct (Z.leb_spec r 127); [reflexivity | lia].
Qed.

Lemma sanitizeLoop_fold (rs : list rune) (acc : Builder) :
  fold_left
    (fun (sanitized : Builder) (char : rune) =>
       if isValidChar char
       then WriteRune sanitized char
       else WriteRune sanitized (runeLit "_"))
    rs acc = acc ++ map substByte rs.
Proof.
  revert acc. induction rs as [|r rs IH]; intros acc; simpl.
  - now rewrite app_nil_r.
  - rewrite IH. unfold substByte.
    destruct (isValidChar r) eqn:Hr.
    + rewrite WriteRune_valid by assumption. now rewrite <- app_assoc.
    + rewrite WriteRune_valid by apply isValidChar_underscore.
      now rewrite <- app_assoc.
Qed.

Lemma sanitizeLoop_map (s : string) :
  sanitizeLoop s = map substByte (Utf8.rangeRunes s).
Proof. unfold sanitizeLoop. now rewrite sanitizeLoop_fold. Qed.

Lemma substByte_valid (r : rune) : isValidChar (byteVal (substByte r)) = true.
Proof.
  unfold substByte. destruct (isValidChar r) eqn:Hr.
  - now rewrite isValidChar_byte.
  - reflexivity.
Qed.

Lemma sanitizeLoop_valid (s : string) :
  Forall (fun c => isValidChar (byteVal c) = true) (sanitizeLoop s).
Proof.
  rewrite sanitizeLoop_map. apply Forall_forall. intros c Hc.
  apply list_elem_of_In, in_map_iff in Hc. destruct Hc as [r [<- _]].
  apply substByte_valid.
Qed.

(** *** Replacing the matches of a character class *)

Section Collapse.
Variable cls : byte -> bool.
Variable u : byte.

Lemma replaceAllFrom_collapse (s : list byte) :
  replaceAllFrom cls [u] 0 s = collapse cls u false s /\
  replaceAllFrom cls [u] (matchLen cls s) s = collapse cls u true s.
Proof.
  induction s as [|c tl [IH0 IHm]]; [split; reflexivity|].
  assert (H0 : replaceAllFrom cls [u] 0 (c :: tl) = collapse cls u false (c :: tl)).
  { simpl. destruct (cls c); simpl.
    - now rewrite IHm.
    - now rewrite IH0. }
  split; [exact H0|].
  simpl (matchLen _ _). destruct (cls c) eqn:Hc.
  - simpl. now rewrite Hc.
  - rewrite H0. simpl. now rewrite Hc.
Qed.

Lemma ReplaceAllString_collapse (s : list byte) :
  ReplaceAllString cls s [u] = collapse cls u false s.
Proof. apply replaceAllFrom_collapse. Qed.

Hypothesis cls_u : cls u = true.

(** Every byte of the result is the replacement or a byte of the
    source outside the class; two replacements are never neighbours;
    after a match the result does not start with one. *)
Lemma collapse_shape (s : list byte) (b : bool) :
  Forall (fun c => c = u \/ (cls c = false /\ In c s)) (collapse cls u b s) /\
  adjFree (fun c => c = u) (collapse cls u b s) /\
  (b = true -> head (collapse cls u b s) <> Some u).
Proof.
  revert b. induction s as [|c tl IH]; intros b.
  - simpl. repeat split; [constructor | discriminate].
  - assert (Hweak : forall o : list byte,
              Forall (fun x => x = u \/ (cls x = false /\ In x tl)) o ->
              Forall (fun x => x = u \/ (cls x = false /\ In x (c :: tl))) o).
    { intros o Ho. eapply Forall_impl; [exact Ho|].
      intros x [->|[Hx Hin]]; [now left|].
      right. split; [assumption | now right]. }
    simpl. destruct (cls c) eqn:Hc.
    + destruct (IH true) as (HF & HA & HH). destruct b.
      * repeat split; auto.
      * repeat split.
        -- constructor; [now left | auto].
        -- destruct (collapse cls u true tl) as [|x o] eqn:Ho; [exact I|].
           intros [_ ->]. now apply HH.
        -- exact HA.
        -- discriminate.
    + destruct (IH false) as (HF & HA & _).
      assert (Hcu : c <> u) by (intros ->; congruence).
      repeat split.
      * constructor; [right; split; [assumption | now left] | auto].
      * destruct (collapse cls u false tl); [exact I|]. intros [-> _]. now apply Hcu.
      * exact HA.
      * simpl. intros _ [=]. now apply Hcu.
Qed.

(** A string without a byte of the class next to another one, and
    whose class bytes are all the replacement, is left as it is. *)
Lemma collapse_fixed (s : list byte) :
  Forall (fun c => cls c = true -> c = u) s ->
  adjFree (fun c => c = u) s ->
  collapse cls u false s = s /\
  (head s <> Some u -> collapse cls u true s = s).
Proof.
  induction s as [|c tl IH]; intros HF HA; [split; reflexivity|].
  inversion HF as [|? ? Hc HF']; subst.
  destruct HA as [Hadj HA'].
  destruct (IH HF' HA') as [IH0 IH1].
  simpl. destruct (cls c) eqn:Hcc.
  - specialize (Hc eq_refl). subst c.
    assert (Htl : head tl <> Some u).
    { destruct tl as [|x tl']; [discriminate|]. simpl. intros [= ->]. now apply Hadj. }
    split.
    + now rewrite IH1.
    + simpl. intros Hne. now contradiction Hne.
  - split; intros; now rewrite IH0.
Qed.
End Collapse.

(** *** Trimming *)

Section Trim.
Variable c : byte.

Lemma trimLeftByte_split (s : list byte) :
  exists k, s = repeat c k ++ trimLeftByte s c.
Proof.
  induction s as [|x tl [k IH]]; [now exists 0%nat|].
  simpl. destruct (Ascii.eqb_spec x c) as [->|Hne].
  - exists (S k). simpl. now rewrite <- IH.
  - now exists 0%nat.
Qed.

Lemma trimLeftByte_head (s : list byte) : head (trimLeftByte s c) <> Some c.
Proof.
  induction s as [|x tl IH]; [discriminate|].
  simpl. destruct (Ascii.eqb_spec x c) as [->|Hne]; [exact IH|].
  simpl. congruence.
Qed.

Lemma trimLeftByte_fixed (s : list byte) :
  head s <> Some c -> trimLeftByte s c = s.
Proof.
  destruct s as [|x tl]; [reflexivity|]. simpl. intros H.
  destruct (Ascii.eqb_spec x c) as [->|Hne]; [now contradiction H | reflexivity].
Qed.

Lemma trimRightByte_split (s : list byte) :
  exists k, s = trimRightByte s c ++ repeat c k.
Proof.
  induction s as [|x tl [k IH]]; [now exists 0%nat|].
  simpl. destruct (trimRightByte tl c) as [|y t] eqn:Ht.
  - destruct (Ascii.eqb_spec x c) as [->|Hne].
    + exists (S k). simpl in *. now rewrite <- IH.
    + exists k. simpl in *. now rewrite <- IH.
  - exists k. simpl in *. now rewrite <- IH.
Qed.

Lemma trimRightByte_last (s : list byte) : last (trimRightByte s c) <> Some c.
Proof.
  induction s as [|x tl IH]; [discriminate|].
  simpl. destruct (trimRightByte tl c) as [|y t] eqn:Ht.
  - destruct (Ascii.eqb_spec x c) as [->|Hne]; simpl; congruence.
  - simpl. exact IH.
Qed.

Lemma trimRightByte_fixed (s : list byte) :
  last s <> Some c -> trimRightByte s c = s.
Proof.
  induction s as [|x tl IH]; [reflexivity|]. intros H. simpl.
  destruct tl as [|y tl'].
  - simpl. destruct (Ascii.eqb_spec x c) as [->|Hne]; [now contradiction H | reflexivity].
  - rewrite IH by exact H. reflexivity.
Qed.

Lemma Trim_split (s : list byte) :
  exists k1 k2, s = repeat c k1 ++ Trim s c ++ repeat c k2.
Proof.
  destruct (trimRightByte_split s) as [k2 H2].
  destruct (trimLeftByte_split (trimRightByte s c)) as [k1 H1].
  exists k1, k2. unfold Trim. rewrite app_assoc, <- H1. exact H2.
Qed.

Lemma Trim_head (s : list byte) : head (Trim s c) <> Some c.
Proof. apply trimLeftByte_head. Qed.

Lemma Trim_last (s : list byte) : last (Trim s c) <> Some c.
Proof.
  unfold Trim. pose proof (trimRightByte_last s) as Hl.
  destruct (trimLeftByte_split (trimRightByte s c)) as [k Hk].
  destruct (trimLeftByte (trimRightByte s c) c) as [|y t] eqn:Ht; [discriminate|].
  rewrite Hk, last_app in Hl.
  destruct (last (y :: t)) eqn:Hlast; [exact Hl|].
  now apply last_None in Hlast.
Qed.

Lemma Trim_fixed (s : list byte) :
  head s <> Some c -> last s <> Some c -> Trim s c = s.
Proof.
  intros Hh Hl. unfold Trim. rewrite trimRightByte_fixed by exact Hl.
  now apply trimLeftByte_fixed.
Qed.
End Trim.

(** *** The shape of a sanitized key *)

Lemma adjFree_app (P : byte -> Prop) (l1 l2 : list byte) :
  adjFree P (l1 ++ l2) -> adjFree P l1 /\ adjFree P l2.
Proof.
  induction l1 as [|a l1 IH]; simpl; [auto|].
  intros [Ha Hrest]. destruct (IH Hrest) as [H1 H2].
  repeat split; auto.
  destruct l1 as [|b l1']; [exact I | exact Ha].
Qed.

Lemma adjFree_lookup (P : byte -> Prop) (l : list byte) (i : nat) (a b : byte) :
  adjFree P l -> l !! i = Some a -> l !! S i = Some b -> ~ (P a /\ P b).
Proof.
  revert i. induction l as [|x l IH]; intros i HA Ha Hb; [discriminate|].
  destruct HA as [Hx HA]. destruct i as [|i].
  - simpl in Ha. injection Ha as ->.
    destruct l as [|y l']; [discriminate|]. simpl in Hb. injection Hb as ->. exact Hx.
  - simpl in Ha, Hb. eapply IH; eauto.
Qed.

Lemma sanitizeFilename_bytes (s : string) :
  list_ascii_of_string (sanitizeFilename s) = sanitizedBytes s.
Proof.
  unfold sanitizeFilename, sanitizedBytes.
  apply list_ascii_of_string_of_list_ascii.
Qed.

Lemma spaceUnderscoreClass_underscore : spaceUnderscoreClass "_" = true.
Proof. reflexivity. Qed.

Lemma spaceUnderscoreClass_space : spaceUnderscoreClass " " = true.
Proof. reflexivity. Qed.

Lemma keyByte_underscore : keyByte "_".
Proof. split; [reflexivity | discriminate]. Qed.

Lemma keyByte_class (c : byte) :
  keyByte c -> spaceUnderscoreClass c = true -> c = "_"%char.
Proof.
  intros [Hv Hsp] Hc. apply isValidChar_ascii in Hv.
  unfold spaceUnderscoreClass in Hc. unfold_lits.
  assert (Hcases : byteVal c = 95 \/ byteVal c = 32) by lia.
  destruct Hcases as [H|H].
  - apply byteVal_inj. rewrite H. reflexivity.
  - contradiction Hsp. apply byteVal_inj. rewrite H. reflexivity.
Qed.

Lemma sanitizedBytes_shape (s : string) : keyShape (sanitizedBytes s).
Proof.
  unfold sanitizedBytes. rewrite ReplaceAllString_collapse.
  destruct (collapse_shape spaceUnderscoreClass "_" spaceUnderscoreClass_underscore
              (sanitizeLoop s) false) as (HF & HA & _).
  set (m := collapse spaceUnderscoreClass "_" false (sanitizeLoop s)) in *.
  destruct (Trim_split "_" m) as (k1 & k2 & Hm).
  split.
  - rewrite Hm in HF. apply Forall_app in HF as [_ HF]. apply Forall_app in HF as [HF _].
    eapply Forall_impl; [exact HF|]. simpl.
    intros c [->|[Hc Hin]]; [apply keyByte_underscore|].
    split.
    + pose proof (sanitizeLoop_valid s) as Hv. rewrite Forall_forall in Hv.
      apply Hv. now apply list_elem_of_In.
    + intros ->. rewrite spaceUnderscoreClass_space in Hc. discriminate.
  - rewrite Hm in HA. apply adjFree_app in HA as [_ HA]. now apply adjFree_app in HA as [HA _].
  - apply Trim_head.
  - apply Trim_last.
Qed.

(** A key of that shape is a fixed point of [sanitizeFilename]. *)
Lemma rangeFrom_ascii (bs : list byte) :
  Forall (fun c => byteVal c < 128) bs -> Utf8.rangeFrom 0 bs = map byteVal bs.
Proof.
  induction 1 as [|c tl Hc _ IH]; [reflexivity|].
  cbn [Utf8.rangeFrom]. rewrite nextRune_low by exact Hc. simpl. now rewrite IH.
Qed.

Lemma keyShape_fixed (o : list byte) :
  keyShape o -> sanitizedBytes (string_of_list_ascii o) = o.
Proof.
  intros [HF HA Hh Hl]. unfold sanitizedBytes.
  assert (Hloop : sanitizeLoop (string_of_list_ascii o) = o).
  { rewrite sanitizeLoop_map. unfold Utf8.rangeRunes.
    rewrite list_ascii_of_string_of_list_ascii.
    rewrite rangeFrom_ascii.
    - rewrite map_map. rewrite <- (map_id o) at 2. apply map_ext_in.
      intros c Hc. rewrite Forall_forall in HF.
      destruct (HF c) as [Hv _]; [now apply list_elem_of_In|].
      unfold substByte. rewrite Hv. apply toByte_byteVal.
    - eapply Forall_impl; [exact HF|]. intros c [Hv _].
      apply isValidChar_ascii in Hv. lia. }
  rewrite Hloop, ReplaceAllString_collapse.
  destruct (collapse_fixed spaceUnderscoreClass "_" o) as [-> _].
  - eapply Forall_impl; [exact HF|]. intros c Hc. now apply keyByte_class.
  - exact HA.
  - now apply Trim_fixed.
Qed.

Lemma isValidChar_cases (v : rune) :
  isValidChar v = true ->
  (97 <= v <= 122) \/ (65 <= v <= 90) \/ (48 <= v <= 57) \/ v = 32 \/ v = 45 \/ v = 95.
Proof. unfold isValidChar. unfold_lits. lia. Qed.

Lemma keyByte_keyChar (c : byte) : keyByte c -> keyChar c.
Proof.
  intros [Hv _]. apply isValidChar_cases in Hv.
  unfold keyChar, isLetter, isDigit. unfold_lits.
  destruct Hv as [H|[H|[H|[H|[H|H]]]]].
  - left. now left.
  - left. now right.
  - right. now left.
  - right. right. left. apply byteVal_inj. now rewrite H.
  - right. right. right. left. apply byteVal_inj. now rewrite H.
  - right. right. right. right. apply byteVal_inj. now rewrite H.
Qed.

(** *** The reference algorithm *)

Lemma allowedChars_range : Forall (fun r => 32 <= r < 128) SanitizerSpec.allowedChars.
Proof.
  apply Forall_forall. intros r Hr. apply list_elem_of_In in Hr.
  vm_compute in Hr. intuition lia.
Qed.

Lemma allowed_table :
  forallb (fun n => Bool.eqb (SanitizerSpec.allowed (Z.of_nat n)) (isValidChar (Z.of_nat n)))
          (seq 0 128) = true.
Proof. vm_compute. reflexivity. Qed.

Lemma allowed_isValidChar (r : rune) : SanitizerSpec.allowed r = isValidChar r.
Proof.
  destruct (Z_lt_dec r 128) as [Hlt|Hge]; [destruct (Z_le_dec 0 r) as [Hle|Hneg]|].
  - pose proof allowed_table as H. rewrite forallb_forall in H.
    specialize (H (Z.to_nat r)). rewrite Z2Nat.id in H by lia.
    apply Bool.eqb_prop, H, in_seq. lia.
  - destruct (SanitizerSpec.allowed r) eqn:Ha, (isValidChar r) eqn:Hv; try reflexivity.
    + apply existsb_exists in Ha as (x & Hin & Hx). apply Z.eqb_eq in Hx. subst x.
      pose proof allowedChars_range as HR. rewrite Forall_forall in HR.
      apply list_elem_of_In, HR in Hin. lia.
    + apply isValidChar_ascii in Hv. lia.
  - destruct (SanitizerSpec.allowed r) eqn:Ha, (isValidChar r) eqn:Hv; try reflexivity.
    + apply existsb_exists in Ha as (x & Hin & Hx). apply Z.eqb_eq in Hx. subst x.
      pose proof allowedChars_range as HR. rewrite Forall_forall in HR.
      apply list_elem_of_In, HR in Hin. lia.
    + apply isValidChar_ascii in Hv. lia.
Qed.

Lemma replaceStep_loop (s : string) :
  SanitizerSpec.replaceStep (Utf8.rangeRunes s) = sanitizeLoop s.
Proof.
  rewrite sanitizeLoop_map. unfold SanitizerSpec.replaceStep.
  apply map_ext. intros r. unfold substByte. now rewrite allowed_isValidChar.
Qed.

Lemma collapse_ext (cls1 cls2 : byte -> bool) (u : byte) (b : bool) (l : list byte) :
  Forall (fun c => cls1 c = cls2 c) l -> collapse cls1 u b l = collapse cls2 u b l.
Proof.
  intros H. revert b. induction H as [|c tl Hc _ IH]; intros b; [reflexivity|].
  simpl. rewrite Hc. destruct (cls2 c), b; now rewrite ?IH.
Qed.

Lemma class_on_valid (c : byte) :
  isValidChar (byteVal c) = true ->
  spaceUnderscoreClass c = SanitizerSpec.isSpaceOrUnderscore c.
Proof.
  intros Hv. apply isValidChar_ascii in Hv.
  unfold SanitizerSpec.isSpaceOrUnderscore, spaceUnderscoreClass. unfold_lits.
  destruct (Ascii.eqb_spec c " ") as [->|Hsp]; [reflexivity|].
  destruct (Ascii.eqb_spec c "_") as [->|Hus]; [reflexivity|].
  assert (byteVal c <> 32) by (intros E; apply Hsp, byteVal_inj; now rewrite E).
  assert (byteVal c <> 95) by (intros E; apply Hus, byteVal_inj; now rewrite E).
  simpl. lia.
Qed.

Lemma collapseStep_collapse (l : list byte) :
  collapse SanitizerSpec.isSpaceOrUnderscore "_" false l = SanitizerSpec.collapseStep l /\
  collapse SanitizerSpec.isSpaceOrUnderscore "_" true l =
    match SanitizerSpec.runs l with
    | (true, _) :: rest =>
        flat_map (fun run : bool * list byte => if fst run then ["_"%char] else snd run) rest
    | _ => SanitizerSpec.collapseStep l
    end.
Proof.
  unfold SanitizerSpec.collapseStep.
  induction l as [|c tl [IH0 IH1]]; [split; reflexivity|].
  simpl. destruct (SanitizerSpec.runs tl) as [|[b g] rest] eqn:Hr.
  - simpl in *. rewrite IH0, IH1.
    destruct (SanitizerSpec.isSpaceOrUnderscore c); split; reflexivity.
  - destruct (SanitizerSpec.isSpaceOrUnderscore c), b; simpl in *;
      rewrite ?IH0, ?IH1; split; reflexivity.
Qed.

Lemma dropUnderscores_trimLeftByte (l : list byte) :
  SanitizerSpec.dropUnderscores l = trimLeftByte l "_".
Proof. induction l as [|c tl IH]; [reflexivity|]. simpl. now rewrite IH. Qed.

Lemma trimLeftByte_snoc (c x : byte) (l : list byte) :
  trimLeftByte (l ++ [x]) c =
  match trimLeftByte l c with
  | [] => if Ascii.eqb x c then [] else [x]
  | t => t ++ [x]
  end.
Proof.
  induction l as [|a l IH]; [reflexivity|].
  simpl. destruct (Ascii.eqb a c); [exact IH | reflexivity].
Qed.

Lemma trimRightByte_rev (c : byte) (s : list byte) :
  trimRightByte s c = rev (trimLeftByte (rev s) c).
Proof.
  induction s as [|x tl IH]; [reflexivity|].
  simpl. rewrite trimLeftByte_snoc, IH.
  destruct (trimLeftByte (rev tl) c) as [|y t] eqn:Ht.
  - simpl. destruct (Ascii.eqb x c); reflexivity.
  - rewrite rev_app_distr. simpl.
    destruct (rev t ++ [y]) eqn:E; [now destruct (rev t)|reflexivity].
Qed.

Lemma trim_commute (c : byte) (s : list byte) :
  trimRightByte (trimLeftByte s c) c = trimLeftByte (trimRightByte s c) c.
Proof.
  induction s as [|x tl IH]; [reflexivity|].
  simpl. destruct (Ascii.eqb_spec x c) as [->|Hne].
  - rewrite IH. destruct (trimRightByte tl c) as [|y t]; simpl;
      now rewrite ?Ascii.eqb_refl.
  - simpl. destruct (trimRightByte tl c) as [|y t]; simpl.
    + destruct (Ascii.eqb_spec x c); [contradiction|]. simpl.
      destruct (Ascii.eqb_spec x c); [contradiction | reflexivity].
    + destruct (Ascii.eqb_spec x c); [contradiction | reflexivity].
Qed.

Lemma stripStep_Trim (l : list byte) : SanitizerSpec.stripStep l = Trim l "_".
Proof.
  unfold SanitizerSpec.stripStep, Trim.
  rewrite !dropUnderscores_trimLeftByte, <- trimRightByte_rev.
  apply trim_commute.
Qed.

Lemma sanitize_refines (s : string) : SanitizerSpec.sanitize s = sanitizeFilename s.
Proof.
  unfold SanitizerSpec.sanitize, sanitizeFilename.
  rewrite replaceStep_loop, stripStep_Trim, ReplaceAllString_collapse.
  destruct (collapseStep_collapse (sanitizeLoop s)) as [<- _].
  rewrite (collapse_ext spaceUnderscoreClass SanitizerSpec.isSpaceOrUnderscore); [reflexivity|].
  eapply Forall_impl; [apply sanitizeLoop_valid|]. intros c. apply class_on_valid.
Qed.

(** *** Statements about [sanitizeFilename] *)

(** C1. [sanitizeFilename] is a function defined on every string (total
    and deterministic), and the key it returns contains only letters,
    digits, spaces, hyphens and underscores, neither starts nor ends
    with an underscore, and has no two neighbouring characters that are
    each a space or an underscore. *)
Theorem sanitizeFilename_key_shape (gameName : string) :
  exists key : list byte,
    list_ascii_of_string (sanitizeFilename gameName) = key /\
    Forall keyChar key /\
    head key <> Some "_"%char /\
    last key <> Some "_"%char /\
    forall (i : nat) (a b : byte),
      key !! i = Some a -> key !! S i = Some b ->
      ~ (spaceOrUnderscore a /\ spaceOrUnderscore b).
Proof.
  exists (sanitizedBytes gameName).
  destruct (sanitizedBytes_shape gameName) as [HF HA Hh Hl].
  split; [apply sanitizeFilename_bytes|].
  repeat split; try assumption.
  - eapply Forall_impl; [exact HF|]. apply keyByte_keyChar.
  - intros i a b Ha Hb [Hsa Hsb].
    rewrite Forall_forall in HF.
    assert (Hka : keyByte a) by (apply HF; eapply list_elem_of_lookup_2; eauto).
    assert (Hkb : keyByte b) by (apply HF; eapply list_elem_of_lookup_2; eauto).
    apply (adjFree_lookup _ _ _ _ _ HA Ha Hb).
    destruct Hka as [_ Hna], Hkb as [_ Hnb].
    destruct Hsa as [-> | ->], Hsb as [-> | ->]; try contradiction. now split.
Qed.

(** C2. [sanitizeFilename] computes what the reference algorithm
    computes (replace every character outside the allowed set with an
    underscore, collapse every maximal run of spaces and underscores
    into one underscore, strip leading and trailing underscores), and
    maps "The Witcher 3: Wild Hunt" to "The_Witcher_3_Wild_Hunt". *)
Theorem sanitizeFilename_reference_algorithm :
  (forall gameName : string, sanitizeFilename gameName = SanitizerSpec.sanitize gameName) /\
  sanitizeFilename "The Witcher 3: Wild Hunt" = "The_Witcher_3_Wild_Hunt".
Proof.
  split.
  - intros gameName. symmetry. apply sanitize_refines.
  - vm_compute. reflexivity.
Qed.

(** Letters are the ASCII letters: the two bytes of U+00E9 in
    "Pok\xC3\xA9mon" are one rune, which is not valid, and come out as
    one underscore; so do bytes that are not UTF-8. *)
Example sanitizeFilename_non_ascii :
  sanitizeFilename ("Pok" +:+ String "195" (String "169" "mon")) = "Pok_mon" /\
  sanitizeFilename ("Pok" +:+ String "255" (String "169" "mon")) = "Pok_mon" /\
  Utf8.rangeRunes (String "195" (String "169" "")) = [233].
Proof. vm_compute. repeat split. Qed.

(** C9. Sanitizing a sanitized key gives the key back. *)
Theorem sanitizeFilename_idempotent (x : string) :
  sanitizeFilename (sanitizeFilename x) = sanitizeFilename x.
Proof.
  assert (Hx : sanitizeFilename x = string_of_list_ascii (sanitizedBytes x)) by reflexivity.
  rewrite Hx.
  change (sanitizeFilename (string_of_list_ascii (sanitizedBytes x)))
    with (string_of_list_ascii (sanitizedBytes (string_of_list_ascii (sanitizedBytes x)))).
  f_equal. apply keyShape_fixed, sanitizedBytes_shape.
Qed.

(** C10. The key [sanitizeFilename] returns contains no space: a run of
    spaces and underscores, a single space included, comes out as one
    underscore. *)
Theorem sanitizeFilename_no_space :
  (forall gameName : string,
     ~ In " "%char (list_ascii_of_string (sanitizeFilename gameName))) /\
  sanitizeFilename "Half-Life 2" = "Half-Life_2" /\
  sanitizeFilename "a _ b" = "a_b".
Proof.
  split; [|split; vm_compute; reflexivity].
  intros gameName Hin. rewrite sanitizeFilename_bytes in Hin.
  destruct (sanitizedBytes_shape gameName) as [HF _ _ _].
  rewrite Forall_forall in HF. apply list_elem_of_In, HF in Hin.
  destruct Hin as [_ Hne]. now apply Hne.
Qed.

(** ** [fmt]: what is written is read back *)

Section ScanFacts.
Import Fmt Scan.

Lemma digitRunes_string (d : Decimal.uint) :
  map byteVal (list_ascii_of_string (NilEmpty.string_of_uint d)) = digitRunes d.
Proof. induction d; simpl; [reflexivity | rewrite IHd; reflexivity ..]. Qed.

Lemma string_of_uint_ascii (d : Decimal.uint) :
  Forall (fun c => byteVal c < 128) (list_ascii_of_string (NilEmpty.string_of_uint d)).
Proof. induction d; simpl; constructor; try assumption; vm_compute; reflexivity. Qed.

Lemma digitRunes_digits (d : Decimal.uint) :
  Forall (fun r => 48 <= r <= 57) (digitRunes d).
Proof. induction d; simpl; constructor; try assumption; lia. Qed.


Lemma parseDigits_pos (d : Decimal.uint) (p : positive) :
  parseDigits (Z.pos p) (digitRunes d) = Some (Z.pos (Pos.of_uint_acc d p)).
Proof.
  revert p. induction d; intros p; simpl; [reflexivity|..];
    match goal with
    | |- parseDigits ?a _ = Some (Z.pos (Pos.of_uint_acc _ ?q)) =>
        replace a with (Z.pos q) by (change (runeLit "0") with 48; lia)
    end; apply IHd.
Qed.

Lemma parseDigits_zero (d : Decimal.uint) :
  parseDigits 0 (digitRunes d) = Some (Z.of_N (Pos.of_uint d)).
Proof.
  induction d; simpl; [reflexivity | exact IHd | ..];
    change (runeLit "0") with 48; simpl Z.add; apply parseDigits_pos.
Qed.

Lemma parseDigits_lower (ds : list rune) (acc v : Z) :
  Forall (fun r => 48 <= r <= 57) ds -> 0 <= acc ->
  parseDigits acc ds = Some v -> acc * 10 ^ Z.of_nat (length ds) <= v.
Proof.
  intros Hds. revert acc. induction Hds as [|r rs Hr _ IH]; intros acc Hacc Hp.
  - simpl in *. injection Hp as <-. lia.
  - simpl in Hp. change (runeLit "0") with 48 in Hp. change (runeLit "9") with 57 in Hp.
    destruct ((48 <=? r) && (r <=? 57)); [|discriminate].
    apply IH in Hp; [|lia].
    simpl length. rewrite Nat2Z.inj_succ, Z.pow_succ_r by lia.
    assert (0 <= 10 ^ Z.of_nat (length rs)) by (apply Z.pow_nonneg; lia).
    nia.
Qed.

(** The decimal text of a positive number starts with a digit that is
    not 0. *)
Lemma to_uint_head (p : positive) :
  exists r rs, digitRunes (Pos.to_uint p) = r :: rs /\ 49 <= r <= 57.
Proof.
  pose proof (Unsigned.to_of (Pos.to_uint p)) as Hnorm.
  rewrite Unsigned.of_to in Hnorm. simpl in Hnorm.
  pose proof (Unsigned.to_uint_nonzero p) as Hnz.
  destruct (Pos.to_uint p) as [|l|l|l|l|l|l|l|l|l|l] eqn:Hd;
    try (eexists _, _; split; [reflexivity | lia]).
  - now contradiction (Unsigned.to_uint_nonnil p).
  - exfalso. destruct l as [|l'|l'|l'|l'|l'|l'|l'|l'|l'|l'] eqn:Hl;
      [now contradiction Hnz|..];
      (assert (Hlen : (Decimal.nb_digits (Decimal.unorm l) <= Decimal.nb_digits l)%nat)
         by (subst l; apply nb_digits_unorm; discriminate));
      (assert (Hu : Decimal.unorm (Decimal.D0 l) = Decimal.unorm l)
         by (unfold Decimal.unorm; reflexivity));
      subst l; rewrite Hu in Hnorm; rewrite <- Hnorm in Hlen; simpl in Hlen; lia.
Qed.

Lemma isSpace_printable (r : rune) : 33 <= r <= 127 -> isSpace r = false.
Proof.
  intros Hr. unfold isSpace, space. rewrite Z.mod_small by lia. simpl inRanges.
  repeat match goal with
         | |- context [?a <=? ?b] => destruct (Z.leb_spec a b); try lia
         | |- context [?a <? ?b] => destruct (Z.ltb_spec a b); try lia
         end; reflexivity.
Qed.

Lemma SkipSpace_printable (r : rune) (rs : list rune) (count : Z) :
  33 <= r <= 127 -> SkipSpace (r :: rs) count = Some (r :: rs, count).
Proof.
  intros Hr. simpl. destruct (hugeWid <=? count); [reflexivity|].
  change (runeLit "010") with 10.
  destruct (Z.eqb_spec r 10); [lia|]. now rewrite isSpace_printable.
Qed.

Lemma indexRune_digit (r : rune) : 48 <= r <= 57 -> indexRune decimalDigits r = true.
Proof.
  intros Hr. unfold indexRune. apply existsb_exists. exists r.
  split; [|apply Z.eqb_refl].
  assert (Hcases : r = 48 \/ r = 49 \/ r = 50 \/ r = 51 \/ r = 52 \/
                   r = 53 \/ r = 54 \/ r = 55 \/ r = 56 \/ r = 57) by lia.
  vm_compute. intuition.
Qed.

Lemma acceptAll_digits (ds more : list rune) (count : Z) :
  Forall (fun r => 48 <= r <= 57) ds ->
  count + Z.of_nat (length ds) < hugeWid ->
  stopsNumber more ->
  acceptAll decimalDigits (ds ++ more) count = ds.
Proof.
  intros Hds. revert count. induction Hds as [|r rs Hr _ IH]; intros count Hc Hmore.
  - cbn [app]. destruct more as [|r more]; cbn [acceptAll].
    + now destruct (hugeWid <=? count).
    + unfold stopsNumber in Hmore. rewrite Hmore. now destruct (hugeWid <=? count).
  - simpl length in Hc. cbn [app acceptAll].
    destruct (Z.leb_spec hugeWid count); [lia|].
    rewrite indexRune_digit by assumption. rewrite IH by (try assumption; lia). reflexivity.
Qed.

(** Scanning an optional minus sign and digits, whatever follows. *)
Lemma scanInt_digits (neg : bool) (ds more : list rune) (v : Z) :
  ds <> [] ->
  Forall (fun r => 48 <= r <= 57) ds ->
  Z.of_nat (length ds) < 1000 ->
  stopsNumber more ->
  parseDigits 0 ds = Some v ->
  (if neg then v <= 2 ^ 63 else v < 2 ^ 63) ->
  let input := if neg then 45 :: ds ++ more else ds ++ more in
  match SkipSpace input 0 with
  | None => None
  | Some (input, count) => scanInt input count
  end = Some (if neg then - v else v).
Proof.
  intros Hne Hds Hlen Hmore Hv Hrange input.
  destruct ds as [|r rs]; [congruence|]. inversion Hds as [|? ? Hr Hrs]; subst.
  assert (Hskip : SkipSpace input 0 = Some (input, 0)).
  { subst input. destruct neg; apply SkipSpace_printable; lia. }
  rewrite Hskip. unfold scanInt. rewrite Hskip.
  subst input. destruct neg.
  - change (atEOF (45 :: (r :: rs) ++ more) 0) with false. cbv iota.
    change (accept sign (45 :: (r :: rs) ++ more) 0) with ([45], (r :: rs) ++ more, 0 + 1).
    change (atEOF ((r :: rs) ++ more) (0 + 1)) with false. cbv iota.
    rewrite acceptAll_digits
      by (try assumption; unfold hugeWid; simpl length in *; lia).
    change ([45] ++ r :: rs) with (45 :: r :: rs).
    unfold ParseInt. change (45 =? runeLit "+") with false.
    change (45 =? runeLit "-") with true. cbv iota. rewrite Hv.
    simpl negb. simpl andb.
    destruct (Z.ltb_spec (2 ^ 63) v); [lia | reflexivity].
  - change (atEOF ((r :: rs) ++ more) 0) with false. cbv iota.
    assert (Hsign : accept sign ((r :: rs) ++ more) 0 = ([], (r :: rs) ++ more, 0)).
    { unfold accept, sign, indexRune. simpl.
      change (runeLit "+") with 43. change (runeLit "-") with 45.
      destruct (Z.eqb_spec r 43); [lia|]. destruct (Z.eqb_spec r 45); [lia|]. reflexivity. }
    rewrite Hsign. change (atEOF ((r :: rs) ++ more) 0) with false. cbv iota.
    rewrite acceptAll_digits
      by (try assumption; unfold hugeWid; simpl length in *; lia).
    change ([] ++ r :: rs) with (r :: rs).
    unfold ParseInt. change (runeLit "+") with 43. change (runeLit "-") with 45.
    destruct (Z.eqb_spec r 43); [lia|]. destruct (Z.eqb_spec r 45); [lia|].
    rewrite Hv. simpl negb. simpl andb.
    destruct (Z.leb_spec (2 ^ 63) v); [lia | reflexivity].
Qed.

Lemma digitRunes_length (p : positive) :
  Z.pos p <= 2 ^ 63 -> Z.of_nat (length (digitRunes (Pos.to_uint p))) < 1000.
Proof.
  intros Hp. destruct (to_uint_head p) as (r & rs & Hd & Hr).
  pose proof (parseDigits_zero (Pos.to_uint p)) as Hv.
  rewrite Unsigned.of_to in Hv. rewrite Hd in *. simpl in Hv.
  change (runeLit "0") with 48 in Hv. change (runeLit "9") with 57 in Hv.
  destruct ((48 <=? r) && (r <=? 57)); [|discriminate].
  pose proof (digitRunes_digits (Pos.to_uint p)) as Hds. rewrite Hd in Hds.
  inversion Hds as [|? ? _ Hrs]; subst.
  apply parseDigits_lower in Hv; [|assumption|lia].
  simpl length. destruct (Z_lt_dec (Z.of_nat (length rs)) 19) as [|Hbig]; [lia|].
  assert (Hpow : 10 ^ 19 <= 10 ^ Z.of_nat (length rs)) by (apply Z.pow_le_mono_r; lia).
  simpl Z.of_N in Hv. assert (2 ^ 63 < 10 ^ 19) by reflexivity. nia.
Qed.

Lemma rangeRunes_uint (d : Decimal.uint) :
  Utf8.rangeRunes (NilEmpty.string_of_uint d) = digitRunes d.
Proof.
  unfold Utf8.rangeRunes. rewrite rangeFrom_ascii by apply string_of_uint_ascii.
  apply digitRunes_string.
Qed.

Lemma NilZero_nonnil (d : Decimal.uint) :
  d <> Decimal.Nil -> NilZero.string_of_uint d = NilEmpty.string_of_uint d.
Proof. destruct d; [congruence | reflexivity ..]. Qed.

Lemma rangeFrom_ascii_app (pre rest : list byte) :
  Forall (fun c => byteVal c < 128) pre ->
  Utf8.rangeFrom 0 (pre ++ rest) = map byteVal pre ++ Utf8.rangeFrom 0 rest.
Proof.
  induction 1 as [|c tl Hc _ IH]; [reflexivity|].
  cbn [app Utf8.rangeFrom]. rewrite nextRune_low by exact Hc. simpl. now rewrite IH.
Qed.

Lemma indexRune_byte (c : byte) :
  indexRune decimalDigits (byteVal c) =
  existsb (Ascii.eqb c) (list_ascii_of_string "0123456789").
Proof.
  unfold indexRune, decimalDigits.
  induction (list_ascii_of_string "0123456789") as [|d l IH]; [reflexivity|].
  simpl. rewrite IH. f_equal. unfold runeLit.
  destruct (Ascii.eqb_spec c d) as [->|Hne]; [apply Z.eqb_refl|].
  apply Z.eqb_neq. intros He. apply Hne. now apply byteVal_inj.
Qed.

Lemma indexRune_high (r : rune) : 127 < r -> indexRune decimalDigits r = false.
Proof.
  intros Hr. unfold indexRune, decimalDigits. simpl.
  unfold runeLit, byteVal. simpl.
  repeat match goal with
         | |- context [r =? ?k] => destruct (Z.eqb_spec r k); [lia|]
         end.
  reflexivity.
Qed.

Lemma endsNumber_stops (rest : string) :
  endsNumber rest = true -> stopsNumber (Utf8.rangeRunes rest).
Proof.
  destruct rest as [|c rest]; [constructor|]. unfold endsNumber. intros Hc.
  unfold Utf8.rangeRunes. simpl list_ascii_of_string. cbn [Utf8.rangeFrom].
  destruct (Utf8.nextRune (c :: list_ascii_of_string rest)) as [r w] eqn:Hn.
  change (indexRune decimalDigits r = false).
  destruct (Z_lt_dec (byteVal c) 128) as [Hlow|Hhigh].
  - rewrite nextRune_low in Hn by assumption. injection Hn as <- _.
    rewrite indexRune_byte. now destruct (existsb _ _).
  - pose proof (nextRune_high c (list_ascii_of_string rest) ltac:(lia)) as Hr.
    rewrite Hn in Hr. now apply indexRune_high.
Qed.

Lemma list_ascii_append (a b : string) :
  list_ascii_of_string (a +:+ b) = list_ascii_of_string a ++ list_ascii_of_string b.
Proof.
  induction a as [|c a IH]; [reflexivity|].
  change (String c a +:+ b) with (String c (a +:+ b)). simpl. now rewrite IH.
Qed.

Lemma rangeRunes_uint_app (d : Decimal.uint) (rest : string) :
  Utf8.rangeRunes (NilEmpty.string_of_uint d +:+ rest) = digitRunes d ++ Utf8.rangeRunes rest.
Proof.
  unfold Utf8.rangeRunes. rewrite list_ascii_append.
  rewrite rangeFrom_ascii_app by apply string_of_uint_ascii.
  now rewrite digitRunes_string.
Qed.

(** What [Sprintf("%d")] writes, [Sscanf("%d")] reads back, when the
    text that follows does not start with a rune [scanInt] takes for
    a digit. *)
Lemma scan_Sprintf (n : Z) (rest : string) :
  - 2 ^ 63 <= n < 2 ^ 63 -> stopsNumber (Utf8.rangeRunes rest) ->
  Sscanf_d (Sprintf_d n +:+ rest) = Some n.
Proof.
  intros Hn Hrest. unfold Sscanf_d.
  destruct n as [|p|p];
    [change (Sprintf_d 0) with (NilEmpty.string_of_uint (Decimal.D0 Decimal.Nil))
    |unfold Sprintf_d; simpl Z.to_int; unfold NilZero.string_of_int ..].
  - rewrite rangeRunes_uint_app.
    apply (scanInt_digits false [48] (Utf8.rangeRunes rest) 0);
      try assumption; try reflexivity; try lia; try discriminate.
    repeat constructor; lia.
  - rewrite NilZero_nonnil by apply Unsigned.to_uint_nonnil.
    rewrite rangeRunes_uint_app.
    apply (scanInt_digits false (digitRunes (Pos.to_uint p)) _ (Z.pos p)).
    + destruct (to_uint_head p) as (r & rs & -> & _). discriminate.
    + apply digitRunes_digits.
    + apply digitRunes_length. lia.
    + assumption.
    + rewrite parseDigits_zero, Unsigned.of_to. reflexivity.
    + lia.
  - rewrite NilZero_nonnil by apply Unsigned.to_uint_nonnil.
    assert (Hr : Utf8.rangeRunes
                   (String "-" (NilEmpty.string_of_uint (Pos.to_uint p)) +:+ rest) =
                 45 :: digitRunes (Pos.to_uint p) ++ Utf8.rangeRunes rest).
    { change (String "-" (NilEmpty.string_of_uint (Pos.to_uint p)) +:+ rest)
        with (String "-" (NilEmpty.string_of_uint (Pos.to_uint p) +:+ rest)).
      pose proof (rangeRunes_uint_app (Pos.to_uint p) rest) as Ht.
      unfold Utf8.rangeRunes in *. simpl list_ascii_of_string. cbn [Utf8.rangeFrom].
      rewrite nextRune_low by (vm_compute; reflexivity). simpl Nat.pred.
      rewrite Ht. reflexivity. }
    rewrite Hr.
    apply (scanInt_digits true (digitRunes (Pos.to_uint p)) _ (Z.pos p)).
    + destruct (to_uint_head p) as (r & rs & -> & _). discriminate.
    + apply digitRunes_digits.
    + apply digitRunes_length. lia.
    + assumption.
    + rewrite parseDigits_zero, Unsigned.of_to. reflexivity.
    + lia.
Qed.

Lemma append_empty (s : string) : s +:+ "" = s.
Proof.
  induction s as [|c s IH]; [reflexivity|].
  change (String c s +:+ "") with (String c (s +:+ "")). now rewrite IH.
Qed.

Lemma Sscanf_Sprintf_exact (n : Z) :
  - 2 ^ 63 <= n < 2 ^ 63 -> Sscanf_d (Sprintf_d n) = Some n.
Proof.
  intros Hn. rewrite <- (append_empty (Sprintf_d n)). now apply scan_Sprintf.
Qed.

Lemma parseDigits_nonneg (s : list rune) (acc v : Z) :
  0 <= acc -> parseDigits acc s = Some v -> 0 <= v.
Proof.
  revert acc. induction s as [|c tl IH]; intros acc Hacc Hp; simpl in Hp.
  - injection Hp as <-. exact Hacc.
  - destruct ((runeLit "0" <=? c) && (c <=? runeLit "9")) eqn:Hc; [|discriminate].
    apply andb_true_iff in Hc as [Hlo _]. apply Z.leb_le in Hlo.
    apply IH in Hp; [exact Hp | lia].
Qed.

Lemma ParseInt_range (tok : list rune) (n : Z) :
  ParseInt tok = Some n -> - 2 ^ 63 <= n < 2 ^ 63.
Proof.
  unfold ParseInt. destruct tok as [|c rest]; [discriminate|].
  destruct (if c =? runeLit "+" then (false, rest)
            else if c =? runeLit "-" then (true, rest) else (false, c :: rest))
    as [neg ds].
  destruct ds as [|d ds]; [discriminate|].
  destruct (parseDigits 0 (d :: ds)) as [un|] eqn:Hp; [|discriminate].
  apply parseDigits_nonneg in Hp; [|lia].
  destruct neg; cbn [negb andb].
  - destruct (Z.ltb_spec (2 ^ 63) un); [discriminate|]. intros [= <-]. lia.
  - destruct (Z.leb_spec (2 ^ 63) un); [discriminate|]. intros [= <-]. lia.
Qed.

(** *** Text that is not read *)

Lemma parseDigits_app (a b : list rune) (acc : Z) :
  parseDigits acc (a ++ b) =
  match parseDigits acc a with
  | Some v => parseDigits v b
  | None => None
  end.
Proof.
  revert acc. induction a as [|c a IH]; intros acc; [reflexivity|].
  cbn [app parseDigits]. destruct ((runeLit "0" <=? c) && (c <=? runeLit "9")); [apply IH | reflexivity].
Qed.

Lemma parseDigits_bound (s : list rune) (acc v : Z) :
  0 <= acc -> parseDigits acc s = Some v -> acc * 10 ^ Z.of_nat (length s) <= v.
Proof.
  revert acc. induction s as [|c tl IH]; intros acc Hacc Hp.
  - simpl in *. injection Hp as <-. lia.
  - simpl in Hp. change (runeLit "0") with 48 in Hp. change (runeLit "9") with 57 in Hp.
    destruct ((48 <=? c) && (c <=? 57)) eqn:Hc; [|discriminate].
    apply andb_true_iff in Hc as [Hlo Hhi]. apply Z.leb_le in Hlo, Hhi.
    apply IH in Hp; [|lia].
    simpl length. rewrite Nat2Z.inj_succ, Z.pow_succ_r by lia.
    assert (0 <= 10 ^ Z.of_nat (length tl)) by (apply Z.pow_nonneg; lia).
    nia.
Qed.

Lemma parseDigits_grows (s : list rune) (acc v : Z) :
  0 <= acc -> parseDigits acc s = Some v -> acc <= v.
Proof.
  intros Hacc Hp. apply parseDigits_bound in Hp; [|exact Hacc].
  assert (1 <= 10 ^ Z.of_nat (length s)) by (apply Z.pow_le_mono_r with (b := 0); lia).
  nia.
Qed.

Lemma acceptAll_prefix (ds more : list rune) (count : Z) :
  Forall (fun r => 48 <= r <= 57) ds ->
  count + Z.of_nat (length ds) < hugeWid ->
  acceptAll decimalDigits (ds ++ more) count =
  ds ++ acceptAll decimalDigits more (count + Z.of_nat (length ds)).
Proof.
  intros Hds. revert count. induction Hds as [|r rs Hr _ IH]; intros count Hc.
  - cbn [app length]. now rewrite Z.add_0_r.
  - simpl length in Hc. cbn [app acceptAll].
    destruct (Z.leb_spec hugeWid count); [lia|].
    rewrite indexRune_digit by assumption. rewrite IH by lia.
    simpl length. do 3 f_equal. lia.
Qed.

(** A token whose value is too large, whatever follows it. *)
Lemma scanInt_too_big (neg : bool) (r : rune) (rs more : list rune) :
  Forall (fun r => 48 <= r <= 57) (r :: rs) ->
  Z.of_nat (length rs) < 1000 ->
  (forall x u, parseDigits 0 ((r :: rs) ++ x) = Some u ->
               if neg then 2 ^ 63 < u else 2 ^ 63 <= u) ->
  let input := if neg then 45 :: (r :: rs) ++ more else (r :: rs) ++ more in
  match SkipSpace input 0 with
  | None => None
  | Some (input, count) => scanInt input count
  end = None.
Proof.
  intros Hds Hlen Hbig input.
  inversion Hds as [|? ? Hr Hrs]; subst.
  assert (Hskip : SkipSpace input 0 = Some (input, 0)).
  { subst input. destruct neg; apply SkipSpace_printable; lia. }
  rewrite Hskip. unfold scanInt. rewrite Hskip.
  subst input. destruct neg.
  - change (atEOF (45 :: (r :: rs) ++ more) 0) with false. cbv iota.
    change (accept sign (45 :: (r :: rs) ++ more) 0) with ([45], (r :: rs) ++ more, 0 + 1).
    change (atEOF ((r :: rs) ++ more) (0 + 1)) with false. cbv iota.
    rewrite acceptAll_prefix by (try assumption; unfold hugeWid; simpl length; lia).
    specialize (Hbig (acceptAll decimalDigits more (0 + 1 + Z.of_nat (length (r :: rs))))).
    cbn [app] in Hbig |- *.
    unfold ParseInt. change (45 =? runeLit "+") with false.
    change (45 =? runeLit "-") with true. cbv iota.
    destruct (parseDigits 0 _) as [u|]; [|reflexivity].
    specialize (Hbig u eq_refl). simpl negb. simpl andb.
    destruct (Z.ltb_spec (2 ^ 63) u); [reflexivity | lia].
  - change (atEOF ((r :: rs) ++ more) 0) with false. cbv iota.
    assert (Hsign : accept sign ((r :: rs) ++ more) 0 = ([], (r :: rs) ++ more, 0)).
    { unfold accept, sign, indexRune. simpl.
      change (runeLit "+") with 43. change (runeLit "-") with 45.
      destruct (Z.eqb_spec r 43); [lia|]. destruct (Z.eqb_spec r 45); [lia|]. reflexivity. }
    rewrite Hsign. change (atEOF ((r :: rs) ++ more) 0) with false. cbv iota.
    rewrite acceptAll_prefix by (try assumption; unfold hugeWid; simpl length; lia).
    specialize (Hbig (acceptAll decimalDigits more (0 + Z.of_nat (length (r :: rs))))).
    cbn [app] in Hbig |- *.
    unfold ParseInt. change (runeLit "+") with 43. change (runeLit "-") with 45.
    destruct (Z.eqb_spec r 43); [lia|]. destruct (Z.eqb_spec r 45); [lia|].
    destruct (parseDigits 0 _) as [u|]; [|reflexivity].
    specialize (Hbig u eq_refl). simpl negb. simpl andb.
    destruct (Z.leb_spec (2 ^ 63) u); [reflexivity | lia].
Qed.

(** The first 20 digits of the decimal text of a number of 2^63 or
    more are too large already. *)
Lemma digits_too_big (p : positive) (bound : Z) :
  bound <= 2 ^ 63 + 1 -> bound <= Z.pos p ->
  exists r rs rest,
    digitRunes (Pos.to_uint p) = (r :: rs) ++ rest /\
    Forall (fun r => 48 <= r <= 57) (r :: rs) /\
    Z.of_nat (length rs) < 1000 /\
    forall x u, parseDigits 0 ((r :: rs) ++ x) = Some u -> bound <= u.
Proof.
  intros Hb Hp.
  destruct (to_uint_head p) as (r & rs & Hd & Hr).
  pose proof (digitRunes_digits (Pos.to_uint p)) as Hds. rewrite Hd in Hds.
  pose proof (parseDigits_zero (Pos.to_uint p)) as Hv.
  rewrite Unsigned.of_to, Hd in Hv. simpl Z.of_N in Hv.
  destruct (Z_lt_dec (Z.of_nat (length rs)) 20) as [Hshort|Hlong].
  - exists r, rs, []. rewrite app_nil_r. repeat split; [exact Hd | exact Hds | lia|].
    intros x u Hu. rewrite parseDigits_app, Hv in Hu.
    apply parseDigits_grows in Hu; lia.
  - exists r, (take 19 rs), (drop 19 rs). repeat split.
    + cbn [app]. now rewrite take_drop.
    + inversion Hds as [|? ? Hr' Hrs]; subst. constructor; [exact Hr'|].
      now apply Forall_take.
    + rewrite length_take. lia.
    + intros x u Hu. cbn [app parseDigits] in Hu.
      change (runeLit "0") with 48 in Hu. change (runeLit "9") with 57 in Hu.
      destruct ((48 <=? r) && (r <=? 57)); [|discriminate].
      apply parseDigits_bound in Hu; [|lia].
      rewrite length_app, length_take in Hu.
      assert (Hpow : 10 ^ 19 <= 10 ^ Z.of_nat (19 `min` length rs + length x))
        by (apply Z.pow_le_mono_r; lia).
      assert (2 ^ 63 + 1 < 10 ^ 19) by reflexivity. nia.
Qed.

(** Decimal text of a number outside the range of a 64-bit integer is
    not read, whatever follows it. *)
Lemma scan_out_of_range (n : Z) (rest : string) :
  n < - 2 ^ 63 \/ 2 ^ 63 <= n -> Sscanf_d (Sprintf_d n +:+ rest) = None.
Proof.
  intros Hn. unfold Sscanf_d.
  destruct n as [|p|p]; [lia|..]; unfold Sprintf_d; simpl Z.to_int;
    unfold NilZero.string_of_int; rewrite NilZero_nonnil by apply Unsigned.to_uint_nonnil.
  - rewrite rangeRunes_uint_app.
    destruct (digits_too_big p (2 ^ 63)) as (r & rs & tl & -> & Hds & Hlen & Hbig); [lia..|].
    rewrite <- app_assoc.
    exact (scanInt_too_big false r rs (tl ++ Utf8.rangeRunes rest) Hds Hlen Hbig).
  - assert (Hr : Utf8.rangeRunes
                   (String "-" (NilEmpty.string_of_uint (Pos.to_uint p)) +:+ rest) =
                 45 :: digitRunes (Pos.to_uint p) ++ Utf8.rangeRunes rest).
    { change (String "-" (NilEmpty.string_of_uint (Pos.to_uint p)) +:+ rest)
        with (String "-" (NilEmpty.string_of_uint (Pos.to_uint p) +:+ rest)).
      pose proof (rangeRunes_uint_app (Pos.to_uint p) rest) as Ht.
      unfold Utf8.rangeRunes in *. simpl list_ascii_of_string. cbn [Utf8.rangeFrom].
      rewrite nextRune_low by (vm_compute; reflexivity). simpl Nat.pred.
      rewrite Ht. reflexivity. }
    rewrite Hr.
    destruct (digits_too_big p (2 ^ 63 + 1)) as (r & rs & tl & -> & Hds & Hlen & Hbig);
      [lia..|].
    rewrite <- app_assoc.
    apply (scanInt_too_big true r rs (tl ++ Utf8.rangeRunes rest) Hds Hlen).
    intros x u Hu. apply Hbig in Hu. lia.
Qed.

Lemma rangeRunes_low (c : byte) (rest : string) :
  byteVal c < 128 -> Utf8.rangeRunes (String c rest) = byteVal c :: Utf8.rangeRunes rest.
Proof.
  intros Hc. unfold Utf8.rangeRunes. simpl list_ascii_of_string. cbn [Utf8.rangeFrom].
  now rewrite nextRune_low by exact Hc.
Qed.

Lemma acceptAll_stops (more : list rune) (count : Z) :
  stopsNumber more -> acceptAll decimalDigits more count = [].
Proof.
  intros Hmore. destruct more as [|r more]; cbn [acceptAll].
  - now destruct (hugeWid <=? count).
  - unfold stopsNumber in Hmore. rewrite Hmore. now destruct (hugeWid <=? count).
Qed.

(** Text that cannot start a number is not read. *)
Lemma scan_notNumber (content : string) :
  notNumber content = true -> Sscanf_d content = None.
Proof.
  destruct content as [|c rest]; [reflexivity|]. unfold notNumber.
  destruct (Ascii.eqb c "+" || Ascii.eqb c "-") eqn:Hsign.
  - intros Hrest. apply endsNumber_stops in Hrest.
    assert (Hc : (c = "+"%char \/ c = "-"%char)).
    { apply orb_true_iff in Hsign as [Hs|Hs]; apply Ascii.eqb_eq in Hs; auto. }
    assert (Hv : byteVal c = 43 \/ byteVal c = 45) by (destruct Hc as [->| ->]; auto).
    unfold Sscanf_d. rewrite rangeRunes_low by lia.
    rewrite SkipSpace_printable by lia. unfold scanInt.
    rewrite SkipSpace_printable by lia.
    change (atEOF (byteVal c :: Utf8.rangeRunes rest) 0) with false. cbv iota.
    assert (Hacc : accept sign (byteVal c :: Utf8.rangeRunes rest) 0 =
                   ([byteVal c], Utf8.rangeRunes rest, 0 + 1)).
    { destruct Hc as [->| ->]; reflexivity. }
    rewrite Hacc. destruct (atEOF (Utf8.rangeRunes rest) (0 + 1)); [reflexivity|].
    now rewrite acceptAll_stops.
  - intros Hc. apply andb_true_iff in Hc as [Hc Hd]. apply andb_true_iff in Hc as [Hlo Hhi].
    apply Z.leb_le in Hlo, Hhi. apply negb_true_iff in Hd.
    apply orb_false_iff in Hsign as [Hplus Hminus].
    unfold Sscanf_d. rewrite rangeRunes_low by lia.
    rewrite SkipSpace_printable by lia. unfold scanInt.
    rewrite SkipSpace_printable by lia.
    change (atEOF (byteVal c :: Utf8.rangeRunes rest) 0) with false. cbv iota.
    assert (Hacc : accept sign (byteVal c :: Utf8.rangeRunes rest) 0 =
                   ([], byteVal c :: Utf8.rangeRunes rest, 0)).
    { unfold accept, sign, indexRune. cbn [existsb]. unfold runeLit.
      destruct (Z.eqb_spec (byteVal c) (byteVal "+")) as [He|_];
        [apply byteVal_inj in He; subst c; discriminate|].
      destruct (Z.eqb_spec (byteVal c) (byteVal "-")) as [He|_];
        [apply byteVal_inj in He; subst c; discriminate|].
      reflexivity. }
    rewrite Hacc.
    change (atEOF (byteVal c :: Utf8.rangeRunes rest) 0) with false. cbv iota.
    cbn [acceptAll]. rewrite indexRune_byte, Hd. reflexivity.
Qed.

End ScanFacts.


(** ** Programs and their traces *)

Import Sys.

Lemma exec_inv {A : Type} (p : Prog A) (t : list Call) (a : A) :
  exec p t a ->
  match p with
  | Ret a' => t = [] /\ a = a'
  | Vis e k => exists x t', t = call e x :: t' /\ exec (k x) t' a
  end.
Proof. destruct 1; eauto. Qed.

Lemma exec_Ret_inv {A : Type} (a a' : A) (t : list Call) :
  exec (Ret a') t a -> t = [] /\ a = a'.
Proof. apply (exec_inv (Ret a')). Qed.

Lemma exec_bind_inv {A B : Type} (p : Prog A) (f : A -> Prog B) (t : list Call) (b : B) :
  exec (bind p f) t b ->
  exists t1 a t2, exec p t1 a /\ exec (f a) t2 b /\ t = t1 ++ t2.
Proof.
  revert t. induction p as [a|X e k IH]; intros t Hex; simpl in Hex.
  - exists [], a, t. repeat split; [constructor | assumption].
  - apply exec_inv in Hex as (x & t' & -> & Hex).
    apply IH in Hex as (t1 & a & t2 & H1 & H2 & ->).
    exists (call e x :: t1), a, t2. repeat split; [now constructor | assumption].
Qed.

Lemma exec_bind {A B : Type} (p : Prog A) (f : A -> Prog B)
      (t1 t2 : list Call) (a : A) (b : B) :
  exec p t1 a -> exec (f a) t2 b -> exec (bind p f) (t1 ++ t2) b.
Proof.
  induction 1 as [a|X e k x t a _ IH]; intros Hf; simpl; [assumption|].
  constructor. now apply IH.
Qed.

Lemma exec_trigger_inv {X : Type} (e : Event X) (t : list Call) (x : X) :
  exec (trigger e) t x -> t = [call e x].
Proof.
  intros Hex. apply exec_inv in Hex as (x' & t' & -> & Hex).
  apply exec_Ret_inv in Hex as [-> ->]. reflexivity.
Qed.

(** Every program returns, in every world, and [exec] holds of what it
    returns. *)
Lemma run_exec {W A : Type} (h : Handler W) (p : Prog A) (w : W) :
  exec p (snd (run h p w)) (fst (fst (run h p w))).
Proof.
  revert w. induction p as [a|X e k IH]; intros w; simpl; [constructor|].
  destruct (h X e w) as [x w1]. specialize (IH x w1).
  destruct (run h (k x) w1) as [[a w2] t]. simpl in *. now constructor.
Qed.

Lemma exec_when_inv (b : bool) (e : Event unit) (t : list Call) (x : unit) :
  exec (when b (trigger e)) t x -> t = [] \/ t = [call e tt].
Proof.
  destruct b; simpl; intros Hex.
  - right. destruct x. now apply exec_trigger_inv.
  - left. now apply exec_Ret_inv in Hex.
Qed.

Ltac inv_exec :=
  repeat match goal with
  | H : exec (Ret _) _ _ |- _ => apply exec_Ret_inv in H as [? ?]; subst
  | H : exec (bind _ _) _ _ |- _ =>
      apply exec_bind_inv in H as (? & ? & ? & ? & H & ?); subst
  | H : exec (trigger _) _ _ |- _ => apply exec_trigger_inv in H; subst
  | H : exec (when ?b _) _ _ |- _ => destruct b; simpl in H
  | H : exec (Vis _ _) _ _ |- _ => apply exec_inv in H as (? & ? & ? & H); subst
  | H : exec (match ?x with _ => _ end) _ _ |- _ => destruct x eqn:?; simpl in H
  | H : exec (if ?c then _ else _) _ _ |- _ => destruct c eqn:?
  end.

Lemma logOnly_nil : logOnly [].
Proof. constructor. Qed.

Lemma logOnly_cons (line : LogLine) (t : list Call) :
  logOnly t -> logOnly (CStderr line :: t).
Proof. intros Ht. constructor; [reflexivity | exact Ht]. Qed.

Lemma logOnly_app (t1 t2 : list Call) :
  logOnly t1 -> logOnly t2 -> logOnly (t1 ++ t2).
Proof. intros H1 H2. apply Forall_app. now split. Qed.

Create HintDb trace.
#[local] Hint Resolve logOnly_nil logOnly_cons logOnly_app : trace.

(** ** [findSteamGameID] *)

Section ResolverFacts.
Context `{GoLib}.
Import Resolver.

Lemma logItems_logOnly (items : list Item) (i : Z) (t : list Call) (x : unit) :
  exec (logItems i items) t x -> logOnly t.
Proof.
  revert i t. induction items as [|item rest IH]; intros i t Hex; simpl in Hex.
  - inv_exec. auto with trace.
  - apply exec_bind_inv in Hex as (t1 & [] & t2 & H1 & H2 & ->).
    apply IH in H2. unfold when in H1.
    destruct (i <? maxVerboseResults); inv_exec; simpl; auto with trace.
Qed.

(** The shape of every execution: nothing at all for the empty name,
    one HTTP request among log lines otherwise, and the value
    returned is decided by the answer to that request. *)
Lemma findSteamGameID_exec (gameName : string) (verbose : bool)
      (t : list Call) (result : Z * option error) :
  exec (findSteamGameID gameName verbose) t result ->
  (gameName = "" /\ t = [] /\ result = (0, Some errEmptyName)) \/
  (gameName <> "" /\
   exists (l1 : list Call) (got : Result Response) (l2 : list Call),
     t = l1 ++ CHttpGet (requestURL gameName) got :: l2 /\
     logOnly l1 /\ logOnly l2 /\ result = resolveOutcome got).
Proof.
  unfold findSteamGameID. intros Hex.
  destruct (String.eqb_spec gameName "") as [->|Hne].
  - left. inv_exec. auto.
  - right. split; [assumption|].
    apply exec_bind_inv in Hex as (l1 & [] & t2 & H1 & Hex & ->).
    assert (Hl1 : logOnly l1)
      by (clear - H1; destruct verbose; inv_exec; simpl; auto with trace).
    clear H1.
    apply exec_bind_inv in Hex as (tg & got & t3 & Hg & Hex & ->).
    apply exec_trigger_inv in Hg as ->. simpl.
    exists l1, got, t3. split; [reflexivity|]. split; [assumption|].
    unfold resolveOutcome.
    destruct got as [httpResponse|err].
    + apply exec_bind_inv in Hex as (l3 & [] & t4 & H3 & Hex & ->).
      assert (Hl3 : logOnly l3)
        by (clear - H3; destruct verbose; inv_exec; simpl; auto with trace).
      clear H3.
      destruct (negb (StatusCode httpResponse =? StatusOK)).
      * destruct verbose; inv_exec; simpl; split; auto with trace.
      * destruct (Body httpResponse) as [responseBody|err].
        -- destruct (json_Unmarshal responseBody) as [apiResponse|err].
           ++ apply exec_bind_inv in Hex as (l4 & [] & t5 & H4 & Hex & ->).
              assert (Hl4 : logOnly l4).
              { clear - H4. destruct verbose; simpl in H4; [|inv_exec; auto with trace].
                apply exec_inv in H4 as ([] & t6 & -> & H6). simpl in H6.
                destruct (0 <? Z.of_nat (length (Items apiResponse))).
                - apply logItems_logOnly in H6. simpl. auto with trace.
                - inv_exec. simpl. auto with trace. }
              clear H4.
              destruct (Items apiResponse) as [|item rest].
              ** destruct verbose; inv_exec; simpl; split; auto with trace.
              ** inv_exec. split; [|reflexivity]. rewrite app_nil_r. auto with trace.
           ++ destruct verbose; inv_exec; simpl; split; auto with trace.
        -- destruct verbose; inv_exec; simpl; split; auto with trace.
    + destruct verbose; inv_exec; simpl; split; auto with trace.
Qed.
End ResolverFacts.

(** ** [processSingleGame] *)

Section ProcessorFacts.
Context `{GoLib}.
Import Resolver Processor.

Lemma skipExisting_exec (gameName path : string) (verbose : bool)
      (t : list Call) (early : option GameResult) :
  exec (skipExisting gameName path verbose) t early ->
  (exists err, t = [CStat path (Some err)] /\ early = None) \/
  (exists (l : list Call) (read : Result string),
      t = CStat path None :: l ++ [CReadFile path read] /\
      logOnly l /\ early = cachedOutcome gameName read).
Proof.
  unfold skipExisting. intros Hex.
  apply exec_bind_inv in Hex as (t1 & statErr & t2 & H1 & Hex & ->).
  apply exec_trigger_inv in H1 as ->. simpl.
  destruct statErr as [err|].
  - left. exists err. inv_exec. auto.
  - right.
    apply exec_bind_inv in Hex as (l & [] & t3 & Hl & Hex & ->).
    assert (Hlog : logOnly l)
      by (clear - Hl; destruct verbose; inv_exec; simpl; auto with trace).
    clear Hl.
    apply exec_bind_inv in Hex as (t4 & read & t5 & Hr & Hex & ->).
    apply exec_trigger_inv in Hr as ->. simpl.
    exists l, read. unfold cachedOutcome, successResult.
    destruct read as [content|err]; [destruct (Fmt.Sscanf_d content)|];
      inv_exec; auto.
Qed.

Lemma queryAndWrite_exec (gameName path : string) (verbose : bool)
      (t : list Call) (result : GameResult) :
  exec (queryAndWrite gameName path verbose) t result ->
  exists (t1 : list Call) (found : Z * option error),
    exec (findSteamGameID gameName verbose) t1 found /\
    match found with
    | (_, Some err) => t = t1 /\ result = failureResult gameName err
    | (gameID, None) =>
      exists writeErr : option error,
        t = t1 ++ [CWriteFile path (Fmt.Sprintf_d gameID) fileMode writeErr] /\
        result = match writeErr with
                 | Some err => failureResult gameName (errWriting err)
                 | None => successResult gameName gameID
                 end
    end.
Proof.
  unfold queryAndWrite. intros Hex.
  apply exec_bind_inv in Hex as (t1 & [gameID [err|]] & t2 & H1 & Hex & ->).
  - exists t1, (gameID, Some err). split; [assumption|].
    inv_exec. rewrite app_nil_r. auto.
  - exists t1, (gameID, None). split; [assumption|].
    apply exec_bind_inv in Hex as (t3 & writeErr & t4 & Hw & Hex & ->).
    apply exec_trigger_inv in Hw as ->. simpl.
    exists writeErr. destruct writeErr; inv_exec; auto.
Qed.

Lemma processSingleGame_exec (gameName outputDirectory : string)
      (shouldSkipExisting verbose : bool) (t : list Call) (result : GameResult) :
  exec (processSingleGame gameName outputDirectory shouldSkipExisting verbose) t result ->
  exists (tProbe : list Call) (early : option GameResult) (tRest : list Call),
    t = tProbe ++ tRest /\
    (if shouldSkipExisting
     then exec (skipExisting gameName (steamFilePath gameName outputDirectory) verbose)
               tProbe early
     else tProbe = [] /\ early = None) /\
    match early with
    | Some r => tRest = [] /\ result = r
    | None => exec (queryAndWrite gameName (steamFilePath gameName outputDirectory) verbose)
                   tRest result
    end.
Proof.
  unfold processSingleGame. intros Hex.
  apply exec_bind_inv in Hex as (tProbe & early & tRest & H1 & Hex & ->).
  exists tProbe, early, tRest. split; [reflexivity|]. split.
  - destruct shouldSkipExisting; [assumption|]. now apply exec_Ret_inv in H1.
  - destruct early; [now apply exec_Ret_inv in Hex | assumption].
Qed.

(** Which calls the two halves make. *)
Lemma findSteamGameID_no_probe (gameName : string) (verbose : bool)
      (t : list Call) (found : Z * option error) :
  exec (findSteamGameID gameName verbose) t found ->
  Forall (fun c => isProbe c = false /\ isWriteFile c = false) t.
Proof.
  intros Hex. apply findSteamGameID_exec in Hex as [(_ & -> & _)|(_ & l1 & got & l2 & -> & H1 & H2 & _)].
  - constructor.
  - assert (Hlog : forall l, logOnly l ->
              Forall (fun c => isProbe c = false /\ isWriteFile c = false) l).
    { intros l Hl. eapply Forall_impl; [exact Hl|]. now intros []. }
    apply Forall_app. split; [auto|]. constructor; [split; reflexivity | auto].
Qed.

Lemma queryAndWrite_no_probe (gameName path : string) (verbose : bool)
      (t : list Call) (result : GameResult) :
  exec (queryAndWrite gameName path verbose) t result ->
  Forall (fun c => isProbe c = false) t.
Proof.
  intros Hex. apply queryAndWrite_exec in Hex as (t1 & [gameID [err|]] & H1 & Hex).
  - destruct Hex as [-> _]. apply findSteamGameID_no_probe in H1.
    eapply Forall_impl; [exact H1|]. now intros c [].
  - destruct Hex as (writeErr & -> & _). apply findSteamGameID_no_probe in H1.
    apply Forall_app. split; [|now repeat constructor].
    eapply Forall_impl; [exact H1|]. now intros c [].
Qed.

Lemma skipExisting_no_resolver (gameName path : string) (verbose : bool)
      (t : list Call) (early : option GameResult) :
  exec (skipExisting gameName path verbose) t early ->
  Forall (fun c => isHttpGet c = false /\ isWriteFile c = false) t.
Proof.
  intros Hex.
  apply skipExisting_exec in Hex as [(err & -> & _)|(l & read & -> & Hl & _)].
  - now repeat constructor.
  - constructor; [now split|]. apply Forall_app. split; [|now repeat constructor].
    eapply Forall_impl; [exact Hl|]. now intros [].
Qed.
End ProcessorFacts.

Lemma logOnly_In (l : list Call) (c : Call) : logOnly l -> In c l -> isStderr c = true.
Proof.
  intros Hl Hin. unfold logOnly in Hl. rewrite Forall_forall in Hl.
  apply Hl. now apply list_elem_of_In.
Qed.

Lemma Forall_In {A : Type} (P : A -> Prop) (l : list A) (x : A) :
  Forall P l -> In x l -> P x.
Proof.
  intros Hl Hin. rewrite Forall_forall in Hl. apply Hl. now apply list_elem_of_In.
Qed.

(** ** Statements about [findSteamGameID] and [processSingleGame] *)

Import MemWorld.

(** C5. When the API answers with status 200 and a body that parses,
    [findSteamGameID] returns the [id] of the first item of the parsed
    list, whatever the other items are, and the error "no results
    found" when the list is empty. *)
Theorem findSteamGameID_first_item `{GoLib}
        (gameName : string) (verbose : bool) (t : list Call) (result : Z * option error)
        (url body : string) (apiResponse : SteamAPIResponse) :
  exec (Resolver.findSteamGameID gameName verbose) t result ->
  In (CHttpGet url (Ok {| StatusCode := 200; Body := Ok body |})) t ->
  json_Unmarshal body = Ok apiResponse ->
  match Items apiResponse with
  | item :: _ => result = (ID item, None)
  | [] => result = (0, Some Resolver.errNoResults)
  end.
Proof.
  intros Hex Hin Hjson.
  apply findSteamGameID_exec in Hex
    as [(_ & -> & _)|(_ & l1 & got & l2 & -> & H1 & H2 & ->)]; [contradiction|].
  apply in_app_or in Hin as [Hin|[Hin|Hin]].
  - apply (logOnly_In _ _ H1) in Hin. discriminate.
  - injection Hin as _ ->. unfold resolveOutcome. simpl. rewrite Hjson.
    destruct (Items apiResponse); reflexivity.
  - apply (logOnly_In _ _ H2) in Hin. discriminate.
Qed.

Lemma findSteamGameID_first_item_witness :
  fst (fst (runResolver emptyWorld true)) = (400, None).
Proof.
  apply (findSteamGameID_first_item (H := exampleLib) "Portal" true
           (snd (runResolver emptyWorld true))
           (fst (fst (runResolver emptyWorld true)))
           (Resolver.requestURL "Portal") portalBody
           {| Items := [{| ID := 400; Name := "Portal" |}] |}).
  - apply run_exec.
  - vm_compute. right. left. reflexivity.
  - vm_compute. reflexivity.
Defined.

(** The block under [if shouldSkipExisting], when [os.Stat] found the
    file and [os.ReadFile] returned its content. *)
Lemma skipExisting_read `{GoLib}
        (gameName outputDirectory : string) (verbose : bool)
        (t : list Call) (result : Processor.GameResult) (content : string) :
  let path := filepath_Join outputDirectory (sanitizeFilename gameName +:+ ".steam") in
  exec (Processor.processSingleGame gameName outputDirectory true verbose) t result ->
  In (CStat path None) t ->
  In (CReadFile path (Ok content)) t ->
  match Fmt.Sscanf_d content with
  | Some storedID =>
      result = {| Processor.GameName := gameName; Processor.GameID := storedID;
                  Processor.Success := true; Processor.Error := None |} /\
      Forall (fun c => isHttpGet c = false) t
  | None =>
      exists tProbe tRest : list Call,
        t = tProbe ++ tRest /\
        Forall (fun c => isHttpGet c = false) tProbe /\
        exec (Processor.processSingleGame gameName outputDirectory false verbose) tRest result /\
        (gameName <> "" -> Exists (fun c => isHttpGet c = true) tRest)
  end.
Proof.
  intros path Hex Hstat Hread.
  apply processSingleGame_exec in Hex as (tProbe & early & tRest & -> & Hprobe & Hrest).
  fold path in Hprobe, Hrest.
  change (Processor.steamFilePath gameName outputDirectory) with path in Hprobe, Hrest.
  assert (HnoProbe : early = None -> Forall (fun c => isProbe c = false) tRest).
  { intros ->. eapply queryAndWrite_no_probe, Hrest. }
  assert (Hrest0 : Forall (fun c => isProbe c = false) tRest).
  { destruct early as [r|]; [|auto]. destruct Hrest as [-> _]. constructor. }
  assert (Hin : forall c, isProbe c = true -> In c (tProbe ++ tRest) -> In c tProbe).
  { intros c Hc Hc'. apply in_app_or in Hc' as [Hc'|Hc']; [assumption|].
    apply (Forall_In _ _ _ Hrest0) in Hc'. congruence. }
  apply Hin in Hstat; [|reflexivity]. apply Hin in Hread; [|reflexivity].
  pose proof (skipExisting_no_resolver _ _ _ _ _ Hprobe) as HnoGet.
  apply skipExisting_exec in Hprobe as [(err & -> & _)|(l & read & -> & Hl & ->)].
  { destruct Hstat as [Hstat|[]]. discriminate. }
  assert (Hr : read = Ok content).
  { destruct Hread as [Hread|Hread]; [discriminate|].
    apply in_app_or in Hread as [Hread|[Hread|[]]].
    - apply (logOnly_In _ _ Hl) in Hread. discriminate.
    - now injection Hread. }
  subst read. unfold cachedOutcome, successResult in Hrest.
  destruct (Fmt.Sscanf_d content) as [storedID|].
  - destruct Hrest as [-> ->]. split; [reflexivity|].
    rewrite app_nil_r. eapply Forall_impl; [exact HnoGet|]. now intros c [].
  - eexists _, tRest. split; [reflexivity|].
    split; [eapply Forall_impl; [exact HnoGet|]; now intros c []|].
    split.
    + unfold Processor.processSingleGame. simpl. exact Hrest.
    + intros Hne. apply queryAndWrite_exec in Hrest as (t1 & found & Hfind & Hshape).
      apply findSteamGameID_exec in Hfind
        as [(-> & _)|(_ & l1 & got & l2 & -> & _)]; [contradiction|].
      assert (Hex1 : Exists (fun c => isHttpGet c = true)
                       (l1 ++ CHttpGet (Resolver.requestURL gameName) got :: l2)).
      { apply Exists_app. right. now constructor. }
      destruct found as [gameID [err|]].
      * destruct Hshape as [-> _]. exact Hex1.
      * destruct Hshape as (writeErr & -> & _). apply Exists_app. now left.
Qed.

(** C3. With [shouldSkipExisting] set, when [os.Stat] finds the file of
    the key [sanitizeFilename gameName] and [os.ReadFile] returns its
    content: if [Sscanf] reads an integer from the content,
    [processSingleGame] returns a success with that integer and makes
    no HTTP request; if it does not, what follows the probe is exactly
    a run of [processSingleGame] without [shouldSkipExisting], which
    queries the API (for a name that is not empty).  The first case is
    the one of a content that starts with the decimal text of a 64-bit
    integer, followed by nothing or by a byte that is not a digit; the
    second the one of a content that cannot start a number. *)
Theorem processSingleGame_skip_existing `{GoLib}
        (gameName outputDirectory : string) (verbose : bool)
        (t : list Call) (result : Processor.GameResult) (content : string) :
  let path := filepath_Join outputDirectory (sanitizeFilename gameName +:+ ".steam") in
  let hit := fun storedID : Z =>
    result = {| Processor.GameName := gameName; Processor.GameID := storedID;
                Processor.Success := true; Processor.Error := None |} /\
    Forall (fun c => isHttpGet c = false) t in
  let miss :=
    exists tProbe tRest : list Call,
      t = tProbe ++ tRest /\
      Forall (fun c => isHttpGet c = false) tProbe /\
      exec (Processor.processSingleGame gameName outputDirectory false verbose) tRest result /\
      (gameName <> "" -> Exists (fun c => isHttpGet c = true) tRest) in
  exec (Processor.processSingleGame gameName outputDirectory true verbose) t result ->
  In (CStat path None) t ->
  In (CReadFile path (Ok content)) t ->
  match Fmt.Sscanf_d content with
  | Some storedID => hit storedID
  | None => miss
  end /\
  (forall (n : Z) (rest : string),
      content = Fmt.Sprintf_d n +:+ rest -> - 2 ^ 63 <= n < 2 ^ 63 ->
      Scan.endsNumber rest = true -> hit n) /\
  (Scan.notNumber content = true -> miss).
Proof.
  intros path hit miss Hex Hstat Hread.
  pose proof (skipExisting_read gameName outputDirectory verbose t result content
                Hex Hstat Hread) as Hcases.
  cbv zeta in Hcases. fold path in Hcases. split; [exact Hcases|]. split.
  - intros n rest -> Hn Hrest.
    rewrite (scan_Sprintf n rest Hn (endsNumber_stops rest Hrest)) in Hcases.
    exact Hcases.
  - intros Hnot. rewrite (scan_notNumber content Hnot) in Hcases. exact Hcases.
Qed.

Lemma processSingleGame_skip_existing_witness :
  (fst (fst (runPortal (cachedWorld "400_") true false)) =
     {| Processor.GameName := "Portal"; Processor.GameID := 400;
        Processor.Success := true; Processor.Error := None |} /\
   Forall (fun c => isHttpGet c = false) (snd (runPortal (cachedWorld "400_") true false))) /\
  Fmt.Sscanf_d "400_" = Some 400.
Proof.
  split; [|reflexivity].
  apply (proj1 (processSingleGame_skip_existing (H := exampleLib) "Portal" "output" false
                  (snd (runPortal (cachedWorld "400_") true false))
                  (fst (fst (runPortal (cachedWorld "400_") true false))) "400_"
                  (run_exec handler (Processor.processSingleGame "Portal" "output" true false)
                            (cachedWorld "400_"))
                  ltac:(vm_compute; left; reflexivity)
                  ltac:(vm_compute; right; left; reflexivity))).
Defined.

(** Stored records and what a run with [shouldSkipExisting] makes of
    them: text behind the digits is not looked at (["400_"] and
    ["1_000"] are read as 400 and 1, with no request); a record that
    holds no number (["abc"], the empty file) or a number that is not a
    64-bit integer is resolved again and overwritten. *)
Example stored_records :
  let run := fun content : string => runPortal (cachedWorld content) true false in
  let requests := fun content : string =>
    length (List.filter isHttpGet (snd (run content))) in
  let stored := fun content : string =>
    files (snd (fst (run content))) !! "output/Portal.steam" in
  (fst (fst (run "400_")) = successResult "Portal" 400 /\ requests "400_" = 0%nat) /\
  (fst (fst (run "1_000")) = successResult "Portal" 1 /\ requests "1_000" = 0%nat /\
   stored "1_000" = Some "1_000") /\
  (fst (fst (run " +7 apples")) = successResult "Portal" 7 /\
   requests " +7 apples" = 0%nat) /\
  (fst (fst (run "abc")) = successResult "Portal" 400 /\ requests "abc" = 1%nat /\
   stored "abc" = Some "400") /\
  (fst (fst (run "")) = successResult "Portal" 400 /\ requests "" = 1%nat) /\
  (fst (fst (run "9223372036854775808")) = successResult "Portal" 400 /\
   requests "9223372036854775808" = 1%nat /\
   stored "9223372036854775808" = Some "400").
Proof. vm_compute. repeat split. Qed.

(** C4. A failed [os.WriteFile] makes [processSingleGame] return a
    failure that wraps the error of the write; the write is the one of
    an identifier that [findSteamGameID] had just resolved. *)
Theorem processSingleGame_write_failure `{GoLib}
        (gameName outputDirectory : string) (shouldSkipExisting verbose : bool)
        (t : list Call) (result : Processor.GameResult)
        (name data : string) (perm : Z) (err : error) :
  exec (Processor.processSingleGame gameName outputDirectory shouldSkipExisting verbose)
       t result ->
  In (CWriteFile name data perm (Some err)) t ->
  result = {| Processor.GameName := gameName; Processor.GameID := 0;
              Processor.Success := false;
              Processor.Error := Some (Processor.errWriting err) |} /\
  exists (t0 t1 : list Call) (gameID : Z),
    exec (Resolver.findSteamGameID gameName verbose) t1 (gameID, None) /\
    t = t0 ++ t1 ++
        [CWriteFile (filepath_Join outputDirectory (sanitizeFilename gameName +:+ ".steam"))
                    (Fmt.Sprintf_d gameID) Processor.fileMode (Some err)].
Proof.
  intros Hex Hin.
  apply processSingleGame_exec in Hex as (tProbe & early & tRest & -> & Hprobe & Hrest).
  assert (HnoWrite : Forall (fun c => isWriteFile c = false) tProbe).
  { destruct shouldSkipExisting.
    - apply skipExisting_no_resolver in Hprobe.
      eapply Forall_impl; [exact Hprobe|]. now intros c [].
    - destruct Hprobe as [-> _]. constructor. }
  apply in_app_or in Hin as [Hin|Hin].
  { apply (Forall_In _ _ _ HnoWrite) in Hin. discriminate. }
  destruct early as [r|]; [destruct Hrest as [-> _]; contradiction|].
  apply queryAndWrite_exec in Hrest as (t1 & [gameID [ferr|]] & Hfind & Hshape).
  - destruct Hshape as [-> _]. apply findSteamGameID_no_probe in Hfind.
    apply (Forall_In _ _ _ Hfind) in Hin. destruct Hin. discriminate.
  - destruct Hshape as (writeErr & -> & ->).
    apply in_app_or in Hin as [Hin|[Hin|[]]].
    + apply findSteamGameID_no_probe in Hfind.
      apply (Forall_In _ _ _ Hfind) in Hin. destruct Hin. discriminate.
    + injection Hin as _ _ _ ->. split; [reflexivity|].
      exists tProbe, t1, gameID. split; [assumption | reflexivity].
Qed.

Lemma processSingleGame_write_failure_witness :
  fst (fst (runPortal lockedWorld false false)) =
    {| Processor.GameName := "Portal"; Processor.GameID := 0;
       Processor.Success := false;
       Processor.Error := Some (Processor.errWriting (errPermission "output/Portal.steam")) |}.
Proof.
  apply (processSingleGame_write_failure (H := exampleLib) "Portal" "output" false false
           (snd (runPortal lockedWorld false false))
           (fst (fst (runPortal lockedWorld false false)))
           "output/Portal.steam" "400" 420 (errPermission "output/Portal.steam")).
  - apply run_exec.
  - vm_compute. right. left. reflexivity.
Defined.

(** C8, as the code has it.  The identifier of a success is the integer
    [findSteamGameID] took from the first item of the parsed response,
    or the integer [Sscanf] read from the stored record; nothing makes
    it non-negative, it is so exactly when that integer is. *)
Theorem processSingleGame_success_identifier `{GoLib}
        (gameName outputDirectory : string) (shouldSkipExisting verbose : bool)
        (t : list Call) (result : Processor.GameResult) :
  exec (Processor.processSingleGame gameName outputDirectory shouldSkipExisting verbose)
       t result ->
  Processor.Success result = true ->
  (exists (url body : string) (apiResponse : SteamAPIResponse) (item : Item) (rest : list Item),
      In (CHttpGet url (Ok {| StatusCode := 200; Body := Ok body |})) t /\
      json_Unmarshal body = Ok apiResponse /\
      Items apiResponse = item :: rest /\
      Processor.GameID result = ID item) \/
  (exists (name content : string),
      shouldSkipExisting = true /\
      In (CReadFile name (Ok content)) t /\
      Fmt.Sscanf_d content = Some (Processor.GameID result)).
Proof.
  intros Hex Hsucc.
  apply processSingleGame_exec in Hex as (tProbe & early & tRest & -> & Hprobe & Hrest).
  destruct early as [r|].
  - right. destruct Hrest as [-> ->].
    destruct shouldSkipExisting; [|destruct Hprobe; discriminate].
    apply skipExisting_exec in Hprobe
      as [(err & _ & [=])|(l & read & -> & _ & Hr)].
    unfold cachedOutcome in Hr.
    destruct read as [content|err]; [|discriminate].
    destruct (Fmt.Sscanf_d content) as [storedID|] eqn:Hscan; [|discriminate].
    injection Hr as ->. exists (Processor.steamFilePath gameName outputDirectory), content. split; [reflexivity|]. split; [|exact Hscan].
    rewrite app_nil_r. right. apply in_or_app. right. now left.
  - left.
    apply queryAndWrite_exec in Hrest as (t1 & [gameID [ferr|]] & Hfind & Hshape).
    { destruct Hshape as [_ ->]. discriminate. }
    destruct Hshape as (writeErr & -> & ->).
    destruct writeErr; [discriminate|]. simpl.
    apply findSteamGameID_exec in Hfind
      as [(_ & _ & [=])|(_ & l1 & got & l2 & -> & _ & _ & Hout)].
    unfold resolveOutcome in Hout.
    destruct got as [[status [body|berr]]|gerr]; simpl in Hout;
      try discriminate;
      try (destruct (negb (status =? Resolver.StatusOK)); discriminate).
    destruct (Z.eqb_spec status Resolver.StatusOK) as [->|]; [|discriminate].
    simpl in Hout.
    destruct (json_Unmarshal body) as [apiResponse|jerr] eqn:Hjson; [|discriminate].
    destruct (Items apiResponse) as [|item rest] eqn:Hitems; [discriminate|].
    injection Hout as ->.
    exists (Resolver.requestURL gameName), body, apiResponse, item, rest. repeat split; try assumption.
    apply in_or_app. right. apply in_or_app. left. apply in_or_app. right. now left.
Qed.

Lemma processSingleGame_success_identifier_witness :
  (exists (url body : string) (apiResponse : SteamAPIResponse) (item : Item) (rest : list Item),
      In (CHttpGet url (Ok {| StatusCode := 200; Body := Ok body |}))
         (snd (runPortal (cachedWorld "400_") true false)) /\
      json_Unmarshal body = Ok apiResponse /\
      Items apiResponse = item :: rest /\
      Processor.GameID (fst (fst (runPortal (cachedWorld "400_") true false))) = ID item) \/
  (exists (name content : string),
      true = true /\
      In (CReadFile name (Ok content)) (snd (runPortal (cachedWorld "400_") true false)) /\
      Fmt.Sscanf_d content =
        Some (Processor.GameID (fst (fst (runPortal (cachedWorld "400_") true false))))).
Proof.
  apply (processSingleGame_success_identifier (H := exampleLib) "Portal" "output" true false
           (snd (runPortal (cachedWorld "400_") true false))
           (fst (fst (runPortal (cachedWorld "400_") true false)))).
  - exact (run_exec handler (Processor.processSingleGame "Portal" "output" true false)
                    (cachedWorld "400_")).
  - vm_compute. reflexivity.
Defined.

(** The two paths of a success: the record ["400_"] is read as 400
    with no request; with no record, 400 is the id of the first item
    of the answer of the API. *)
Example success_identifiers :
  fst (fst (runPortal (cachedWorld "400_") true false)) = successResult "Portal" 400 /\
  List.filter isHttpGet (snd (runPortal (cachedWorld "400_") true false)) = [] /\
  Fmt.Sscanf_d "400_" = Some 400 /\
  fst (fst (runPortal emptyWorld false false)) = successResult "Portal" 400 /\
  In (CHttpGet (Resolver.requestURL "Portal") (page portalBody))
     (snd (runPortal emptyWorld false false)).
Proof. vm_compute. repeat split. left. reflexivity. Qed.

(** A success with a negative identifier, on either path: the stored
    record "-5", and an item of the API with the id -1. *)
Example negative_identifiers :
  fst (fst (runPortal (cachedWorld "-5") true false)) = successResult "Portal" (-5) /\
  fst (fst (runPortal negativeWorld false false)) = successResult "Portal" (-1).
Proof. vm_compute. split; reflexivity. Qed.

(** C8, as stated, fails: with the stored record "-5",
    [processSingleGame] returns a success that carries -5. *)
Lemma processSingleGame_negative_identifier :
  ~ (forall (lib : GoLib) (gameName outputDirectory : string)
            (shouldSkipExisting verbose : bool) (t : list Call)
            (result : Processor.GameResult),
        exec (Processor.processSingleGame gameName outputDirectory shouldSkipExisting verbose)
             t result ->
        Processor.Success result = true ->
        0 <= Processor.GameID result).
Proof.
  intros Hclaim.
  pose proof (Hclaim exampleLib "Portal" "output" true false _ _
                (run_exec handler _ (cachedWorld "-5"))) as Hstored.
  vm_compute in Hstored. apply Hstored; reflexivity.
Qed.

(** ** The worker pool *)

Import Processor Pool PoolInv.

(** *** Replacing one worker *)

Lemma sum_insert (f : Worker -> nat) (ws : list Worker) (i : nat) (w w' : Worker) :
  ws !! i = Some w ->
  (list_sum (map f (<[i := w']> ws)) + f w = list_sum (map f ws) + f w')%nat.
Proof.
  revert i. induction ws as [|a ws IH]; intros i Hi; [discriminate|].
  destruct i as [|i]; simpl in *.
  - injection Hi as ->. lia.
  - specialize (IH i Hi). lia.
Qed.

Lemma inFlight_insert (ws : list Worker) (i : nat) (w w' : Worker) :
  ws !! i = Some w ->
  workerName w ++ inFlight (<[i := w']> ws) ≡ₚ workerName w' ++ inFlight ws.
Proof.
  revert i. induction ws as [|a ws IH]; intros i Hi; [discriminate|].
  destruct i as [|i]; simpl in *.
  - injection Hi as ->. solve_Permutation.
  - specialize (IH i Hi). unfold inFlight in *.
    rewrite (Permutation_app_swap_app (workerName w)), IH. solve_Permutation.
Qed.

Lemma In_insert (ws : list Worker) (i : nat) (w' x : Worker) :
  In x (<[i := w']> ws) -> x = w' \/ In x ws.
Proof.
  revert i. induction ws as [|a ws IH]; intros i Hin; [contradiction|].
  destruct i as [|i]; simpl in *.
  - destruct Hin as [<-|Hin]; auto.
  - destruct Hin as [<-|Hin]; [auto|]. apply IH in Hin as [->|Hin]; auto.
Qed.

Lemma inFlight_app (ws1 ws2 : list Worker) :
  inFlight (ws1 ++ ws2) = inFlight ws1 ++ inFlight ws2.
Proof. unfold inFlight. apply flat_map_app. Qed.

Lemma sum_app (f : Worker -> nat) (ws1 ws2 : list Worker) :
  list_sum (map f (ws1 ++ ws2)) = (list_sum (map f ws1) + list_sum (map f ws2))%nat.
Proof. now rewrite map_app, list_sum_app. Qed.

Lemma lookup_In (ws : list Worker) (i : nat) (w : Worker) :
  ws !! i = Some w -> In w ws.
Proof. intros Hi. apply list_elem_of_In. eapply list_elem_of_lookup_2, Hi. Qed.

Lemma liveCount_zero (ws : list Worker) (w : Worker) :
  liveCount ws = 0%nat -> In w ws -> w = WDone.
Proof.
  unfold liveCount. induction ws as [|a ws IH]; [contradiction|].
  simpl. intros Hsum [->|Hin].
  - destruct w; simpl in Hsum; try lia. reflexivity.
  - apply IH; [lia | assumption].
Qed.

(** The result of [processSingleGame] carries the name it was given. *)
Lemma processSingleGame_GameName `{GoLib}
      (gameName outputDirectory : string) (shouldSkipExisting verbose : bool)
      (t : list Sys.Call) (result : GameResult) :
  Sys.exec (processSingleGame gameName outputDirectory shouldSkipExisting verbose) t result ->
  GameName result = gameName.
Proof.
  intros Hex.
  apply processSingleGame_exec in Hex as (tProbe & early & tRest & -> & Hprobe & Hrest).
  destruct early as [r|].
  - destruct Hrest as [_ ->].
    destruct shouldSkipExisting; [|destruct Hprobe; discriminate].
    apply skipExisting_exec in Hprobe as [(err & _ & [=])|(l & read & _ & _ & Hr)].
    unfold cachedOutcome in Hr. destruct read as [content|err]; [|discriminate].
    destruct (Fmt.Sscanf_d content); [|discriminate]. now injection Hr as ->.
  - apply queryAndWrite_exec in Hrest as (t1 & [gameID [err|]] & _ & Hshape).
    + now destruct Hshape as [_ ->].
    + destruct Hshape as (writeErr & _ & ->). now destruct writeErr.
Qed.

Lemma liveCount_pos (ws : list Worker) (i : nat) (w : Worker) :
  ws !! i = Some w -> w <> WDone -> (1 <= liveCount ws)%nat.
Proof.
  intros Hi Hw. destruct (Nat.eq_dec (liveCount ws) 0%nat) as [Hz|]; [|lia].
  contradiction Hw. eapply liveCount_zero; [exact Hz|]. eapply lookup_In, Hi.
Qed.

Lemma liveCount_exists (ws : list Worker) :
  liveCount ws <> 0%nat -> exists (i : nat) (w : Worker), ws !! i = Some w /\ w <> WDone.
Proof.
  unfold liveCount. induction ws as [|a ws IH]; simpl; [congruence|].
  intros Hsum. destruct a.
  1-3: exists 0%nat; eexists; split; [reflexivity | discriminate].
  destruct IH as (i & w & Hi & Hw); [simpl in Hsum; lia|].
  exists (S i), w. auto.
Qed.

Lemma inFlight_length (ws : list Worker) (i : nat) (w : Worker) :
  ws !! i = Some w -> (length (workerName w) <= length (inFlight ws))%nat.
Proof.
  revert i. induction ws as [|a ws IH]; intros i Hi; [discriminate|].
  unfold inFlight in *. simpl. rewrite length_app.
  destruct i as [|i]; simpl in Hi.
  - injection Hi as ->. lia.
  - specialize (IH i Hi). lia.
Qed.

Lemma inFlight_done (ws : list Worker) : liveCount ws = 0%nat -> inFlight ws = [].
Proof.
  unfold liveCount, inFlight. induction ws as [|a ws IH]; [reflexivity|].
  simpl. intros Hsum. destruct a; simpl in *; try lia. apply IH. lia.
Qed.

Lemma Success_partition (rs : list GameResult) :
  (length (filter (fun r => Success r = true) rs) +
   length (filter (fun r => Success r = false) rs) = length rs)%nat.
Proof.
  induction rs as [|r rs IH]; [reflexivity|].
  destruct (Success r) eqn:Hr.
  - rewrite filter_cons_True, filter_cons_False by (rewrite Hr; auto). simpl. lia.
  - rewrite filter_cons_False, filter_cons_True by (rewrite Hr; auto). simpl. lia.
Qed.

(** Every program returns something: in the world in memory, for one. *)
Lemma exec_total {A : Type} (p : Sys.Prog A) : exists t a, Sys.exec p t a.
Proof.
  eexists _, _. apply (run_exec MemWorld.handler p MemWorld.emptyWorld).
Qed.

(** *** The invariant *)

Section PoolFacts.
Context `{GoLib}.
Variable gameNames : list string.
Variable workerCountFlag : Z.
Variable outputDirectory : string.
Variable shouldSkipExisting verbose : bool.

Local Abbreviation step :=
  (Pool.step gameNames workerCountFlag outputDirectory shouldSkipExisting verbose).
Local Abbreviation steps :=
  (Pool.steps gameNames workerCountFlag outputDirectory shouldSkipExisting verbose).
Local Abbreviation Inv :=
  (PoolInv.Inv gameNames workerCountFlag outputDirectory shouldSkipExisting verbose).
Local Abbreviation W := (PoolInv.W gameNames workerCountFlag).

Lemma Inv_init : Inv (init gameNames).
Proof.
  constructor; simpl; try reflexivity.
  - unfold accounted. simpl. now rewrite app_nil_r.
  - repeat split; try reflexivity. lia.
  - split; discriminate.
  - intros [].
  - repeat split; reflexivity.
  - repeat split; constructor.
Qed.

(** No step of a state that satisfies the invariant is a panic. *)
Lemma step_no_panic (s s' : State) : Inv s -> step s s' -> panicked s' = false.
Proof.
  intros [Hp Hnames Hwg Hcj Hcr Hmain Hjc Hwd Hcl Ht Hgen] Hstep.
  destruct Hstep as [ | | | |x rest _ Hs Hc| |_ Hs Hc| | |i _ Hi _ _ Hneg| |
                     |i r _ Hi Hc| | |_ Hs Hc| | ]; try reflexivity; exfalso.
  - apply Hjc in Hc. congruence.
  - apply Hjc in Hc. congruence.
  - assert (Hpos : (1 <= liveCount (workers s))%nat)
      by (eapply liveCount_pos; [exact Hi | discriminate]).
    lia.
  - destruct (closer s); try (destruct Hcl; congruence); try congruence.
    destruct Hcl as [_ Hz]. rewrite Hwg in Hz.
    assert (WSending r = WDone); [|discriminate].
    apply (liveCount_zero (workers s)); [lia | eapply lookup_In, Hi].
  - rewrite Hs in Hcl. destruct Hcl. congruence.
Qed.

Lemma Inv_step (s s' : State) : Inv s -> step s s' -> Inv s'.
Proof.
intros HI Hstep. pose proof (step_no_panic _ _ HI Hstep) as Hnp.
destruct HI as [Hp Hnames Hwg Hcj Hcr Hmain Hjc Hwd Hcl Ht Hgen].
unfold accounted, unsent in Hnames.
destruct Hstep as
  [i _ Hm Hlt | i _ Hm Hge | _ Hm
  | x rest _ Hs Hc Hroom | | _ Hs Hc |
  | i x rest _ Hi Hb | i _ Hi Hb Hc Hnn |
  | i x t r _ Hi Hex | i r _ Hi Hc Hroom |
  | _ Hs Hz | _ Hs Hc | | r rest _ Hm Hb | _ Hm Hb Hc ];
  simpl in Hnp; try discriminate.
- (* a worker is started *)
  rewrite Hm in Hmain. destruct Hmain as (Hlen & Hle & Hsnd & Hclo).
  constructor; unfold accounted, unsent; simpl; try assumption.
  + now rewrite inFlight_app, app_nil_r.
  + unfold liveCount. rewrite sum_app. simpl. unfold liveCount in Hwg. lia.
  + rewrite length_app. simpl. unfold W in *. repeat split; try assumption; lia.
  + intros Hin. apply in_app_or in Hin as [Hin|[Hin|[]]]; [auto | discriminate].
  + rewrite Hclo in *. assumption.
  + destruct Hgen as (Hgw & Hgq & Hgp). repeat split; try assumption.
    apply Forall_app. split; [assumption | now repeat constructor].
- (* the sender is started *)
  rewrite Hm in Hmain. destruct Hmain as (Hlen & Hle & Hsnd & Hclo).
  rewrite Hsnd in Hnames, Hjc.
  constructor; unfold accounted, unsent; simpl; try assumption.
  + unfold W in *. repeat split; [lia | discriminate | assumption].
  + split; [|discriminate]. intros Hc. apply Hjc in Hc. discriminate.
- (* the closer is started *)
  rewrite Hm in Hmain. destruct Hmain as (Hlen & Hsnd & Hclo).
  rewrite Hclo in Hcl.
  constructor; unfold accounted, unsent; simpl; try assumption.
  repeat split; [assumption | assumption | discriminate].
- (* a name is sent *)
  rewrite Hs in Hnames.
  constructor; unfold accounted, unsent; simpl; try assumption.
  + rewrite Hnames. solve_Permutation.
  + rewrite Hs in Hmain. destruct (main s); intuition discriminate.
  + rewrite Hc. split; discriminate.
  + intros Hin. apply Hwd in Hin as [Hin _]. congruence.
- (* the job queue is closed *)
  rewrite Hs in Hnames.
  constructor; unfold accounted, unsent; simpl; try assumption.
  + rewrite Hs in Hmain. destruct (main s); intuition discriminate.
  + split; reflexivity.
  + intros Hin. apply Hwd in Hin as [Hin _]. congruence.
- (* a worker receives a name *)
  rewrite Hb in Hnames.
  constructor; unfold accounted, unsent, setWorker; simpl; try assumption.
  + rewrite Hnames.
    pose proof (inFlight_insert _ _ _ (WProcessing x) Hi) as Hperm. simpl in Hperm.
    rewrite Hperm. solve_Permutation.
  + pose proof (sum_insert isLive _ _ _ (WProcessing x) Hi) as Hsum.
    unfold liveCount in *. simpl in Hsum. lia.
  + now rewrite length_insert.
  + intros Hin. apply In_insert in Hin as [Hin|Hin]; [discriminate|].
    apply Hwd in Hin as [_ Hin]. congruence.
  + destruct Hgen as (Hgw & Hgq & Hgp). repeat split; try assumption.
    now apply Forall_insert.
- (* a worker returns *)
  assert (Hlive : (1 <= liveCount (workers s))%nat)
    by (eapply liveCount_pos; [exact Hi | discriminate]).
  constructor; unfold accounted, unsent, setWorker; simpl; try assumption.
  + pose proof (inFlight_insert _ _ _ WDone Hi) as Hperm. simpl in Hperm.
    now rewrite Hperm.
  + pose proof (sum_insert isLive _ _ _ WDone Hi) as Hsum.
    unfold liveCount in *. simpl in Hsum. lia.
  + now rewrite length_insert.
  + auto.
  + destruct (closer s); try assumption; destruct Hcl; lia.
  + destruct Hgen as (Hgw & Hgq & Hgp). repeat split; try assumption.
    now apply Forall_insert.
- (* processSingleGame returns *)
  pose proof (processSingleGame_GameName _ _ _ _ _ _ Hex) as Hname.
  constructor; unfold accounted, unsent, setWorker; simpl; try assumption.
  + pose proof (inFlight_insert _ _ _ (WSending r) Hi) as Hperm. simpl in Hperm.
    rewrite Hname in Hperm. apply Permutation_cons_inv in Hperm.
    now rewrite Hperm.
  + pose proof (sum_insert isLive _ _ _ (WSending r) Hi) as Hsum.
    unfold liveCount in *. simpl in Hsum. lia.
  + now rewrite length_insert.
  + intros Hin. apply In_insert in Hin as [Hin|Hin]; [discriminate | auto].
  + destruct Hgen as (Hgw & Hgq & Hgp). repeat split; try assumption.
    apply Forall_insert; [assumption|]. exists t. now rewrite Hname.
- (* a worker sends its result *)
  constructor; unfold accounted, unsent, setWorker; simpl; try assumption.
  + rewrite Hnames.
    pose proof (inFlight_insert _ _ _ WIdle Hi) as Hperm. simpl in Hperm.
    rewrite <- Hperm, map_app. simpl. solve_Permutation.
  + pose proof (sum_insert isLive _ _ _ WIdle Hi) as Hsum.
    unfold liveCount in *. simpl in Hsum. lia.
  + rewrite length_insert. destruct (main s); try assumption.
    destruct Hmain as (_ & _ & _ & Hclosed & _). congruence.
  + intros Hin. apply In_insert in Hin as [Hin|Hin]; [discriminate | auto].
  + destruct Hgen as (Hgw & Hgq & Hgp). repeat split; try assumption.
    * now apply Forall_insert.
    * apply Forall_app. split; [assumption|]. repeat constructor.
      apply (Forall_In _ _ _ Hgw (lookup_In _ _ _ Hi)).
- (* the wait is over *)
  constructor; unfold accounted, unsent; simpl; try assumption.
  + destruct (main s); rewrite ?Hs in Hmain; intuition discriminate.
  + rewrite Hs in Hcl. auto.
- (* the result queue is closed *)
  rewrite Hs in Hcl, Hmain.
  constructor; unfold accounted, unsent; simpl; try assumption.
  + destruct (main s); intuition (discriminate || congruence).
  + destruct Hcl. auto.
- (* main receives a result *)
  rewrite Hb in Hnames. rewrite Hm in Hmain.
  assert (Hprinted : printed (collect r (tally s)) = printed (tally s) ++ [r])
    by (unfold collect; now destruct (Success r)).
  constructor; unfold accounted, unsent; simpl; try assumption.
  + rewrite Hprinted, Hnames, map_app. simpl. solve_Permutation.
  + now rewrite Hm.
  + destruct Ht as (Hcount & Hsucc & Hfail & Hfailed).
    rewrite Hprinted, !filter_app, !length_app, map_app.
    unfold collect. destruct (Success r) eqn:Hr; simpl.
    * rewrite filter_cons_True, filter_cons_False by (rewrite Hr; auto).
      simpl. rewrite app_nil_r. repeat split; try lia. exact Hfailed.
    * rewrite filter_cons_False, filter_cons_True by (rewrite Hr; auto).
      simpl. repeat split; try lia. now rewrite Hfailed.
  + destruct Hgen as (Hgw & Hgq & Hgp). rewrite Hb in Hgq.
    inversion Hgq as [|? ? Hr Hrest]; subst.
    repeat split; try assumption.
    rewrite Hprinted. apply Forall_app. split; [assumption | now repeat constructor].
- (* the collecting loop ends *)
  rewrite Hm in Hmain.
  constructor; unfold accounted, unsent; simpl; try assumption.
  intuition.
Qed.

Lemma Inv_steps (n : nat) (s : State) : steps n (init gameNames) s -> Inv s.
Proof.
intros Hs. remember (init gameNames) as s0 eqn:E.
induction Hs as [|n s1 s2 s3 _ IH Hstep]; subst.
- apply Inv_init.
- eapply Inv_step; eauto.
Qed.

Lemma Inv_reachable (s : State) :
  reachable gameNames workerCountFlag outputDirectory shouldSkipExisting verbose s -> Inv s.
Proof. intros [n Hs]. eapply Inv_steps, Hs. Qed.

(** *** Every step uses up potential *)

Lemma step_potential (s s' : State) :
  Inv s -> step s s' ->
  (potential gameNames workerCountFlag s' < potential gameNames workerCountFlag s)%nat.
Proof.
intros HI Hstep. pose proof (step_no_panic _ _ HI Hstep) as Hnp.
destruct HI as [Hp Hnames Hwg Hcj Hcr Hmain Hjc Hwd Hcl Ht Hgen].
destruct Hstep as
  [i _ Hm Hlt | i _ Hm Hge | _ Hm
  | x rest _ Hs Hc Hroom | | _ Hs Hc |
  | i x rest _ Hi Hb | i _ Hi Hb Hc Hnn |
  | i x t r _ Hi Hex | i r _ Hi Hc Hroom |
  | _ Hs Hz | _ Hs Hc | | r rest _ Hm Hb | _ Hm Hb Hc ];
  simpl in Hnp; try discriminate;
  unfold potential, unsent, setWorker; simpl;
  rewrite ?Hm, ?Hs, ?Hb; simpl.
- rewrite sum_app. simpl. unfold W in *. lia.
- rewrite Hm in Hmain. destruct Hmain as (_ & _ & -> & _). simpl. lia.
- rewrite Hm in Hmain. destruct Hmain as (_ & _ & ->). simpl. lia.
- rewrite length_app. simpl. lia.
- lia.
- pose proof (sum_insert workerSteps _ _ _ (WProcessing x) Hi) as Hsum.
  simpl in Hsum. lia.
- pose proof (sum_insert workerSteps _ _ _ WDone Hi) as Hsum.
  simpl in Hsum. lia.
- pose proof (sum_insert workerSteps _ _ _ (WSending r) Hi) as Hsum.
  simpl in Hsum. lia.
- pose proof (sum_insert workerSteps _ _ _ WIdle Hi) as Hsum.
  rewrite length_app. simpl in *. lia.
- lia.
- lia.
- lia.
- lia.
Qed.

Lemma steps_potential (n : nat) (s : State) :
  steps n (init gameNames) s ->
  (n + potential gameNames workerCountFlag s
   <= potential gameNames workerCountFlag (init gameNames))%nat.
Proof.
intros Hs. remember (init gameNames) as s0 eqn:E.
induction Hs as [|n s1 s2 s3 Hs IH Hstep]; subst.
- lia.
- specialize (IH eq_refl).
  pose proof (step_potential _ _ (Inv_steps _ _ Hs) Hstep). lia.
Qed.

(** *** The end of a run, and the way to it *)

Lemma Inv_done (s : State) :
  Inv s -> 1 <= workerCountFlag -> main s = MDone ->
  gameNames ≡ₚ map GameName (printed (tally s)) /\
  unsent gameNames s = [] /\ buf (jobQueue s) = [] /\ inFlight (workers s) = [].
Proof.
intros [Hp Hnames Hwg Hcj Hcr Hmain Hjc Hwd Hcl Ht Hgen] Hflag Hm.
rewrite Hm in Hmain. destruct Hmain as (Hlen & Hsnd & Hclo & Hclosed & Hbuf).
assert (Hzero : liveCount (workers s) = 0%nat).
{ destruct (closer s); try congruence; destruct Hcl; try congruence. lia. }
pose proof (inFlight_done _ Hzero) as Hfl.
assert (Hrest : unsent gameNames s = [] /\ buf (jobQueue s) = []).
{ destruct (workers s) as [|w ws] eqn:Hws.
  - assert (HN : gameNames = []).
    { unfold W, actualWorkerCount, totalGames in Hlen. simpl in Hlen.
      destruct gameNames; [reflexivity|]. simpl length in Hlen.
      destruct (Z.ltb_spec (Z.of_nat (S (length l))) workerCountFlag); lia. }
    unfold accounted in Hnames. rewrite HN in Hnames at 1.
    apply Permutation_nil_l in Hnames. symmetry in Hnames.
    apply app_eq_nil in Hnames as [Hu Hnames].
    apply app_eq_nil in Hnames as [Hj _]. auto.
  - assert (Hw : w = WDone) by (apply (liveCount_zero (w :: ws)); [assumption | now left]).
    subst w. destruct Hwd as [Hc Hb]; [now left|].
    apply Hjc in Hc. unfold unsent. rewrite Hc. auto. }
destruct Hrest as [Hu Hj]. repeat split; try assumption.
unfold accounted in Hnames. now rewrite Hu, Hj, Hfl, Hbuf in Hnames.
Qed.

Lemma Inv_progress (s : State) :
  Inv s -> main s <> MDone -> exists s', step s s'.
Proof.
intros [Hp Hnames Hwg Hcj Hcr Hmain Hjc Hwd Hcl Ht Hgen] Hm.
assert (Hlen := Permutation_length Hnames).
unfold accounted in Hlen. rewrite !length_app, !length_map in Hlen.
destruct (main s) as [i| | |] eqn:Hmn; [| | |congruence].
- destruct (Z_lt_dec i (actualWorkerCount workerCountFlag (totalGames gameNames))).
  + eexists. eapply step_spawn_worker; eauto.
  + eexists. eapply step_spawn_sender; eauto.
- eexists. eapply step_spawn_closer; eauto.
- destruct Hmain as (_ & Hsnd & Hclo).
  destruct (buf (resultQueue s)) as [|r rest] eqn:Hbuf;
    [|eexists; eapply step_collect; eauto].
  destruct (closed (resultQueue s)) eqn:Hclosed;
    [eexists; eapply step_finish; eauto|].
  destruct (closer s) eqn:Hcs; [congruence| |eexists; eapply step_close_results; eauto|].
  2: { destruct Hcl. congruence. }
  destruct (Z.eq_dec (waitGroup s) 0) as [Hz|Hnz];
    [eexists; eapply step_wait; eauto|].
  destruct (liveCount_exists (workers s)) as (i & w & Hi & Hw); [lia|].
  assert (Hfl := inFlight_length _ _ _ Hi).
  destruct w as [|x|r|]; [| | |congruence].
  + destruct (buf (jobQueue s)) as [|x rest] eqn:Hjobs;
      [|eexists; eapply step_recv_job; eauto].
    destruct (closed (jobQueue s)) eqn:Hjclosed.
    { eexists. eapply step_worker_exit; eauto.
      assert ((1 <= liveCount (workers s))%nat)
        by (eapply liveCount_pos; [exact Hi | discriminate]).
      lia. }
    destruct (sender s) as [|[|x rest]|] eqn:Hsd; [congruence| | |].
    * eexists. eapply step_close_jobs; eauto.
    * eexists. eapply step_send_job; eauto.
      unfold hasRoom. rewrite Hjobs, Hcj. unfold totalGames, unsent in *.
      rewrite Hsd in Hlen. simpl in *. lia.
    * destruct Hjc as [_ Hjc]. specialize (Hjc eq_refl). discriminate.
  + destruct (exec_total
                (processSingleGame x outputDirectory shouldSkipExisting verbose))
      as (t & r & Hex).
    eexists. eapply step_process; eauto.
  + eexists. eapply step_send_result; eauto.
    unfold hasRoom. rewrite Hbuf, Hcr. unfold totalGames. simpl in *. lia.
Qed.
End PoolFacts.

(** *** Two runs *)

Lemma steps_front `{GoLib} (gameNames : list string) (workerCountFlag : Z)
      (outputDirectory : string) (shouldSkipExisting verbose : bool)
      (n : nat) (s1 s2 s3 : State) :
  step gameNames workerCountFlag outputDirectory shouldSkipExisting verbose s1 s2 ->
  steps gameNames workerCountFlag outputDirectory shouldSkipExisting verbose n s2 s3 ->
  steps gameNames workerCountFlag outputDirectory shouldSkipExisting verbose (S n) s1 s3.
Proof.
  intros Hstep Hs. induction Hs as [s|n s2 s3 s4 _ IH Hlast].
  - eapply steps_S; [apply steps_O | exact Hstep].
  - eapply steps_S; [apply IH; exact Hstep | exact Hlast].
Qed.

Lemma portal_exec :
  exec (processSingleGame "Portal" "output" false false)
       [CHttpGet (Resolver.requestURL "Portal") (page portalBody);
        CWriteFile "output/Portal.steam" "400" 420 None]
       PoolExample.portalResult.
Proof.
  pose proof (run_exec handler (processSingleGame "Portal" "output" false false) emptyWorld) as Hex.
  assert (Ht : snd (run handler (processSingleGame "Portal" "output" false false) emptyWorld) =
       [CHttpGet (Resolver.requestURL "Portal") (page portalBody);
        CWriteFile "output/Portal.steam" "400" 420 None]) by (vm_compute; reflexivity).
  assert (Hr : fst (fst (run handler (processSingleGame "Portal" "output" false false) emptyWorld)) =
       PoolExample.portalResult) by (vm_compute; reflexivity).
  rewrite Ht, Hr in Hex. exact Hex.
Qed.

Ltac pool_step tac := eapply steps_front; [tac | simpl].

Lemma oneWorkerEnd_reachable :
  reachable (H := exampleLib) ["Portal"] 1 "output" false false PoolExample.oneWorkerEnd.
Proof.
  exists 13%nat.
  pool_step ltac:(eapply (step_spawn_worker _ _ _ _ _ _ 0); [reflexivity..|]; vm_compute; reflexivity).
  pool_step ltac:(eapply (step_spawn_sender _ _ _ _ _ _ 1); [reflexivity..|]; vm_compute; discriminate).
  pool_step ltac:(eapply step_spawn_closer; reflexivity).
  pool_step ltac:(eapply step_send_job; [reflexivity..|]; vm_compute; reflexivity).
  pool_step ltac:(eapply step_close_jobs; reflexivity).
  pool_step ltac:(eapply (step_recv_job _ _ _ _ _ _ 0%nat); reflexivity).
  pool_step ltac:(eapply (step_process _ _ _ _ _ _ 0%nat);
                  [reflexivity | reflexivity | apply portal_exec]).
  pool_step ltac:(eapply (step_send_result _ _ _ _ _ _ 0%nat);
                  [reflexivity..|]; vm_compute; reflexivity).
  pool_step ltac:(eapply (step_worker_exit _ _ _ _ _ _ 0%nat);
                  [reflexivity..|]; vm_compute; discriminate).
  pool_step ltac:(eapply step_wait; reflexivity).
  pool_step ltac:(eapply step_close_results; reflexivity).
  pool_step ltac:(eapply step_collect; reflexivity).
  pool_step ltac:(eapply step_finish; reflexivity).
  apply steps_O.
Qed.

Lemma noWorkerEnd_reachable :
  reachable (H := exampleLib) ["Portal"] 0 "output" false false PoolExample.noWorkerEnd.
Proof.
  exists 5%nat.
  pool_step ltac:(eapply (step_spawn_sender _ _ _ _ _ _ 0); [reflexivity..|]; vm_compute; discriminate).
  pool_step ltac:(eapply step_spawn_closer; reflexivity).
  pool_step ltac:(eapply step_wait; reflexivity).
  pool_step ltac:(eapply step_close_results; reflexivity).
  pool_step ltac:(eapply step_finish; reflexivity).
  apply steps_O.
Qed.

(** *** Statements about the pool *)

Lemma potential_init `{GoLib} (gameNames : list string) (workerCountFlag : Z) :
  potential gameNames workerCountFlag (init gameNames) =
  (2 * Z.to_nat (actualWorkerCount workerCountFlag (totalGames gameNames)) +
   5 * length gameNames + 6)%nat.
Proof.
  unfold potential, unsent, mainSteps, W. simpl. rewrite Z.sub_0_r. lia.
Qed.

(** C6.  [actualWorkerCount] is the minimum of the [--workers] flag
    and the number of names, for every value of the flag; for a worker
    count as the specification has it, a positive integer, it is at
    least 1 when there is a name; and the worker goroutines started
    are never more than [max 0 actualWorkerCount], and exactly that
    many once the loop that starts them is over. *)
Theorem actualWorkerCount_min `{GoLib}
        (gameNames : list string) (workerCountFlag : Z)
        (outputDirectory : string) (shouldSkipExisting verbose : bool) :
  actualWorkerCount workerCountFlag (totalGames gameNames) =
    Z.min workerCountFlag (totalGames gameNames) /\
  (1 <= workerCountFlag -> gameNames <> [] ->
   1 <= actualWorkerCount workerCountFlag (totalGames gameNames)) /\
  (forall s : State,
      reachable gameNames workerCountFlag outputDirectory shouldSkipExisting verbose s ->
      Z.of_nat (length (workers s)) <=
        Z.max 0 (actualWorkerCount workerCountFlag (totalGames gameNames)) /\
      ((forall i, main s <> MSpawn i) ->
       Z.of_nat (length (workers s)) =
         Z.max 0 (actualWorkerCount workerCountFlag (totalGames gameNames)))).
Proof.
  split; [|split].
  - unfold actualWorkerCount.
    destruct (Z.ltb_spec (totalGames gameNames) workerCountFlag); lia.
  - intros Hflag Hnames. unfold actualWorkerCount, totalGames.
    destruct gameNames as [|x l]; [congruence|]. simpl length.
    destruct (Z.ltb_spec (Z.of_nat (S (length l))) workerCountFlag); lia.
  - intros s Hs. apply Inv_reachable in Hs. destruct Hs as [_ _ _ _ _ Hmain _ _ _ _ _].
    unfold W in Hmain. destruct (main s) as [i| | |].
    + split; [lia|]. intros Hne. now contradiction (Hne i).
    + split; [lia | intros _; tauto].
    + split; [lia | intros _; tauto].
    + split; [lia | intros _; tauto].
Qed.

Lemma actualWorkerCount_min_witness :
  1 <= actualWorkerCount 8 (totalGames ["Portal"; "Half-Life 2"]).
Proof.
  apply (proj1 (proj2 (actualWorkerCount_min (H := exampleLib)
                         ["Portal"; "Half-Life 2"] 8 "output" false false))).
  - lia.
  - discriminate.
Defined.

(** C7.  For a worker count as the specification has it (a
    [--workers] flag of at least 1), in every interleaving of the
    goroutines: nothing panics; when the collecting loop of [main] is
    over it has received exactly one result for every name (the names
    of the results printed are the names submitted, up to order, and
    each is what [processSingleGame] returned for its name),
    [completedCount] is the number of names and so is
    [successCount + failedCount]; until then some goroutine can always
    move; and no run is longer than
    [2 * actualWorkerCount + 5 * N + 6] steps. *)
Theorem pool_collects_every_result `{GoLib}
        (gameNames : list string) (workerCountFlag : Z)
        (outputDirectory : string) (shouldSkipExisting verbose : bool) :
  1 <= workerCountFlag ->
  (forall s : State,
      reachable gameNames workerCountFlag outputDirectory shouldSkipExisting verbose s ->
      panicked s = false /\
      (main s = MDone ->
       completedCount (tally s) = totalGames gameNames /\
       successCount (tally s) + failedCount (tally s) = totalGames gameNames /\
       map GameName (printed (tally s)) ≡ₚ gameNames /\
       Forall (fun result : GameResult =>
                 exists t : list Sys.Call,
                   Sys.exec (processSingleGame (GameName result) outputDirectory
                                               shouldSkipExisting verbose) t result)
              (printed (tally s))) /\
      (main s <> MDone ->
       exists s' : State,
         step gameNames workerCountFlag outputDirectory shouldSkipExisting verbose s s')) /\
  (forall (n : nat) (s : State),
      steps gameNames workerCountFlag outputDirectory shouldSkipExisting verbose
            n (init gameNames) s ->
      (n <= 2 * Z.to_nat (actualWorkerCount workerCountFlag (totalGames gameNames)) +
            5 * length gameNames + 6)%nat).
Proof.
  intros Hflag. split.
  - intros s Hs. apply Inv_reachable in Hs. split; [apply Hs|]. split.
    + intros Hdone.
      destruct (Inv_done gameNames workerCountFlag outputDirectory
                  shouldSkipExisting verbose s Hs Hflag Hdone) as (Hperm & _).
      destruct Hs as [_ _ _ _ _ _ _ _ _ (Hcount & Hsucc & Hfail & _) (_ & _ & Hgen)].
      assert (Hlen : length (printed (tally s)) = length gameNames).
      { apply Permutation_length in Hperm. now rewrite length_map in Hperm. }
      pose proof (Success_partition (printed (tally s))) as Hpart.
      unfold totalGames. repeat split; [lia | lia | now symmetry | exact Hgen].
    + intros Hnot. eapply Inv_progress; eauto.
  - intros n s Hs. pose proof (steps_potential _ _ _ _ _ _ _ Hs) as Hpot.
    rewrite potential_init in Hpot. lia.
Qed.

Lemma pool_collects_every_result_witness :
  completedCount (tally PoolExample.oneWorkerEnd) = totalGames ["Portal"] /\
  successCount (tally PoolExample.oneWorkerEnd) +
    failedCount (tally PoolExample.oneWorkerEnd) = totalGames ["Portal"] /\
  map GameName (printed (tally PoolExample.oneWorkerEnd)) ≡ₚ ["Portal"] /\
  Forall (fun result : GameResult =>
            exists t : list Sys.Call,
              Sys.exec (processSingleGame (GameName result) "output" false false) t result)
         (printed (tally PoolExample.oneWorkerEnd)).
Proof.
  assert (Hflag : 1 <= 1) by lia.
  apply (proj1 (pool_collects_every_result (H := exampleLib)
                  ["Portal"] 1 "output" false false Hflag)
               PoolExample.oneWorkerEnd oneWorkerEnd_reachable).
  reflexivity.
Defined.

(** * Further properties *)

(** ** [sanitizeFilename]: what the key keeps of the name *)

Import Words.

Lemma filter_collapse (cls : byte -> bool) (u : byte) (b : bool) (l : list byte) :
  cls u = true ->
  List.filter (fun c => negb (cls c)) (collapse cls u b l) =
  List.filter (fun c => negb (cls c)) l.
Proof.
  intros Hu. revert b. induction l as [|c tl IH]; intros b; [reflexivity|].
  simpl. destruct (cls c) eqn:Hc; simpl.
  - destruct b; simpl; rewrite ?Hu; simpl; apply IH.
  - rewrite Hc. simpl. now rewrite IH.
Qed.

Lemma filter_repeat_underscore (k : nat) :
  List.filter notUnderscore (repeat "_"%char k) = [].
Proof. induction k; [reflexivity|]. simpl. exact IHk. Qed.

Lemma filter_Trim (t : list byte) :
  List.filter notUnderscore (Trim t "_") = List.filter notUnderscore t.
Proof.
  destruct (Trim_split "_" t) as (k1 & k2 & Ht). rewrite Ht at 2.
  rewrite !List.filter_app, !filter_repeat_underscore, app_nil_r. reflexivity.
Qed.

Lemma substByte_class (r : rune) :
  negb (spaceUnderscoreClass (substByte r)) = isWordRune r.
Proof.
  unfold substByte, isWordRune. destruct (isValidChar r) eqn:Hv; [|reflexivity].
  pose proof (isValidChar_ascii _ Hv) as Hr.
  unfold spaceUnderscoreClass. rewrite byteVal_toByte by lia. unfold_lits.
  simpl andb.
  destruct (Z.eqb_spec r 95), (Z.eqb_spec r 32), (Z.eqb_spec r 9), (Z.eqb_spec r 10),
    (Z.eqb_spec r 12), (Z.eqb_spec r 13); try lia; reflexivity.
Qed.

Lemma filter_substByte (rs : list rune) :
  List.filter (fun c => negb (spaceUnderscoreClass c)) (map substByte rs) =
  map toByte (List.filter isWordRune rs).
Proof.
  induction rs as [|r rs IH]; [reflexivity|].
  simpl. rewrite substByte_class. destruct (isWordRune r) eqn:Hw; [|exact IH].
  simpl. rewrite IH. f_equal. unfold substByte.
  unfold isWordRune in Hw. destruct (isValidChar r); [reflexivity | discriminate].
Qed.

(** The key without its underscores. *)
Lemma sanitized_letters (gameName : string) :
  List.filter notUnderscore (list_ascii_of_string (sanitizeFilename gameName)) =
  map toByte (List.filter isWordRune (Utf8.rangeRunes gameName)).
Proof.
  rewrite sanitizeFilename_bytes. unfold sanitizedBytes.
  rewrite filter_Trim, ReplaceAllString_collapse.
  rewrite <- filter_substByte, <- sanitizeLoop_map.
  rewrite <- (filter_collapse spaceUnderscoreClass "_" false) by reflexivity.
  apply List.filter_ext_in. intros c Hc.
  destruct (collapse_shape spaceUnderscoreClass "_" spaceUnderscoreClass_underscore
              (sanitizeLoop gameName) false) as (HF & _ & _).
  apply (Forall_In _ _ _ HF) in Hc. unfold notUnderscore.
  destruct Hc as [->|[Hc _]]; [reflexivity|]. rewrite Hc.
  destruct (Ascii.eqb_spec c "_") as [->|]; [discriminate | reflexivity].
Qed.

(** X1. The letters, digits and hyphens of the key are those of the
    name, all of them and in the same order: between them the key has
    underscores and nothing else.  So the key is empty exactly when
    the name has no ASCII letter, digit or hyphen. *)
Theorem sanitizeFilename_letters (gameName : string) :
  List.filter notUnderscore (list_ascii_of_string (sanitizeFilename gameName)) =
    map toByte (List.filter isWordRune (Utf8.rangeRunes gameName)) /\
  (sanitizeFilename gameName = "" <->
   List.filter isWordRune (Utf8.rangeRunes gameName) = []).
Proof.
  pose proof (sanitized_letters gameName) as Hk.
  split; [exact Hk|]. split.
  - intros He. rewrite He in Hk. simpl in Hk. symmetry in Hk.
    now apply map_eq_nil in Hk.
  - intros He. rewrite He in Hk. simpl in Hk.
    rewrite sanitizeFilename_bytes in Hk.
    destruct (sanitizedBytes_shape gameName) as [_ _ Hh _].
    assert (Hb : sanitizedBytes gameName = []).
    { destruct (sanitizedBytes gameName) as [|c tl]; [reflexivity|].
      simpl in Hk, Hh. unfold notUnderscore in Hk at 1.
      destruct (Ascii.eqb_spec c "_") as [->|]; [congruence | discriminate]. }
    unfold sanitizeFilename. fold (sanitizedBytes gameName). now rewrite Hb.
Qed.

Lemma rangeFrom_length (bs : list byte) (skip : nat) :
  (length (Utf8.rangeFrom skip bs) <= length bs)%nat.
Proof.
  revert skip. induction bs as [|b tl IH]; intros skip; [simpl; lia|].
  cbn [Utf8.rangeFrom]. destruct skip as [|k].
  - destruct (Utf8.nextRune (b :: tl)) as [r w]. simpl. specialize (IH (Nat.pred w)). lia.
  - specialize (IH k). simpl. lia.
Qed.

Lemma collapse_length (cls : byte -> bool) (u : byte) (b : bool) (l : list byte) :
  (length (collapse cls u b l) <= length l)%nat.
Proof.
  revert b. induction l as [|c tl IH]; intros b; [simpl; lia|].
  simpl. destruct (cls c); [destruct b|]; simpl;
    [specialize (IH true) | specialize (IH true) | specialize (IH false)]; lia.
Qed.

Lemma Trim_length (t : list byte) (c : byte) : (length (Trim t c) <= length t)%nat.
Proof.
  destruct (Trim_split c t) as (k1 & k2 & Ht). rewrite Ht at 2.
  rewrite !length_app. lia.
Qed.

Lemma string_length_list (s : string) : String.length s = length (list_ascii_of_string s).
Proof. induction s; [reflexivity|]. simpl. now rewrite IHs. Qed.

(** X2. The key is never longer than the name, in bytes. *)
Theorem sanitizeFilename_length (gameName : string) :
  (String.length (sanitizeFilename gameName) <= String.length gameName)%nat.
Proof.
  rewrite !string_length_list, sanitizeFilename_bytes. unfold sanitizedBytes.
  rewrite ReplaceAllString_collapse, sanitizeLoop_map.
  pose proof (Trim_length (collapse spaceUnderscoreClass "_" false
                             (map substByte (Utf8.rangeRunes gameName))) "_").
  pose proof (collapse_length spaceUnderscoreClass "_" false
                (map substByte (Utf8.rangeRunes gameName))).
  pose proof (rangeFrom_length (list_ascii_of_string gameName) 0).
  rewrite length_map in *. unfold Utf8.rangeRunes in *. lia.
Qed.

Section WordsOf.
Variable cls : byte -> bool.
Variable u : byte.
Hypothesis cls_u : cls u = true.

Lemma words_cons_sep (c : byte) (l : list byte) :
  cls c = true -> words cls (c :: l) = words cls l.
Proof.
  intros Hc. unfold words. simpl. destruct (wordsFrom cls l) as [w ws].
  now rewrite Hc.
Qed.

Lemma wordsFrom_collapse (l : list byte) :
  wordsFrom cls (collapse cls u false l) = wordsFrom cls l /\
  words cls (collapse cls u true l) = words cls l.
Proof.
  induction l as [|c tl [IH0 IH1]]; [split; reflexivity|].
  simpl collapse. destruct (cls c) eqn:Hc.
  - split.
    + simpl. rewrite cls_u, Hc. unfold words in IH1.
      destruct (wordsFrom cls (collapse cls u true tl)) as [w1 ws1].
      destruct (wordsFrom cls tl) as [w2 ws2]. now rewrite IH1.
    + now rewrite IH1, (words_cons_sep c).
  - split.
    + simpl. now rewrite IH0, Hc.
    + unfold words. simpl. now rewrite IH0, Hc.
Qed.

Lemma wordsFrom_snoc_sep (l : list byte) :
  wordsFrom cls (l ++ [u]) = wordsFrom cls l.
Proof.
  induction l as [|c tl IH]; simpl; [now rewrite cls_u|]. now rewrite IH.
Qed.

Lemma words_repeat_l (k : nat) (l : list byte) :
  words cls (repeat u k ++ l) = words cls l.
Proof. induction k; [reflexivity|]. simpl. now rewrite words_cons_sep. Qed.

Lemma words_repeat_r (k : nat) (l : list byte) :
  words cls (l ++ repeat u k) = words cls l.
Proof.
  induction k as [|k IH]; [now rewrite app_nil_r|].
  replace (repeat u (S k)) with (repeat u k ++ [u])
    by (change [u] with (repeat u 1); rewrite <- repeat_app; f_equal; lia).
  rewrite app_assoc. unfold words. rewrite wordsFrom_snoc_sep. exact IH.
Qed.
End WordsOf.

Lemma words_sanitized (gameName : string) :
  words spaceUnderscoreClass (sanitizedBytes gameName) =
  words spaceUnderscoreClass (sanitizeLoop gameName).
Proof.
  unfold sanitizedBytes. rewrite ReplaceAllString_collapse.
  destruct (wordsFrom_collapse spaceUnderscoreClass "_" spaceUnderscoreClass_underscore
              (sanitizeLoop gameName)) as [H0 _].
  set (m := collapse spaceUnderscoreClass "_" false (sanitizeLoop gameName)) in *.
  destruct (Trim_split "_" m) as (k1 & k2 & Hm).
  transitivity (words spaceUnderscoreClass m); [|unfold words; now rewrite H0].
  rewrite Hm at 2.
  rewrite (words_repeat_l spaceUnderscoreClass "_" spaceUnderscoreClass_underscore).
  now rewrite (words_repeat_r spaceUnderscoreClass "_" spaceUnderscoreClass_underscore).
Qed.


Lemma wordsFrom_head (cls : byte -> bool) (c : byte) (l : list byte) :
  cls c = false -> fst (wordsFrom cls (c :: l)) <> [].
Proof.
  intros Hc. simpl. destruct (wordsFrom cls l). rewrite Hc. discriminate.
Qed.

Lemma keyShape_wordsFrom (k : list byte) :
  Forall keyByte k -> adjFree (fun c => c = "_"%char) k -> last k <> Some "_"%char ->
  k = fst (wordsFrom spaceUnderscoreClass k) ++
      match snd (wordsFrom spaceUnderscoreClass k) with
      | [] => []
      | ws => "_"%char :: joinWords "_"%char ws
      end.
Proof.
  induction k as [|c tl IH]; intros HF HA Hl; [reflexivity|].
  inversion HF as [|? ? Hc HF']; subst. destruct HA as [Hadj HA'].
  assert (Hl' : tl <> [] -> last tl <> Some "_"%char).
  { intros Hne. destruct tl; [congruence | exact Hl]. }
  destruct (spaceUnderscoreClass c) eqn:Hcls.
  - apply keyByte_class in Hcls; [|assumption]. subst c.
    destruct tl as [|x tl']; [contradiction Hl; reflexivity|].
    specialize (IH HF' HA' (Hl' ltac:(discriminate))).
    assert (Hx : spaceUnderscoreClass x = false).
    { destruct (spaceUnderscoreClass x) eqn:E; [|reflexivity].
      inversion HF' as [|? ? Hkx _]; subst.
      apply keyByte_class in E; [|assumption]. subst x. contradiction Hadj. now split. }
    pose proof (wordsFrom_head spaceUnderscoreClass x tl' Hx) as Hw.
    remember (x :: tl') as t eqn:Ht. clear Ht.
    cbn [wordsFrom]. rewrite spaceUnderscoreClass_underscore.
    destruct (wordsFrom spaceUnderscoreClass t) as [w ws] eqn:Hwf.
    simpl in Hw, IH |- *. destruct w as [|y w']; [congruence|].
    simpl. f_equal. rewrite IH at 1. destruct ws; simpl; [now rewrite app_nil_r | reflexivity].
  - cbn [wordsFrom].
    destruct (wordsFrom spaceUnderscoreClass tl) as [w ws] eqn:Hwf.
    rewrite Hcls. simpl. f_equal.
    destruct tl as [|x tl'].
    + simpl in Hwf. injection Hwf as <- <-. reflexivity.
    + apply (IH HF' HA' (Hl' ltac:(discriminate))).
Qed.

Lemma keyShape_join (k : list byte) :
  keyShape k -> k = joinWords "_"%char (words spaceUnderscoreClass k).
Proof.
  intros [HF HA Hh Hl].
  pose proof (keyShape_wordsFrom k HF HA Hl) as Hk.
  unfold words. destruct (wordsFrom spaceUnderscoreClass k) as [w ws] eqn:Hwf.
  simpl in Hk. destruct w as [|y w'].
  - destruct k as [|c tl]; [simpl in Hwf; now injection Hwf as <-|].
    exfalso. inversion HF as [|? ? Hc _]; subst.
    destruct (spaceUnderscoreClass c) eqn:Hcls.
    + apply keyByte_class in Hcls; [|assumption]. subst c. contradiction Hh. reflexivity.
    + pose proof (wordsFrom_head spaceUnderscoreClass c tl Hcls) as Hw.
      rewrite Hwf in Hw. now contradiction Hw.
  - simpl. rewrite Hk at 1. destruct ws; simpl; [now rewrite app_nil_r | reflexivity].
Qed.

Lemma wordsFrom_map {A B : Type} (f : A -> B) (sepA : A -> bool) (sepB : B -> bool)
      (l : list A) :
  (forall x, sepB (f x) = sepA x) ->
  wordsFrom sepB (map f l) =
  (map f (fst (wordsFrom sepA l)), map (map f) (snd (wordsFrom sepA l))).
Proof.
  intros Hsep. induction l as [|c tl IH]; [reflexivity|].
  simpl. rewrite IH, Hsep. destruct (wordsFrom sepA tl) as [w ws]. simpl.
  destruct (sepA c); [|reflexivity]. now destruct w.
Qed.

Lemma words_map {A B : Type} (f : A -> B) (sepA : A -> bool) (sepB : B -> bool)
      (l : list A) :
  (forall x, sepB (f x) = sepA x) ->
  words sepB (map f l) = map (map f) (words sepA l).
Proof.
  intros Hsep. unfold words. rewrite (wordsFrom_map f sepA sepB l Hsep).
  destruct (wordsFrom sepA l) as [w ws]. simpl. now destruct w.
Qed.

Lemma wordsFrom_nonsep {A : Type} (sep : A -> bool) (l : list A) :
  Forall (fun x => sep x = false) (fst (wordsFrom sep l)) /\
  Forall (Forall (fun x => sep x = false)) (snd (wordsFrom sep l)).
Proof.
  induction l as [|c tl [IHw IHws]]; [split; constructor|].
  simpl. destruct (wordsFrom sep tl) as [w ws]. simpl in *.
  destruct (sep c) eqn:Hc; simpl.
  - split; [constructor|]. destruct w; [assumption | now constructor].
  - split; [now constructor | assumption].
Qed.

Lemma words_nonsep {A : Type} (sep : A -> bool) (l : list A) :
  Forall (Forall (fun x => sep x = false)) (words sep l).
Proof.
  unfold words. destruct (wordsFrom_nonsep sep l) as [Hw Hws].
  destruct (wordsFrom sep l) as [w ws]. simpl in *.
  destruct w; [assumption | now constructor].
Qed.

Lemma joinWords_map {A B : Type} (f : A -> B) (u : A) (ws : list (list A)) :
  map f (joinWords u ws) = joinWords (f u) (map (map f) ws).
Proof.
  induction ws as [|w rest IH]; [reflexivity|].
  destruct rest as [|w' rest']; [reflexivity|].
  change (joinWords u (w :: w' :: rest')) with (w ++ u :: joinWords u (w' :: rest')).
  rewrite map_app, map_cons, IH. reflexivity.
Qed.

Lemma substByte_sep (r : rune) :
  spaceUnderscoreClass (substByte r) = negb (isWordRune r).
Proof. rewrite <- substByte_class. now rewrite negb_involutive. Qed.

Lemma isWordRune_toByte (r : rune) : isWordRune r = true -> substByte r = toByte r.
Proof.
  unfold isWordRune, substByte. destruct (isValidChar r); [reflexivity | discriminate].
Qed.

Lemma words_loop (gameName : string) :
  words spaceUnderscoreClass (sanitizeLoop gameName) =
  map (map toByte) (nameWords gameName).
Proof.
  rewrite sanitizeLoop_map.
  rewrite (words_map substByte (fun r => negb (isWordRune r)) spaceUnderscoreClass)
    by apply substByte_sep.
  unfold nameWords.
  pose proof (words_nonsep (fun r => negb (isWordRune r)) (Utf8.rangeRunes gameName)) as Hw.
  induction Hw as [|w ws Hw _ IH]; [reflexivity|].
  simpl. rewrite IH. f_equal. apply map_ext_in. intros r Hr.
  apply isWordRune_toByte. apply (Forall_In _ _ _ Hw) in Hr.
  now apply negb_false_iff in Hr.
Qed.

(** The key is the words of the name with one underscore between two
    of them. *)
Lemma sanitized_words (gameName : string) :
  list_ascii_of_string (sanitizeFilename gameName) =
  map toByte (joinWords (runeLit "_") (nameWords gameName)).
Proof.
  rewrite sanitizeFilename_bytes.
  rewrite (keyShape_join _ (sanitizedBytes_shape gameName)).
  rewrite words_sanitized, words_loop. now rewrite joinWords_map.
Qed.

Lemma toByte_words_inj (ws1 ws2 : list (list rune)) :
  Forall (Forall (fun r => isWordRune r = true)) ws1 ->
  Forall (Forall (fun r => isWordRune r = true)) ws2 ->
  map (map toByte) ws1 = map (map toByte) ws2 -> ws1 = ws2.
Proof.
  assert (Hbyte : forall r, isWordRune r = true -> byteVal (toByte r) = r).
  { intros r Hr. apply isValidChar_byte. unfold isWordRune in Hr.
    destruct (isValidChar r); [reflexivity | discriminate]. }
  assert (Hword : forall w1 w2 : list rune,
             Forall (fun r => isWordRune r = true) w1 ->
             Forall (fun r => isWordRune r = true) w2 ->
             map toByte w1 = map toByte w2 -> w1 = w2).
  { intros w1 w2 H1. revert w2. induction H1 as [|r w1 Hr _ IH]; intros w2 H2 He.
    - destruct w2; [reflexivity | discriminate].
    - destruct H2 as [|r' w2 Hr' H2]; [discriminate|].
      simpl in He. injection He as Hrr He. f_equal; [|now apply IH].
      rewrite <- (Hbyte r Hr), <- (Hbyte r' Hr'). now rewrite Hrr. }
  intros H1. revert ws2. induction H1 as [|w ws1 Hw _ IH]; intros ws2 H2 He.
  - destruct ws2; [reflexivity | discriminate].
  - destruct H2 as [|w' ws2 Hw' H2]; [discriminate|].
    simpl in He. injection He as Hww He. f_equal; [now apply Hword | now apply IH].
Qed.

Lemma nameWords_word (gameName : string) :
  Forall (Forall (fun r => isWordRune r = true)) (nameWords gameName).
Proof.
  unfold nameWords.
  pose proof (words_nonsep (fun r => negb (isWordRune r)) (Utf8.rangeRunes gameName)) as Hw.
  eapply Forall_impl; [exact Hw|]. intros w Hf.
  eapply Forall_impl; [exact Hf|]. intros r Hr. now apply negb_false_iff in Hr.
Qed.

(** X3. The key is the words of the name (its maximal runs of ASCII
    letters, digits and hyphens) with one underscore between two of
    them; so two names get the same key, and the same file, exactly
    when they have the same words. *)
Theorem sanitizeFilename_words (a b : string) :
  list_ascii_of_string (sanitizeFilename a) =
    map toByte (joinWords (runeLit "_") (nameWords a)) /\
  (sanitizeFilename a = sanitizeFilename b <-> nameWords a = nameWords b).
Proof.
  split; [apply sanitized_words|]. split.
  - intros He. apply toByte_words_inj; try apply nameWords_word.
    rewrite <- !words_loop, <- !words_sanitized, <- !sanitizeFilename_bytes.
    now rewrite He.
  - intros He.
    rewrite <- (string_of_list_ascii_of_string (sanitizeFilename a)).
    rewrite <- (string_of_list_ascii_of_string (sanitizeFilename b)).
    now rewrite !sanitized_words, He.
Qed.

Example collision_examples :
  sanitizeFilename "Half-Life 2" = sanitizeFilename "Half-Life: 2!" /\
  sanitizeFilename "Portal 2" <> sanitizeFilename " portal_2 ".
Proof. vm_compute. split; [reflexivity | discriminate]. Qed.
(** ** [fmt]: the records and the scanner *)

Import Fmt Scan.

(** X4. What [Sprintf("%d")] writes for a 64-bit integer, [Sscanf("%d")]
    reads back as the same integer, alone or followed by text that
    does not start with a digit (a newline at the end of the file,
    say, or an underscore). *)
Theorem Sscanf_Sprintf (n : Z) (rest : string) :
  - 2 ^ 63 <= n < 2 ^ 63 -> endsNumber rest = true ->
  Sscanf_d (Sprintf_d n +:+ rest) = Some n.
Proof.
  intros Hn Hrest. apply scan_Sprintf; [exact Hn | now apply endsNumber_stops].
Qed.

Lemma Sscanf_Sprintf_witness :
  Sscanf_d (Sprintf_d (-620980) +:+ String "010" "") = Some (-620980).
Proof. apply Sscanf_Sprintf; [lia | reflexivity]. Defined.

(** What [Sscanf("%d")] reads: spaces in front are skipped, a newline
    is not; a sign is taken; the digits are 0 to 9, and the first
    rune that is not one of them ends the number, with whatever
    follows; the number is a 64-bit integer. *)
Example Sscanf_d_values :
  Sscanf_d "400" = Some 400 /\
  Sscanf_d "400_" = Some 400 /\
  Sscanf_d "1_000" = Some 1 /\
  Sscanf_d "7_" = Some 7 /\
  Sscanf_d "0_" = Some 0 /\
  Sscanf_d "+12_3" = Some 12 /\
  Sscanf_d "-5" = Some (-5) /\
  Sscanf_d "007" = Some 7 /\
  Sscanf_d "  42" = Some 42 /\
  Sscanf_d "12abc" = Some 12 /\
  Sscanf_d "0x1F" = Some 0 /\
  Sscanf_d "4e2" = Some 4 /\
  Sscanf_d (String "052" (String "048" (String "048" (String "010" ""))))
    = Some 400 /\
  Sscanf_d (String "010" "400") = None /\
  Sscanf_d "" = None /\
  Sscanf_d "   " = None /\
  Sscanf_d "abc" = None /\
  Sscanf_d "_1" = None /\
  Sscanf_d "-" = None /\
  Sscanf_d "+-1" = None /\
  Sscanf_d "- 1" = None.
Proof. vm_compute. repeat split. Qed.

Example Sscanf_d_out_of_range :
  Sscanf_d "9223372036854775807" = Some 9223372036854775807 /\
  Sscanf_d "9223372036854775808" = None /\
  Sscanf_d "-9223372036854775808" = Some (-9223372036854775808) /\
  Sscanf_d "-9223372036854775809" = None /\
  Sscanf_d "18446744073709552016" = None /\
  Sscanf_d "18446744073709552016_" = None.
Proof. vm_compute. repeat split. Qed.

(** X29. [Sscanf("%d")] reads 64-bit integers and nothing else: an
    integer it reads is in the range of [int64]; the decimal text of a
    number outside that range is not read at all (it is not reduced
    modulo 2^64), whatever follows it; and when the stored record
    holds such text, a run with [shouldSkipExisting] takes it for a
    cache miss: what follows the probe is a run without
    [shouldSkipExisting], which queries the API. *)
Theorem Sscanf_d_range `{GoLib} :
  (forall (str : string) (n : Z), Sscanf_d str = Some n -> - 2 ^ 63 <= n < 2 ^ 63) /\
  (forall (n : Z) (rest : string),
      n < - 2 ^ 63 \/ 2 ^ 63 <= n -> Sscanf_d (Sprintf_d n +:+ rest) = None) /\
  (forall (gameName outputDirectory : string) (verbose : bool)
          (t : list Call) (result : Processor.GameResult) (n : Z) (rest : string),
      let path := Processor.steamFilePath gameName outputDirectory in
      n < - 2 ^ 63 \/ 2 ^ 63 <= n ->
      exec (Processor.processSingleGame gameName outputDirectory true verbose) t result ->
      In (CStat path None) t ->
      In (CReadFile path (Ok (Sprintf_d n +:+ rest))) t ->
      exists tProbe tRest : list Call,
        t = tProbe ++ tRest /\
        Forall (fun c => isHttpGet c = false) tProbe /\
        exec (Processor.processSingleGame gameName outputDirectory false verbose)
             tRest result /\
        (gameName <> "" -> Exists (fun c => isHttpGet c = true) tRest)).
Proof.
  split; [|split].
  - intros str n. unfold Sscanf_d, scanInt.
    destruct (SkipSpace (Utf8.rangeRunes str) 0) as [[input count]|]; [|discriminate].
    destruct (SkipSpace input count) as [[input' count']|]; [|discriminate].
    destruct (atEOF input' count'); [discriminate|].
    destruct (accept sign input' count') as [[signTok input''] count''].
    destruct (atEOF input'' count''); [discriminate|].
    destruct (acceptAll decimalDigits input'' count'') as [|r number]; [discriminate|].
    apply ParseInt_range.
  - exact scan_out_of_range.
  - intros gameName outputDirectory verbose t result n rest path Hn Hex Hstat Hread.
    pose proof (skipExisting_read gameName outputDirectory verbose t result
                  (Sprintf_d n +:+ rest) Hex Hstat Hread) as Hcases.
    cbv zeta in Hcases. rewrite (scan_out_of_range n rest Hn) in Hcases. exact Hcases.
Qed.

(** A record that holds 2^63: the run with [shouldSkipExisting] asks
    the API and overwrites it. *)
Example Sscanf_d_range_miss :
  let out := runPortal (cachedWorld (Sprintf_d (2 ^ 63) +:+ "")) true false in
  Sprintf_d (2 ^ 63) = "9223372036854775808" /\
  fst (fst out) = successResult "Portal" 400 /\
  length (List.filter isHttpGet (snd out)) = 1%nat /\
  files (snd (fst out)) !! "output/Portal.steam" = Some "400".
Proof. vm_compute. repeat split. Qed.

(** ** [findSteamGameID]: one request, and its errors *)

Import Trace Worlds.

Lemma filter_logOnly (l : list Call) : logOnly l -> List.filter notLog l = [].
Proof.
  induction 1 as [|c l Hc _ IH]; [reflexivity|].
  simpl. unfold notLog at 1. now rewrite Hc.
Qed.

Section ResolverExtras.
Context `{GoLib}.
Import Resolver.

(** Without [verbose], a name that is not empty costs exactly the
    request, and the answer decides what is returned. *)
Lemma findSteamGameID_quiet (gameName : string) (got : Result Response) :
  gameName <> "" ->
  exec (findSteamGameID gameName false)
       [CHttpGet (requestURL gameName) got] (resolveOutcome got).
Proof.
  intros Hne. unfold findSteamGameID.
  destruct (String.eqb_spec gameName ""); [contradiction|].
  simpl. apply (exec_Vis _ (HttpGet (requestURL gameName)) _ got).
  unfold resolveOutcome. destruct got as [httpResponse|err]; simpl; [|constructor].
  destruct (negb (StatusCode httpResponse =? StatusOK)); simpl; [constructor|].
  destruct (Body httpResponse) as [body|err]; simpl; [|constructor].
  destruct (json_Unmarshal body) as [apiResponse|err]; simpl; [|constructor].
  destruct (Items apiResponse); simpl; constructor.
Qed.

(** X5. [findSteamGameID] is single shot: for the empty name it makes
    no call at all and returns the error "empty game name"; for any
    other name, log lines apart, its calls are exactly one GET of the
    search URL of that name: no second request, whatever the answer,
    and no file is touched. *)
Theorem findSteamGameID_single_shot (gameName : string) (verbose : bool)
        (t : list Call) (result : Z * option error) :
  exec (findSteamGameID gameName verbose) t result ->
  (gameName = "" -> t = [] /\ result = (0, Some errEmptyName)) /\
  (gameName <> "" ->
   exists got : Result Response,
     List.filter notLog t = [CHttpGet (requestURL gameName) got]).
Proof.
  intros Hex.
  apply findSteamGameID_exec in Hex
    as [(-> & -> & ->)|(Hne & l1 & got & l2 & -> & H1 & H2 & _)].
  - split; [auto | congruence].
  - split; [congruence|]. intros _. exists got.
    rewrite List.filter_app. simpl.
    now rewrite (filter_logOnly l1), (filter_logOnly l2).
Qed.

(** X6. The errors of [findSteamGameID]: whenever it returns an error
    the identifier returned is 0; an error of the request is returned
    as it is; a status other than 200 gives "HTTP error: <code>",
    whatever the body; an error reading the body, or decoding it, is
    returned as it is. *)
Theorem findSteamGameID_errors (gameName : string) (verbose : bool)
        (t : list Call) (result : Z * option error) :
  exec (findSteamGameID gameName verbose) t result ->
  (snd result <> None -> fst result = 0) /\
  (forall url err, In (CHttpGet url (Err err)) t -> result = (0, Some err)) /\
  (forall url httpResponse,
      In (CHttpGet url (Ok httpResponse)) t ->
      StatusCode httpResponse <> 200 ->
      result = (0, Some (errHTTP (StatusCode httpResponse)))) /\
  (forall url err,
      In (CHttpGet url (Ok {| StatusCode := 200; Body := Err err |})) t ->
      result = (0, Some err)) /\
  (forall url body err,
      In (CHttpGet url (Ok {| StatusCode := 200; Body := Ok body |})) t ->
      json_Unmarshal body = Err err ->
      result = (0, Some err)).
Proof.
  intros Hex.
  apply findSteamGameID_exec in Hex
    as [(_ & -> & ->)|(_ & l1 & got & l2 & -> & H1 & H2 & ->)].
  { repeat split; try (intros; contradiction). }
  assert (Hin : forall url got', In (CHttpGet url got') (l1 ++ CHttpGet (requestURL gameName) got :: l2) ->
                                 got' = got).
  { intros url got' Hin. apply in_app_or in Hin as [Hin|[Hin|Hin]].
    - apply (logOnly_In _ _ H1) in Hin. discriminate.
    - now injection Hin.
    - apply (logOnly_In _ _ H2) in Hin. discriminate. }
  repeat split.
  - unfold resolveOutcome. destruct got as [httpResponse|err]; simpl; [|reflexivity].
    destruct (negb (StatusCode httpResponse =? StatusOK)); [reflexivity|].
    destruct (Body httpResponse); [|reflexivity].
    destruct (json_Unmarshal a); [|reflexivity].
    destruct (Items a0); [reflexivity|]. simpl. congruence.
  - intros url err Hi. apply Hin in Hi as <-. reflexivity.
  - intros url httpResponse Hi Hs. apply Hin in Hi as <-. unfold resolveOutcome.
    unfold StatusOK. destruct (Z.eqb_spec (StatusCode httpResponse) 200); [contradiction|].
    reflexivity.
  - intros url err Hi. apply Hin in Hi as <-. reflexivity.
  - intros url body err Hi Hj. apply Hin in Hi as <-. unfold resolveOutcome. simpl.
    now rewrite Hj.
Qed.

(** Without its log lines, a verbose run of [findSteamGameID] is a
    run of the quiet one, with the same result. *)
Lemma findSteamGameID_filter (gameName : string)
        (t : list Call) (result : Z * option error) :
  exec (findSteamGameID gameName true) t result ->
  exec (findSteamGameID gameName false) (List.filter notLog t) result.
Proof.
  intros Hex.
  apply findSteamGameID_exec in Hex
    as [(-> & -> & ->)|(Hne & l1 & got & l2 & -> & H1 & H2 & ->)].
  - simpl. constructor.
  - rewrite List.filter_app. simpl.
    rewrite (filter_logOnly l1), (filter_logOnly l2) by assumption.
    now apply findSteamGameID_quiet.
Qed.
End ResolverExtras.

Lemma findSteamGameID_single_shot_witness :
  exists got : Result Response,
    List.filter notLog (snd (runResolver emptyWorld true)) =
    [CHttpGet (Resolver.requestURL "Portal") got].
Proof.
  apply (proj2 (findSteamGameID_single_shot (H := exampleLib) "Portal" true
                  (snd (runResolver emptyWorld true))
                  (fst (fst (runResolver emptyWorld true)))
                  (run_exec handler _ emptyWorld))).
  discriminate.
Defined.

Lemma findSteamGameID_errors_witness :
  fst (fst (runResolver unavailableWorld false)) = (0, Some (Resolver.errHTTP 503)).
Proof.
  apply (proj1 (proj2 (proj2 (findSteamGameID_errors (H := exampleLib) "Portal" false
                                (snd (runResolver unavailableWorld false))
                                (fst (fst (runResolver unavailableWorld false)))
                                (run_exec handler _ unavailableWorld))))
               (Resolver.requestURL "Portal")
               {| StatusCode := 503; Body := Ok "Service Unavailable" |}).
  - vm_compute. left. reflexivity.
  - simpl. lia.
Defined.


(** ** [processSingleGame]: its calls, its result and the record *)

Section ProcessorExtras.
Context `{GoLib}.
Import Resolver.

(** Log lines are written in verbose mode only. *)
Lemma findSteamGameID_quiet_exec (gameName : string) (t : list Call)
      (result : Z * option error) :
  exec (findSteamGameID gameName false) t result -> Forall (fun c => isStderr c = false) t.
Proof.
  unfold findSteamGameID. intros Hex.
  destruct (String.eqb gameName ""); [inv_exec; constructor|].
  simpl in Hex. apply exec_inv in Hex as (got & t1 & -> & Hex). simpl in Hex.
  constructor; [reflexivity|].
  destruct got as [httpResponse|err]; simpl in Hex; [|inv_exec; constructor].
  destruct (negb (StatusCode httpResponse =? StatusOK)); simpl in Hex; [inv_exec; constructor|].
  destruct (Body httpResponse) as [body|err]; simpl in Hex; [|inv_exec; constructor].
  destruct (json_Unmarshal body) as [apiResponse|err]; simpl in Hex; [|inv_exec; constructor].
  destruct (Items apiResponse); simpl in Hex; inv_exec; constructor.
Qed.

Lemma skipExisting_quiet_exec (gameName path : string) (t : list Call)
      (early : option GameResult) :
  exec (skipExisting gameName path false) t early -> Forall (fun c => isStderr c = false) t.
Proof.
  unfold skipExisting. intros Hex.
  apply exec_inv in Hex as (statErr & t1 & -> & Hex). simpl in Hex.
  constructor; [reflexivity|].
  destruct statErr; simpl in Hex; [inv_exec; constructor|].
  apply exec_inv in Hex as (read & t2 & -> & Hex). simpl in Hex.
  constructor; [reflexivity|].
  destruct read as [content|err]; [destruct (Fmt.Sscanf_d content)|]; inv_exec; constructor.
Qed.

Lemma skipExisting_quiet (gameName path : string) (statErr : option error)
      (read : Result string) :
  exec (skipExisting gameName path false)
       (match statErr with
        | Some _ => [CStat path statErr]
        | None => [CStat path None; CReadFile path read]
        end)
       (match statErr with
        | Some _ => None
        | None => cachedOutcome gameName read
        end).
Proof.
  unfold skipExisting. destruct statErr as [err|].
  - apply (exec_Vis _ (Stat path) _ (Some err)). constructor.
  - apply (exec_Vis _ (Stat path) _ None). simpl.
    apply (exec_Vis _ (ReadFile path) _ read).
    unfold cachedOutcome, successResult.
    destruct read as [content|err]; [destruct (Fmt.Sscanf_d content)|]; constructor.
Qed.

(** The calls of a run by their kind, and its result. *)
Lemma processSingleGame_cases (gameName outputDirectory : string)
      (shouldSkipExisting verbose : bool) (t : list Call) (result : GameResult) :
  let path := steamFilePath gameName outputDirectory in
  exec (processSingleGame gameName outputDirectory shouldSkipExisting verbose) t result ->
  (exists l content gameID,
      shouldSkipExisting = true /\
      t = CStat path None :: l ++ [CReadFile path (Ok content)] /\
      logOnly l /\ Fmt.Sscanf_d content = Some gameID /\
      result = successResult gameName gameID) \/
  (exists tProbe tFind found tWrite,
      t = tProbe ++ tFind ++ tWrite /\
      missedProbe gameName path shouldSkipExisting tProbe /\
      exec (findSteamGameID gameName verbose) tFind found /\
      writeStep gameName path found tWrite result).
Proof.
  intros path Hex.
  apply processSingleGame_exec in Hex as (tProbe & early & tRest & -> & Hp & Hr).
  fold path in Hp, Hr.
  assert (Hq : early = None ->
               missedProbe gameName path shouldSkipExisting tProbe ->
               exists tP tFind found tWrite,
                 tProbe ++ tRest = tP ++ tFind ++ tWrite /\
                 missedProbe gameName path shouldSkipExisting tP /\
                 exec (findSteamGameID gameName verbose) tFind found /\
                 writeStep gameName path found tWrite result).
  { intros -> HP. apply queryAndWrite_exec in Hr as (t1 & [gameID [err|]] & H1 & Hr).
    - destruct Hr as [-> ->]. exists tProbe, t1, (gameID, Some err), [].
      rewrite app_nil_r. simpl. auto.
    - destruct Hr as (writeErr & -> & ->).
      exists tProbe, t1, (gameID, None), [CWriteFile path (Fmt.Sprintf_d gameID) fileMode writeErr].
      simpl. eauto 6. }
  destruct shouldSkipExisting.
  - apply skipExisting_exec in Hp as [(err & -> & ->)|(l & read & -> & Hl & ->)].
    + right. apply Hq; [reflexivity|]. right. split; [reflexivity|]. left. eauto.
    + destruct (cachedOutcome gameName read) as [r|] eqn:Hc.
      * left. destruct Hr as [-> ->]. unfold cachedOutcome in Hc.
        destruct read as [content|err]; [|discriminate].
        destruct (Fmt.Sscanf_d content) as [gameID|] eqn:Hs; [|discriminate].
        injection Hc as <-. exists l, content, gameID.
        rewrite app_nil_r. auto.
      * right. apply Hq; [reflexivity|].
        right. split; [reflexivity|]. right. exists l, read. auto.
  - destruct Hp as [-> ->]. right. apply Hq; [reflexivity|]. left. auto.
Qed.

Lemma missedProbe_calls (gameName outputDirectory : string)
      (shouldSkipExisting : bool) (tProbe : list Call) :
  missedProbe gameName (steamFilePath gameName outputDirectory) shouldSkipExisting tProbe ->
  Forall noRequestNoWrite tProbe /\
  (forall verbose,
      Forall (fun c => verbose = false -> isStderr c = false) tProbe ->
      Forall (ownCall gameName outputDirectory shouldSkipExisting verbose) tProbe).
Proof.
  intros [[-> ->]|[-> [(err & ->)|(l & read & -> & Hl & _)]]].
  - split; [constructor | intros; constructor].
  - split; [now repeat constructor|]. intros verbose _. now repeat constructor.
  - split.
    + constructor; [now split|]. apply Forall_app. split; [|now repeat constructor].
      eapply Forall_impl; [exact Hl|]. now intros [].
    + intros verbose Hq. inversion Hq as [|? ? _ Hq']; subst.
      apply Forall_app in Hq' as [Hq' _].
      constructor; [now split|]. apply Forall_app. split; [|now repeat constructor].
      unfold logOnly in Hl.
      pose proof (conj Hl Hq') as Hb. rewrite <- Forall_and in Hb.
      eapply Forall_impl; [exact Hb|]. intros [] [H1 H2]; try discriminate.
      simpl. destruct verbose; [reflexivity|]. now specialize (H2 eq_refl).
Qed.

Lemma findSteamGameID_calls (gameName outputDirectory : string)
      (shouldSkipExisting verbose : bool) (t : list Call) (found : Z * option error) :
  exec (findSteamGameID gameName verbose) t found ->
  Forall (ownCall gameName outputDirectory shouldSkipExisting verbose) t.
Proof.
  intros Hex.
  assert (Hq : Forall (fun c => verbose = false -> isStderr c = false) t).
  { destruct verbose.
    - apply Forall_forall. intros; discriminate.
    - apply findSteamGameID_quiet_exec in Hex.
      eapply Forall_impl; [exact Hex|]. auto. }
  apply findSteamGameID_exec in Hex
    as [(_ & -> & _)|(_ & l1 & got & l2 & -> & H1 & H2 & _)]; [constructor|].
  assert (Hl : forall l, logOnly l ->
                         Forall (fun c => verbose = false -> isStderr c = false) l ->
                         Forall (ownCall gameName outputDirectory shouldSkipExisting verbose) l).
  { intros l Hl Hq'. unfold logOnly in Hl.
    pose proof (conj Hl Hq') as Hb. rewrite <- Forall_and in Hb.
    eapply Forall_impl; [exact Hb|]. intros [] [Ha Hb']; try discriminate.
    simpl. destruct verbose; [reflexivity|]. now specialize (Hb' eq_refl). }
  apply Forall_app in Hq as [Hq1 Hq2]. inversion Hq2; subst.
  apply Forall_app. split; [auto|]. constructor; [reflexivity | auto].
Qed.

(** X7. Every call of [processSingleGame] is its own: it probes and
    writes no file but the [.steam] file of its name in the output
    directory (the write with mode 0644), probes only with
    [shouldSkipExisting], requests no URL but the search URL of its
    name, and writes to standard error only in verbose mode. *)
Theorem processSingleGame_own_calls (gameName outputDirectory : string)
        (shouldSkipExisting verbose : bool) (t : list Call) (result : GameResult) :
  exec (processSingleGame gameName outputDirectory shouldSkipExisting verbose) t result ->
  Forall (ownCall gameName outputDirectory shouldSkipExisting verbose) t.
Proof.
  intros Hex.
  assert (Hq : Forall (fun c => verbose = false -> isStderr c = false) t).
  { destruct verbose; [apply Forall_forall; intros; discriminate|].
    apply processSingleGame_exec in Hex as (tProbe & early & tRest & -> & Hp & Hr).
    apply Forall_app. split.
    - destruct shouldSkipExisting; [|destruct Hp as [-> _]; constructor].
      apply skipExisting_quiet_exec in Hp. eapply Forall_impl; [exact Hp|]. auto.
    - destruct early; [destruct Hr as [-> _]; constructor|].
      apply queryAndWrite_exec in Hr as (t1 & [gameID [err|]] & H1 & Hr);
        apply findSteamGameID_quiet_exec in H1.
      + destruct Hr as [-> _]. eapply Forall_impl; [exact H1|]. auto.
      + destruct Hr as (writeErr & -> & _). apply Forall_app. split.
        * eapply Forall_impl; [exact H1|]. auto.
        * now repeat constructor. }
  apply processSingleGame_cases in Hex
    as [(l & content & gameID & -> & -> & Hl & _)
       |(tProbe & tFind & found & tWrite & -> & Hp & Hf & Hw)].
  - inversion Hq as [|? ? _ Hq']; subst. apply Forall_app in Hq' as [Hq' _].
    constructor; [now split|]. apply Forall_app. split; [|now repeat constructor].
    unfold logOnly in Hl.
    pose proof (conj Hl Hq') as Hb. rewrite <- Forall_and in Hb.
    eapply Forall_impl; [exact Hb|]. intros [] [H1 H2]; try discriminate.
    simpl. destruct verbose; [reflexivity|]. now specialize (H2 eq_refl).
  - apply Forall_app in Hq as [Hq1 Hq2].
    apply Forall_app. split; [now apply missedProbe_calls|].
    apply Forall_app. split; [eapply findSteamGameID_calls; eassumption|].
    destruct found as [gameID [err|]]; simpl in Hw.
    + destruct Hw as [-> _]. constructor.
    + destruct Hw as (writeErr & -> & _). now repeat constructor.
Qed.


Lemma findSteamGameID_error_zero (gameName : string) (verbose : bool) (t : list Call)
      (gameID : Z) (err : error) :
  exec (findSteamGameID gameName verbose) t (gameID, Some err) -> gameID = 0.
Proof.
  intros Hex.
  apply findSteamGameID_exec in Hex as [(_ & _ & Hr)|(_ & l1 & got & l2 & _ & _ & _ & Hr)].
  - congruence.
  - revert Hr. unfold resolveOutcome.
    destruct got as [httpResponse|e]; [|congruence].
    destruct (negb (StatusCode httpResponse =? StatusOK)); [congruence|].
    destruct (Body httpResponse) as [body|e]; [|congruence].
    destruct (json_Unmarshal body) as [apiResponse|e]; [|congruence].
    destruct (Items apiResponse); congruence.
Qed.

(** The two shapes of a result. *)
Lemma result_shape (gameName outputDirectory : string)
      (shouldSkipExisting verbose : bool) (t : list Call) (result : GameResult) :
  exec (processSingleGame gameName outputDirectory shouldSkipExisting verbose) t result ->
  result = successResult gameName (GameID result) \/
  exists err, result = failureResult gameName err.
Proof.
  intros Hex.
  apply processSingleGame_cases in Hex
    as [(l & content & gameID & _ & _ & _ & _ & ->)
       |(tProbe & tFind & [gameID [err|]] & tWrite & _ & _ & _ & Hw)]; try (simpl in Hw).
  - now left.
  - destruct Hw as [_ ->]. right. eauto.
  - destruct Hw as ([we|] & _ & ->); [right; eauto | now left].
Qed.

(** X8. The fields of a result go together: it carries the name it was
    computed for; it is a success exactly when it has no error; and a
    failure has the identifier 0. *)
Theorem processSingleGame_result_fields (gameName outputDirectory : string)
        (shouldSkipExisting verbose : bool) (t : list Call) (result : GameResult) :
  exec (processSingleGame gameName outputDirectory shouldSkipExisting verbose) t result ->
  GameName result = gameName /\
  (Success result = true <-> Error result = None) /\
  (Success result = false -> GameID result = 0).
Proof.
  intros Hex. apply result_shape in Hex as [->|(err & ->)]; simpl;
    repeat split; auto; discriminate.
Qed.

Lemma findSteamGameID_no_write (gameName : string) (verbose : bool)
      (t : list Call) (found : Z * option error) :
  exec (findSteamGameID gameName verbose) t found ->
  Forall (fun c => isWriteFile c = false) t.
Proof.
  intros Hex. apply findSteamGameID_no_probe in Hex.
  eapply Forall_impl; [exact Hex|]. now intros c [].
Qed.

Lemma filter_none {A : Type} (f : A -> bool) (l : list A) :
  Forall (fun x => f x = false) l -> List.filter f l = [].
Proof.
  induction 1 as [|x l Hx _ IH]; [reflexivity|]. simpl. now rewrite Hx.
Qed.

Lemma In_none {A : Type} (f : A -> bool) (l : list A) (x : A) :
  Forall (fun x => f x = false) l -> f x = true -> In x l -> False.
Proof.
  intros Hl Hx Hin. apply (Forall_In _ _ _ Hl) in Hin. congruence.
Qed.

Lemma missedProbe_no_write (gameName path : string) (shouldSkipExisting : bool)
      (tProbe : list Call) :
  missedProbe gameName path shouldSkipExisting tProbe -> Forall noRequestNoWrite tProbe.
Proof.
  intros [[-> ->]|[-> [(err & ->)|(l & read & -> & Hl & _)]]].
  - constructor.
  - now repeat constructor.
  - constructor; [now split|]. apply Forall_app. split; [|now repeat constructor].
    eapply Forall_impl; [exact Hl|]. now intros [].
Qed.

Lemma logOnly_noRequestNoWrite (l : list Call) : logOnly l -> Forall noRequestNoWrite l.
Proof. intros Hl. eapply Forall_impl; [exact Hl|]. now intros []. Qed.

(** A successful resolution comes from a response with status 200
    whose body parses and lists an item. *)
Lemma findSteamGameID_found (gameName : string) (verbose : bool) (t : list Call)
      (gameID : Z) :
  exec (findSteamGameID gameName verbose) t (gameID, None) ->
  exists body apiResponse item rest,
    In (CHttpGet (requestURL gameName) (Ok {| StatusCode := 200; Body := Ok body |})) t /\
    json_Unmarshal body = Ok apiResponse /\
    Items apiResponse = item :: rest /\
    gameID = ID item.
Proof.
  intros Hex.
  apply findSteamGameID_exec in Hex as [(_ & _ & Hr)|(_ & l1 & got & l2 & -> & _ & _ & Hr)];
    [discriminate|].
  unfold resolveOutcome in Hr.
  destruct got as [[code body]|e]; [|discriminate]. simpl in Hr.
  unfold StatusOK in Hr. destruct (Z.eqb_spec code 200) as [->|]; [|discriminate].
  simpl in Hr. destruct body as [body|e]; [|discriminate].
  destruct (json_Unmarshal body) as [apiResponse|e] eqn:Hj; [|discriminate].
  destruct (Items apiResponse) as [|item rest] eqn:Hi; [discriminate|].
  injection Hr as ->. exists body, apiResponse, item, rest.
  repeat split; try assumption. apply in_or_app. right. now left.
Qed.

(** The one write of a run, behind the probe and the request. *)
Lemma only_write (gameName path : string) (shouldSkipExisting verbose : bool)
      (tProbe tFind : list Call) (found : Z * option error) (c w : Call) :
  missedProbe gameName path shouldSkipExisting tProbe ->
  exec (findSteamGameID gameName verbose) tFind found ->
  isWriteFile c = true ->
  In c (tProbe ++ tFind ++ [w]) -> c = w.
Proof.
  intros Hp Hf Hc Hin.
  apply missedProbe_no_write in Hp. apply findSteamGameID_no_write in Hf.
  apply in_app_or in Hin as [Hin|Hin].
  - apply (Forall_In _ _ _ Hp) in Hin. destruct Hin. congruence.
  - apply in_app_or in Hin as [Hin|[Hin|[]]]; [|now symmetry].
    apply (Forall_In _ _ _ Hf) in Hin. congruence.
Qed.

Lemma no_write_before (gameName path : string) (shouldSkipExisting verbose : bool)
      (tProbe tFind : list Call) (found : Z * option error) :
  missedProbe gameName path shouldSkipExisting tProbe ->
  exec (findSteamGameID gameName verbose) tFind found ->
  Forall (fun c => isWriteFile c = false) (tProbe ++ tFind).
Proof.
  intros Hp Hf. apply missedProbe_no_write in Hp. apply findSteamGameID_no_write in Hf.
  apply Forall_app. split; [|assumption].
  eapply Forall_impl; [exact Hp|]. now intros c [].
Qed.

(** X9. A write is the last call of its run and the only write in it,
    successful or not; it comes after a response with status 200 whose
    body parsed and listed an item, and it writes the decimal text of
    the [id] of the first item to the [.steam] file of the name, with
    mode 0644. *)
Theorem processSingleGame_write_last (gameName outputDirectory : string)
        (shouldSkipExisting verbose : bool) (t : list Call) (result : GameResult)
        (name data : string) (perm : Z) (writeErr : option error) :
  exec (processSingleGame gameName outputDirectory shouldSkipExisting verbose) t result ->
  In (CWriteFile name data perm writeErr) t ->
  exists (t0 : list Call) (body : string) (apiResponse : SteamAPIResponse)
         (item : Item) (rest : list Item),
    t = t0 ++ [CWriteFile name data perm writeErr] /\
    Forall (fun c => isWriteFile c = false) t0 /\
    In (CHttpGet (requestURL gameName) (Ok {| StatusCode := 200; Body := Ok body |})) t0 /\
    json_Unmarshal body = Ok apiResponse /\
    Items apiResponse = item :: rest /\
    name = steamFilePath gameName outputDirectory /\
    data = Fmt.Sprintf_d (ID item) /\
    perm = 420.
Proof.
  intros Hex Hin.
  apply processSingleGame_cases in Hex
    as [(l & content & gameID & _ & -> & Hl & _)
       |(tProbe & tFind & [gameID [err|]] & tWrite & -> & Hp & Hf & Hw)]; try (simpl in Hw).
  - exfalso. destruct Hin as [Hin|Hin]; [discriminate|].
    apply in_app_or in Hin as [Hin|[Hin|[]]]; [|discriminate].
    apply (logOnly_In _ _ Hl) in Hin. discriminate.
  - exfalso. destruct Hw as [-> _]. rewrite app_nil_r in Hin.
    apply missedProbe_no_write in Hp. apply findSteamGameID_no_write in Hf.
    apply in_app_or in Hin as [Hin|Hin].
    + apply (Forall_In _ _ _ Hp) in Hin. destruct Hin. discriminate.
    + apply (Forall_In _ _ _ Hf) in Hin. discriminate.
  - destruct Hw as (we & -> & _).
    apply missedProbe_no_write in Hp. pose proof (findSteamGameID_no_write _ _ _ _ Hf) as Hnw.
    apply findSteamGameID_found in Hf as (body & apiResponse & item & rest & Hget & Hj & Hi & ->).
    assert (Hthis : CWriteFile name data perm writeErr =
                    CWriteFile (steamFilePath gameName outputDirectory)
                               (Fmt.Sprintf_d (ID item)) fileMode we).
    { apply in_app_or in Hin as [Hin|Hin].
      - apply (Forall_In _ _ _ Hp) in Hin. destruct Hin. discriminate.
      - apply in_app_or in Hin as [Hin|[Hin|[]]]; [|now symmetry].
        apply (Forall_In _ _ _ Hnw) in Hin. discriminate. }
    injection Hthis as -> -> -> ->.
    exists (tProbe ++ tFind), body, apiResponse, item, rest.
    rewrite <- app_assoc. repeat split; try assumption; try reflexivity.
    + apply Forall_app. split; [|assumption].
      eapply Forall_impl; [exact Hp|]. now intros c [].
    + apply in_or_app. now right.
Qed.

(** X10. A success means the record is there: either it was read
    ([shouldSkipExisting], the content scanned to the identifier of
    the result, and the run made no request and no write), or the last
    call of the run is the successful write of the decimal text of the
    identifier of the result, made after a request. *)
Theorem processSingleGame_success_stored (gameName outputDirectory : string)
        (shouldSkipExisting verbose : bool) (t : list Call) (result : GameResult) :
  exec (processSingleGame gameName outputDirectory shouldSkipExisting verbose) t result ->
  Success result = true ->
  let path := steamFilePath gameName outputDirectory in
  (exists content,
      shouldSkipExisting = true /\
      In (CReadFile path (Ok content)) t /\
      Fmt.Sscanf_d content = Some (GameID result) /\
      Forall noRequestNoWrite t) \/
  (exists t0,
      t = t0 ++ [CWriteFile path (Fmt.Sprintf_d (GameID result)) 420 None] /\
      Exists (fun c => isHttpGet c = true) t0).
Proof.
  intros Hex Hs path.
  apply processSingleGame_cases in Hex
    as [(l & content & gameID & -> & -> & Hl & Hsc & ->)
       |(tProbe & tFind & [gameID [err|]] & tWrite & -> & Hp & Hf & Hw)]; try (simpl in Hw).
  - left. exists content. split; [reflexivity|]. split; [|split; [exact Hsc|]].
    + right. apply in_or_app. right. now left.
    + constructor; [now split|]. apply Forall_app.
      split; [now apply logOnly_noRequestNoWrite | now repeat constructor].
  - destruct Hw as [_ ->]. discriminate.
  - destruct Hw as ([we|] & -> & ->); [discriminate|]. right.
    exists (tProbe ++ tFind). rewrite <- app_assoc. split; [reflexivity|].
    apply findSteamGameID_found in Hf as (body & _ & _ & _ & Hget & _).
    apply Exists_app. right. apply Exists_exists.
    exists (CHttpGet (requestURL gameName) (Ok {| StatusCode := 200; Body := Ok body |})).
    split; [|reflexivity]. apply list_elem_of_In. exact Hget.
Qed.

(** X11. A failed run has no successful write.
    Either its last call is a write that failed, and the error of the
    result wraps the error of that write; or the run has no write at
    all, and the error of the result is the error [findSteamGameID]
    returned. *)
Theorem processSingleGame_failure (gameName outputDirectory : string)
        (shouldSkipExisting verbose : bool) (t : list Call) (result : GameResult) :
  exec (processSingleGame gameName outputDirectory shouldSkipExisting verbose) t result ->
  Success result = false ->
  (forall name data perm, ~ In (CWriteFile name data perm None) t) /\
  ((exists t0 data err,
       t = t0 ++ [CWriteFile (steamFilePath gameName outputDirectory) data 420 (Some err)] /\
       Error result = Some (errWriting err)) \/
   (exists tProbe tFind gameID err,
       t = tProbe ++ tFind /\
       Forall noRequestNoWrite tProbe /\
       exec (findSteamGameID gameName verbose) tFind (gameID, Some err) /\
       Error result = Some err /\
       Forall (fun c => isWriteFile c = false) t)).
Proof.
  intros Hex Hs.
  apply processSingleGame_cases in Hex
    as [(l & content & gameID & _ & _ & _ & _ & ->)
       |(tProbe & tFind & [gameID [err|]] & tWrite & -> & Hp & Hf & Hw)];
    try (simpl in Hw).
  - discriminate.
  - destruct Hw as [-> ->]. rewrite app_nil_r.
    pose proof (no_write_before _ _ _ _ _ _ _ Hp Hf) as Hnw. split.
    + intros name data perm Hin. apply (Forall_In _ _ _ Hnw) in Hin. discriminate.
    + right. exists tProbe, tFind, gameID, err. apply missedProbe_no_write in Hp.
      repeat split; try assumption; reflexivity.
  - destruct Hw as ([we|] & -> & ->); [|discriminate]. split.
    + intros name data perm Hin.
      apply (only_write _ _ _ _ _ _ _ (CWriteFile name data perm None) _ Hp Hf eq_refl) in Hin.
      discriminate.
    + left. exists (tProbe ++ tFind), (Fmt.Sprintf_d gameID), we.
      rewrite <- app_assoc. split; reflexivity.
Qed.

(** X12. With [shouldSkipExisting], when [os.Stat] or [os.ReadFile]
    fails, whatever the error, the run goes on as a run without
    [shouldSkipExisting]: what follows the probe is exactly such a
    run, with the same result, and the probe itself made no request
    and no write. *)
Theorem processSingleGame_probe_failure (gameName outputDirectory : string)
        (verbose : bool) (t : list Call) (result : GameResult) (name : string) (err : error) :
  exec (processSingleGame gameName outputDirectory true verbose) t result ->
  In (CStat name (Some err)) t \/ In (CReadFile name (Err err)) t ->
  exists tProbe tRest,
    t = tProbe ++ tRest /\
    Forall noRequestNoWrite tProbe /\
    exec (processSingleGame gameName outputDirectory false verbose) tRest result.
Proof.
  intros Hex Hin.
  assert (Hrest : forall tRest,
             exec (queryAndWrite gameName (steamFilePath gameName outputDirectory) verbose)
                  tRest result ->
             exec (processSingleGame gameName outputDirectory false verbose) tRest result).
  { intros tRest Hq. unfold processSingleGame. simpl. exact Hq. }
  apply processSingleGame_exec in Hex as (tProbe & early & tRest & -> & Hp & Hr).
  pose proof (skipExisting_no_resolver _ _ _ _ _ Hp) as Hnr.
  exists tProbe, tRest. split; [reflexivity|]. split; [exact Hnr|].
  apply Hrest.
  assert (Hq : forall c, In c tRest -> isProbe c = true -> False).
  { intros c Hc Hpr. destruct early as [r|].
    - destruct Hr as [-> _]. contradiction.
    - apply queryAndWrite_no_probe in Hr. apply (Forall_In _ _ _ Hr) in Hc. congruence. }
  apply skipExisting_exec in Hp as [(e & -> & ->)|(l & read & -> & Hl & ->)]; [exact Hr|].
  assert (Hread : read = Err err).
  { destruct Hin as [Hin|Hin]; apply in_app_or in Hin as [Hin|Hin];
      try (exfalso; eapply Hq; [exact Hin | reflexivity]).
    - exfalso. destruct Hin as [Hin|Hin]; [discriminate|].
      apply in_app_or in Hin as [Hin|[Hin|[]]]; [|discriminate].
      apply (logOnly_In _ _ Hl) in Hin. discriminate.
    - destruct Hin as [Hin|Hin]; [discriminate|].
      apply in_app_or in Hin as [Hin|[Hin|[]]]; [|now injection Hin].
      apply (logOnly_In _ _ Hl) in Hin. discriminate. }
  subst read. exact Hr.
Qed.

(** X13. Verbose mode only adds log lines: a verbose run of
    [processSingleGame] without its log lines is a run of the quiet
    one, with the same calls to the file system and the network, the
    same answers and the same result. *)
Theorem processSingleGame_verbose (gameName outputDirectory : string)
        (shouldSkipExisting : bool) (t : list Call) (result : GameResult) :
  exec (processSingleGame gameName outputDirectory shouldSkipExisting true) t result ->
  exec (processSingleGame gameName outputDirectory shouldSkipExisting false)
       (List.filter notLog t) result.
Proof.
  intros Hex. set (path := steamFilePath gameName outputDirectory).
  apply processSingleGame_cases in Hex
    as [(l & content & gameID & -> & -> & Hl & Hsc & ->)
       |(tProbe & tFind & found & tWrite & -> & Hp & Hf & Hw)]; fold path; try fold path in Hp, Hw.
  - change (List.filter notLog (CStat path None :: l ++ [CReadFile path (Ok content)]))
      with (CStat path None :: List.filter notLog (l ++ [CReadFile path (Ok content)])).
    rewrite List.filter_app, (filter_logOnly l Hl).
    change ([] ++ List.filter notLog [CReadFile path (Ok content)])
      with [CReadFile path (Ok content)].
    unfold processSingleGame. fold path.
    apply (exec_bind _ _ [CStat path None; CReadFile path (Ok content)] []
                     (Some (successResult gameName gameID))).
    + pose proof (skipExisting_quiet gameName path None (Ok content)) as Hq.
      unfold cachedOutcome in Hq. now rewrite Hsc in Hq.
    + constructor.
  - rewrite !List.filter_app.
    apply findSteamGameID_filter in Hf.
    assert (Hq : exec (queryAndWrite gameName path false)
                      (List.filter notLog tFind ++ List.filter notLog tWrite) result).
    { unfold queryAndWrite. eapply exec_bind; [exact Hf|].
      destruct found as [gameID [err|]]; simpl in Hw.
      - destruct Hw as [-> ->]. constructor.
      - destruct Hw as (writeErr & -> & ->). simpl.
        apply (exec_Vis _ (WriteFile path (Fmt.Sprintf_d gameID) fileMode) _ writeErr).
        destruct writeErr; constructor. }
    unfold processSingleGame. fold path.
    destruct Hp as [[-> ->]|[-> [(err & ->)|(l & read & -> & Hl & Hc)]]].
    + simpl. exact Hq.
    + apply (exec_bind _ _ [CStat path (Some err)] _ None); [|exact Hq].
      exact (skipExisting_quiet gameName path (Some err) (Err err)).
    + change (List.filter notLog (CStat path None :: l ++ [CReadFile path read]))
        with (CStat path None :: List.filter notLog (l ++ [CReadFile path read])).
      rewrite List.filter_app, (filter_logOnly l Hl).
      change ([] ++ List.filter notLog [CReadFile path read]) with [CReadFile path read].
      apply (exec_bind _ _ [CStat path None; CReadFile path read] _ None); [|exact Hq].
      pose proof (skipExisting_quiet gameName path None read) as Hq'.
      now rewrite Hc in Hq'.
Qed.

End ProcessorExtras.

Lemma processSingleGame_own_calls_witness :
  Forall (ownCall "Portal" "output" true true) (snd (runPortal emptyWorld true true)).
Proof.
  apply (processSingleGame_own_calls (H := exampleLib) "Portal" "output" true true
           (snd (runPortal emptyWorld true true))
           (fst (fst (runPortal emptyWorld true true)))).
  exact (run_exec handler (processSingleGame "Portal" "output" true true) emptyWorld).
Defined.

Lemma processSingleGame_result_fields_witness :
  GameName (fst (fst (runPortal lockedWorld false false))) = "Portal" /\
  (Success (fst (fst (runPortal lockedWorld false false))) = true <->
   Error (fst (fst (runPortal lockedWorld false false))) = None) /\
  (Success (fst (fst (runPortal lockedWorld false false))) = false ->
   GameID (fst (fst (runPortal lockedWorld false false))) = 0).
Proof.
  apply (processSingleGame_result_fields (H := exampleLib) "Portal" "output" false false
           (snd (runPortal lockedWorld false false))).
  exact (run_exec handler (processSingleGame "Portal" "output" false false) lockedWorld).
Defined.

Lemma processSingleGame_write_last_witness :
  exists (t0 : list Call) (body : string) (apiResponse : SteamAPIResponse)
         (item : Item) (rest : list Item),
    snd (runPortal emptyWorld false true) =
      t0 ++ [CWriteFile "output/Portal.steam" "400" 420 None] /\
    Forall (fun c => isWriteFile c = false) t0 /\
    In (CHttpGet (Resolver.requestURL "Portal")
                 (Ok {| StatusCode := 200; Body := Ok body |})) t0 /\
    json_Unmarshal body = Ok apiResponse /\
    Items apiResponse = item :: rest /\
    "output/Portal.steam" = steamFilePath "Portal" "output" /\
    "400" = Fmt.Sprintf_d (ID item) /\
    420 = 420.
Proof.
  apply (processSingleGame_write_last (H := exampleLib) "Portal" "output" false true
           (snd (runPortal emptyWorld false true))
           (fst (fst (runPortal emptyWorld false true)))).
  - exact (run_exec handler (processSingleGame "Portal" "output" false true) emptyWorld).
  - vm_compute. repeat (first [left; reflexivity | right]).
Defined.

Lemma processSingleGame_success_stored_witness :
  (exists content,
      false = true /\
      In (CReadFile (steamFilePath "Portal" "output") (Ok content))
         (snd (runPortal emptyWorld false false)) /\
      Fmt.Sscanf_d content = Some (GameID (fst (fst (runPortal emptyWorld false false)))) /\
      Forall noRequestNoWrite (snd (runPortal emptyWorld false false))) \/
  (exists t0,
      snd (runPortal emptyWorld false false) =
        t0 ++ [CWriteFile (steamFilePath "Portal" "output")
                          (Fmt.Sprintf_d (GameID (fst (fst (runPortal emptyWorld false false)))))
                          420 None] /\
      Exists (fun c => isHttpGet c = true) t0).
Proof.
  apply (processSingleGame_success_stored (H := exampleLib) "Portal" "output" false false
           (snd (runPortal emptyWorld false false))
           (fst (fst (runPortal emptyWorld false false)))).
  - exact (run_exec handler (processSingleGame "Portal" "output" false false) emptyWorld).
  - vm_compute. reflexivity.
Defined.

Lemma processSingleGame_failure_witness :
  (forall name data perm,
      ~ In (CWriteFile name data perm None) (snd (runPortal lockedWorld false false))) /\
  ((exists t0 data err,
       snd (runPortal lockedWorld false false) =
         t0 ++ [CWriteFile (steamFilePath "Portal" "output") data 420 (Some err)] /\
       Error (fst (fst (runPortal lockedWorld false false))) = Some (errWriting err)) \/
   (exists tProbe tFind gameID err,
       snd (runPortal lockedWorld false false) = tProbe ++ tFind /\
       Forall noRequestNoWrite tProbe /\
       exec (Resolver.findSteamGameID "Portal" false) tFind (gameID, Some err) /\
       Error (fst (fst (runPortal lockedWorld false false))) = Some err /\
       Forall (fun c => isWriteFile c = false) (snd (runPortal lockedWorld false false)))).
Proof.
  apply (processSingleGame_failure (H := exampleLib) "Portal" "output" false false
           (snd (runPortal lockedWorld false false))
           (fst (fst (runPortal lockedWorld false false)))).
  - exact (run_exec handler (processSingleGame "Portal" "output" false false) lockedWorld).
  - vm_compute. reflexivity.
Defined.

Lemma processSingleGame_probe_failure_witness :
  exists tProbe tRest,
    snd (runPortal emptyWorld true false) = tProbe ++ tRest /\
    Forall noRequestNoWrite tProbe /\
    exec (processSingleGame "Portal" "output" false false) tRest
         (fst (fst (runPortal emptyWorld true false))).
Proof.
  apply (processSingleGame_probe_failure (H := exampleLib) "Portal" "output" false
           (snd (runPortal emptyWorld true false))
           (fst (fst (runPortal emptyWorld true false)))
           "output/Portal.steam" (errNotExist "stat" "output/Portal.steam")).
  - exact (run_exec handler (processSingleGame "Portal" "output" true false) emptyWorld).
  - left. vm_compute. left. reflexivity.
Defined.

Lemma processSingleGame_verbose_witness :
  exec (processSingleGame "Portal" "output" true false)
       (List.filter notLog (snd (runPortal (cachedWorld "400") true true)))
       (fst (fst (runPortal (cachedWorld "400") true true))).
Proof.
  apply (processSingleGame_verbose (H := exampleLib) "Portal" "output" true).
  exact (run_exec handler (processSingleGame "Portal" "output" true true) (cachedWorld "400")).
Defined.

(** ** The record on disk *)

Import Store.

Lemma run_replay {A : Type} (p : Prog A) (w : World) :
  snd (fst (run handler p w)) = replay (snd (run handler p w)) w /\
  agrees (snd (run handler p w)) w.
Proof.
  revert w. induction p as [a|X e k IH]; intros w; [simpl; auto|].
  cbn [run].
  destruct (handler X e w) as [x w1] eqn:Hh.
  specialize (IH x w1). destruct (run handler (k x) w1) as [[a w2] t].
  cbn [fst snd] in *. cbn [replay agrees].
  assert (Hc : applyCall (call e x) w = w1 /\ answered (call e x) w).
  { destruct e; cbn [call applyCall answered]; rewrite ?Hh; auto. }
  destruct Hc as [-> Ha]. tauto.
Qed.

Lemma replay_app (t1 t2 : list Call) (w : World) :
  replay (t1 ++ t2) w = replay t2 (replay t1 w).
Proof. revert w. induction t1 as [|c t1 IH]; intros w; [reflexivity | apply IH]. Qed.

Lemma agrees_app (t1 t2 : list Call) (w : World) :
  agrees (t1 ++ t2) w <-> agrees t1 w /\ agrees t2 (replay t1 w).
Proof.
  revert w. induction t1 as [|c t1 IH]; intros w; simpl; [tauto|].
  rewrite IH. tauto.
Qed.

Lemma replay_no_write (t : list Call) (w : World) :
  Forall (fun c => isWriteFile c = false) t -> files (replay t w) = files w.
Proof.
  intros Ht. revert w. induction Ht as [|c t Hc _ IH]; intros w; [reflexivity|].
  simpl. rewrite IH. destruct c; try discriminate; reflexivity.
Qed.

(** A read that succeeds returns the content of the file. *)
Lemma agrees_read (t : list Call) (w : World) (path content : string) :
  Forall (fun c => isWriteFile c = false) t -> agrees t w ->
  In (CReadFile path (Ok content)) t -> files w !! path = Some content.
Proof.
  intros Ht. revert w. induction Ht as [|c t Hc _ IH]; intros w Ha Hin; [contradiction|].
  destruct Ha as [Hans Ha]. destruct Hin as [->|Hin].
  - simpl in Hans. destruct (files w !! path); [congruence | discriminate].
  - specialize (IH _ Ha Hin).
    destruct c; try discriminate; exact IH.
Qed.

(** What [os.WriteFile] leaves: the data when it returns no error;
    with an error the file as it was, or the bytes of the data
    written before the error. *)
Lemma writeFile_files (w : World) (name data : string) :
  match fst (writeFile w name data) with
  | None => files (snd (writeFile w name data)) = <[name := data]> (files w)
  | Some _ =>
    files (snd (writeFile w name data)) = files w \/
    exists k, files (snd (writeFile w name data)) =
                <[name := substring 0 k data]> (files w)
  end.
Proof.
  unfold writeFile. destruct (decide (name ∈ locked w)); [now left|].
  destruct (faulty w !! name) as [k|]; [|reflexivity].
  right. now exists k.
Qed.

Lemma writeFile_fixed (w : World) (name data : string) :
  locked (snd (writeFile w name data)) = locked w /\
  web (snd (writeFile w name data)) = web w /\
  faulty (snd (writeFile w name data)) = faulty w.
Proof.
  unfold writeFile. destruct (decide (name ∈ locked w)); [auto|].
  destruct (faulty w !! name) as [k|]; auto.
Qed.

Lemma replay_fixed (t : list Call) (w : World) :
  locked (replay t w) = locked w /\ web (replay t w) = web w /\
  faulty (replay t w) = faulty w.
Proof.
  revert w. induction t as [|c t IH]; intros w; [auto|].
  simpl. destruct (IH (applyCall c w)) as (-> & -> & ->).
  destruct c; auto. apply writeFile_fixed.
Qed.

Section StoreExtras.
Context `{GoLib}.
Import Resolver.

(** A write that succeeded is the write of the identifier of a
    success. *)
Lemma write_success (gameName outputDirectory : string)
      (shouldSkipExisting verbose : bool) (t : list Call) (result : GameResult)
      (name data : string) (perm : Z) :
  exec (processSingleGame gameName outputDirectory shouldSkipExisting verbose) t result ->
  In (CWriteFile name data perm None) t ->
  result = successResult gameName (GameID result) /\
  data = Fmt.Sprintf_d (GameID result).
Proof.
  intros Hex Hin.
  apply processSingleGame_cases in Hex
    as [(l & content & gameID & _ & -> & Hl & _)
       |(tProbe & tFind & [gameID [err|]] & tWrite & -> & Hp & Hf & Hw)];
    try (simpl in Hw).
  - exfalso. destruct Hin as [Hin|Hin]; [discriminate|].
    apply in_app_or in Hin as [Hin|[Hin|[]]]; [|discriminate].
    apply (logOnly_In _ _ Hl) in Hin. discriminate.
  - exfalso. destruct Hw as [-> _]. rewrite app_nil_r in Hin.
    pose proof (no_write_before _ _ _ _ _ _ _ Hp Hf) as Hnw.
    apply (Forall_In _ _ _ Hnw) in Hin. discriminate.
  - destruct Hw as (we & -> & ->).
    apply (only_write _ _ _ _ _ _ _ (CWriteFile name data perm None) _ Hp Hf eq_refl) in Hin.
    injection Hin as -> -> -> <-. auto.
Qed.

(** X14. What one run writes, a later run reads back: when a run has
    written its record and a run for the same name with
    [shouldSkipExisting] finds a file and reads that very content,
    the later run returns the same result as the first, without a
    request and without a write. *)
Theorem processSingleGame_reads_back (gameName outputDirectory : string)
        (shouldSkipExisting verbose verbose' : bool)
        (t t' : list Call) (result result' : GameResult)
        (name name' name'' data : string) (perm : Z) :
  exec (processSingleGame gameName outputDirectory shouldSkipExisting verbose) t result ->
  In (CWriteFile name data perm None) t ->
  - 2 ^ 63 <= GameID result < 2 ^ 63 ->
  exec (processSingleGame gameName outputDirectory true verbose') t' result' ->
  In (CStat name' None) t' ->
  In (CReadFile name'' (Ok data)) t' ->
  result' = result /\ Forall noRequestNoWrite t'.
Proof.
  intros Hex Hin Hrange Hex' Hstat Hread.
  destruct (write_success _ _ _ _ _ _ _ _ _ Hex Hin) as [Hr Hd].
  rewrite Hr. clear Hex Hin.
  assert (Hnp : forall tFind found tWrite c,
             exec (findSteamGameID gameName verbose') tFind found ->
             writeStep gameName (steamFilePath gameName outputDirectory) found tWrite result' ->
             In c (tFind ++ tWrite) -> isProbe c = false).
  { intros tFind [gameID [err|]] tWrite c Hf Hw Hc; simpl in Hw;
      apply findSteamGameID_no_probe in Hf; apply in_app_or in Hc as [Hc|Hc];
      try (apply (Forall_In _ _ _ Hf) in Hc; tauto).
    - destruct Hw as [-> _]. contradiction.
    - destruct Hw as (we & -> & _). destruct Hc as [<-|[]]. reflexivity. }
  apply processSingleGame_cases in Hex'
    as [(l & content & gameID & _ & -> & Hl & Hsc & ->)
       |(tProbe & tFind & found & tWrite & -> & Hp & Hf & Hw)].
  - assert (Hc : content = data).
    { destruct Hread as [Hread|Hread]; [discriminate|].
      apply in_app_or in Hread as [Hread|[Hread|[]]]; [|now injection Hread].
      apply (logOnly_In _ _ Hl) in Hread. discriminate. }
    subst content. rewrite Hd, Sscanf_Sprintf_exact in Hsc by assumption. injection Hsc as <-.
    split; [reflexivity|].
    constructor; [now split|]. apply Forall_app.
    split; [now apply logOnly_noRequestNoWrite | now repeat constructor].
  - exfalso.
    apply in_app_or in Hstat as [Hstat|Hstat];
      [|now pose proof (Hnp _ _ _ _ Hf Hw Hstat)].
    apply in_app_or in Hread as [Hread|Hread];
      [|now pose proof (Hnp _ _ _ _ Hf Hw Hread)].
    destruct Hp as [[Hs _]|[_ [(err & ->)|(l & read & -> & Hl & Hc)]]]; [discriminate| |].
    + destruct Hstat as [Hstat|[]]. discriminate.
    + assert (Hd' : read = Ok data).
      { destruct Hread as [Hread|Hread]; [discriminate|].
        apply in_app_or in Hread as [Hread|[Hread|[]]]; [|now injection Hread].
        apply (logOnly_In _ _ Hl) in Hread. discriminate. }
      subst read. unfold cachedOutcome in Hc.
      rewrite Hd, Sscanf_Sprintf_exact in Hc by assumption. discriminate.
Qed.

Lemma agrees_logOnly (l : list Call) (w : World) :
  logOnly l -> files (replay l w) = files w.
Proof.
  intros Hl. apply replay_no_write. eapply Forall_impl; [exact Hl|]. now intros [].
Qed.

(** The answers to the probe, in a world that holds the record. *)
Lemma probe_answers (path content : string) (l : list Call) (read : Result string)
      (w : World) :
  files w !! path = Some content -> logOnly l ->
  agrees (CStat path None :: l ++ [CReadFile path read]) w ->
  read = Ok content.
Proof.
  intros Hf Hl Ha. change (CStat path None :: l ++ [CReadFile path read])
    with ((CStat path None :: l) ++ [CReadFile path read]) in Ha.
  apply agrees_app in Ha as [_ Ha]. simpl in Ha. destruct Ha as [-> _].
  now rewrite (agrees_logOnly l w Hl), Hf.
Qed.

(** A run with [shouldSkipExisting] in a world that holds a record
    [Sscanf] can read. *)
Lemma cached_run (gameName outputDirectory : string) (verbose : bool) (w : World)
      (content : string) (gameID : Z) :
  files w !! steamFilePath gameName outputDirectory = Some content ->
  Fmt.Sscanf_d content = Some gameID ->
  let out := run handler (processSingleGame gameName outputDirectory true verbose) w in
  fst (fst out) = successResult gameName gameID /\
  files (snd (fst out)) = files w /\
  Forall noRequestNoWrite (snd out).
Proof.
  intros Hf Hsc out.
  pose proof (run_exec handler (processSingleGame gameName outputDirectory true verbose) w)
    as Hex.
  destruct (run_replay (processSingleGame gameName outputDirectory true verbose) w)
    as [Hw Ha].
  fold out in Hex, Hw, Ha. destruct out as [[r w'] t]. cbn [fst snd] in *.
  apply processSingleGame_cases in Hex
    as [(l & content' & gameID' & _ & -> & Hl & Hsc' & ->)
       |(tProbe & tFind & found & tWrite & -> & Hp & _)].
  - apply (probe_answers _ _ _ _ _ Hf Hl) in Ha. injection Ha as ->.
    assert (gameID' = gameID) by congruence. subst gameID'.
    assert (Hnw : Forall noRequestNoWrite
                    (CStat (steamFilePath gameName outputDirectory) None
                       :: l ++ [CReadFile (steamFilePath gameName outputDirectory) (Ok content)])).
    { constructor; [now split|]. apply Forall_app.
      split; [now apply logOnly_noRequestNoWrite | now repeat constructor]. }
    repeat split; [|exact Hnw]. subst w'. apply replay_no_write.
    eapply Forall_impl; [exact Hnw|]. now intros c [].
  - exfalso. apply agrees_app in Ha as [Ha _].
    destruct Hp as [[Hs _]|[_ [(err & ->)|(l & read & -> & Hl & Hc)]]]; [discriminate| |].
    + simpl in Ha. destruct Ha as [Ha _]. rewrite Hf in Ha. discriminate.
    + apply (probe_answers _ _ _ _ _ Hf Hl) in Ha. subst read.
      unfold cachedOutcome in Hc. rewrite Hsc in Hc. discriminate.
Qed.

(** The files after a run that the world in memory answered: as
    before; or with the record of the success written; or, when the
    write failed once the file was open, with the bytes that were
    written by then. *)
Lemma stored_after (gameName outputDirectory : string)
      (shouldSkipExisting verbose : bool) (w : World) (t : list Call) (result : GameResult) :
  let path := steamFilePath gameName outputDirectory in
  exec (processSingleGame gameName outputDirectory shouldSkipExisting verbose) t result ->
  agrees t w ->
  (files (replay t w) = files w /\
   (Success result = true ->
    exists content, files w !! path = Some content /\
                    Fmt.Sscanf_d content = Some (GameID result))) \/
  (Success result = true /\
   files (replay t w) = <[path := Fmt.Sprintf_d (GameID result)]> (files w)) \/
  (exists gameID k err,
     files (replay t w) = <[path := substring 0 k (Fmt.Sprintf_d gameID)]> (files w) /\
     result = failureResult gameName (errWriting err)).
Proof.
  intros path Hex Ha.
  apply processSingleGame_cases in Hex
    as [(l & content & gameID & _ & -> & Hl & Hsc & ->)
       |(tProbe & tFind & [gameID [err|]] & tWrite & -> & Hp & Hf & Hw)];
    fold path; try (fold path in Hp, Hw; simpl in Hw).
  - left.
    assert (Hns : Forall (fun c => isWriteFile c = false)
                         (CStat path None :: l ++ [CReadFile path (Ok content)])).
    { constructor; [reflexivity|]. apply Forall_app. split; [|now repeat constructor].
      eapply Forall_impl; [exact Hl|]. now intros []. }
    split; [now apply replay_no_write|]. intros _. exists content. split; [|exact Hsc].
    apply (agrees_read _ _ _ _ Hns Ha). right. apply in_or_app. right. now left.
  - left. destruct Hw as [-> ->]. rewrite app_nil_r. split; [|discriminate].
    apply replay_no_write. eapply no_write_before; eassumption.
  - pose proof (no_write_before _ _ _ _ _ _ _ Hp Hf) as Hnw.
    destruct Hw as (we & -> & ->).
    rewrite app_assoc in Ha |- *. apply agrees_app in Ha as [_ Ha].
    rewrite replay_app. cbn [replay applyCall handler agrees answered] in Ha |- *.
    destruct Ha as [Hwe _].
    pose proof (writeFile_files (replay (tProbe ++ tFind) w) path (Fmt.Sprintf_d gameID))
      as Hfiles.
    rewrite <- Hwe in Hfiles. rewrite (replay_no_write _ w Hnw) in Hfiles.
    destruct we as [we|].
    + destruct Hfiles as [Hfiles|(k & Hfiles)].
      * left. split; [exact Hfiles | discriminate].
      * right. right. exists gameID, k, we. auto.
    + right. left. split; [reflexivity | exact Hfiles].
Qed.

(** X15. The files after a run of [processSingleGame] in the world in
    memory.  No file but the [.steam] file of the name has changed.
    After a failure the files are as they were, or the write failed
    once [os.WriteFile] had opened the file: then the [.steam] file
    holds the bytes written by then, a prefix of the decimal text of
    the identifier that was found (empty, a part, or all of it), and
    the result carries the error of the write.  After a success the
    [.steam] file holds text that [Sscanf] reads as the identifier of
    the result (a 64-bit integer). *)
Theorem processSingleGame_store (gameName outputDirectory : string)
        (shouldSkipExisting verbose : bool) (w : World) :
  let out := run handler
                 (processSingleGame gameName outputDirectory shouldSkipExisting verbose) w in
  let result := fst (fst out) in
  let w' := snd (fst out) in
  let path := steamFilePath gameName outputDirectory in
  locked w' = locked w /\ web w' = web w /\ faulty w' = faulty w /\
  (forall name, name <> path -> files w' !! name = files w !! name) /\
  (Success result = false ->
   files w' = files w \/
   exists gameID k err,
     files w' = <[path := substring 0 k (Fmt.Sprintf_d gameID)]> (files w) /\
     result = failureResult gameName (errWriting err)) /\
  (Success result = true -> - 2 ^ 63 <= GameID result < 2 ^ 63 ->
   exists content,
     files w' !! path = Some content /\ Fmt.Sscanf_d content = Some (GameID result)).
Proof.
  intros out result w' path.
  pose proof (run_exec handler
                (processSingleGame gameName outputDirectory shouldSkipExisting verbose) w)
    as Hex.
  destruct (run_replay
              (processSingleGame gameName outputDirectory shouldSkipExisting verbose) w)
    as [Hw Ha].
  fold out in Hex, Hw, Ha. fold w' in Hw. fold result in Hex.
  destruct (replay_fixed (snd out) w) as (Hlocked & Hweb & Hfaulty).
  rewrite <- Hw in Hlocked, Hweb, Hfaulty.
  split; [exact Hlocked|]. split; [exact Hweb|]. split; [exact Hfaulty|].
  pose proof (stored_after _ _ _ _ w _ _ Hex Ha) as Hcases.
  fold path in Hcases. rewrite <- Hw in Hcases.
  split; [|split].
  - intros name Hne.
    destruct Hcases as [[-> _]|[[_ ->]|(gameID & k & err & -> & _)]]; [reflexivity| |];
      now rewrite lookup_insert_ne.
  - intros Hs. destruct Hcases as [[-> _]|[[Hs' _]|Hc]]; [now left | congruence | now right].
  - intros Hs Hrange.
    destruct Hcases as [[-> Hc]|[[_ ->]|(gameID & k & err & _ & Hr)]]; [now apply Hc| |].
    + exists (Fmt.Sprintf_d (GameID result)). split; [apply lookup_insert_eq|].
      now apply Sscanf_Sprintf_exact.
    + rewrite Hr in Hs. discriminate.
Qed.

(** X16. Running twice is running once: after a successful run in the
    world in memory, a run for the same name with [shouldSkipExisting]
    returns the same result, makes no request and no write, and
    leaves the files as they are. *)
Theorem processSingleGame_second_run (gameName outputDirectory : string)
        (shouldSkipExisting verbose verbose' : bool) (w : World) :
  let first := run handler
                   (processSingleGame gameName outputDirectory shouldSkipExisting verbose) w in
  let second := run handler
                    (processSingleGame gameName outputDirectory true verbose')
                    (snd (fst first)) in
  Success (fst (fst first)) = true ->
  - 2 ^ 63 <= GameID (fst (fst first)) < 2 ^ 63 ->
  fst (fst second) = fst (fst first) /\
  files (snd (fst second)) = files (snd (fst first)) /\
  Forall noRequestNoWrite (snd second).
Proof.
  intros first second Hs Hrange.
  pose proof (run_exec handler
                (processSingleGame gameName outputDirectory shouldSkipExisting verbose) w)
    as Hex.
  destruct (run_replay
              (processSingleGame gameName outputDirectory shouldSkipExisting verbose) w)
    as [Hw Ha].
  fold first in Hex, Hw, Ha.
  assert (Hstored : exists content,
             files (snd (fst first)) !! steamFilePath gameName outputDirectory = Some content /\
             Fmt.Sscanf_d content = Some (GameID (fst (fst first)))).
  { rewrite Hw.
    destruct (stored_after _ _ _ _ w _ _ Hex Ha)
      as [[-> Hc]|[[_ ->]|(gameID & k & err & _ & Hr)]]; [now apply Hc| |].
    - exists (Fmt.Sprintf_d (GameID (fst (fst first)))). split; [apply lookup_insert_eq|].
      now apply Sscanf_Sprintf_exact.
    - rewrite Hr in Hs. discriminate. }
  destruct Hstored as (content & Hf & Hsc).
  assert (Hr : fst (fst first) = successResult gameName (GameID (fst (fst first)))).
  { destruct (result_shape _ _ _ _ _ _ Hex) as [Hr|(err & Hr)]; [exact Hr|].
    rewrite Hr in Hs. discriminate. }
  rewrite Hr at 1.
  exact (cached_run gameName outputDirectory verbose' _ content _ Hf Hsc).
Qed.

End StoreExtras.

Lemma processSingleGame_reads_back_witness :
  fst (fst (runPortal (cachedWorld "400") true false)) =
    fst (fst (runPortal emptyWorld false false)) /\
  Forall noRequestNoWrite (snd (runPortal (cachedWorld "400") true false)).
Proof.
  apply (processSingleGame_reads_back (H := exampleLib) "Portal" "output" false false false
           (snd (runPortal emptyWorld false false))
           (snd (runPortal (cachedWorld "400") true false))
           (fst (fst (runPortal emptyWorld false false)))
           (fst (fst (runPortal (cachedWorld "400") true false)))
           "output/Portal.steam" "output/Portal.steam" "output/Portal.steam" "400" 420).
  - exact (run_exec handler (processSingleGame "Portal" "output" false false) emptyWorld).
  - vm_compute. right. left. reflexivity.
  - vm_compute. split; [discriminate | reflexivity].
  - exact (run_exec handler (processSingleGame "Portal" "output" true false) (cachedWorld "400")).
  - vm_compute. left. reflexivity.
  - vm_compute. right. left. reflexivity.
Defined.

Lemma processSingleGame_second_run_witness :
  fst (fst (runPortal (snd (fst (runPortal emptyWorld false false))) true false)) =
    fst (fst (runPortal emptyWorld false false)) /\
  files (snd (fst (runPortal (snd (fst (runPortal emptyWorld false false))) true false))) =
    files (snd (fst (runPortal emptyWorld false false))) /\
  Forall noRequestNoWrite
         (snd (runPortal (snd (fst (runPortal emptyWorld false false))) true false)).
Proof.
  apply (processSingleGame_second_run (H := exampleLib) "Portal" "output" false false false
                                      emptyWorld).
  - vm_compute. reflexivity.
  - vm_compute. split; [discriminate | reflexivity].
Defined.

(** A write that fails half way, after one byte of [Portal.steam].
    The run fails and leaves the file with ["4"]; a later run with
    [shouldSkipExisting] reads that file as the identifier 4, with no
    request. *)
Example processSingleGame_partial_write :
  let first := runPortal faultyWorld false false in
  let second := run handler (processSingleGame "Portal" "output" true false)
                    (snd (fst first)) in
  Success (fst (fst first)) = false /\
  files (snd (fst first)) !! "output/Portal.steam" = Some "4" /\
  fst (fst second) = successResult "Portal" 4 /\
  Forall noRequestNoWrite (snd second).
Proof.
  vm_compute. repeat split; repeat constructor; discriminate.
Qed.


(** ** The pool: what holds at every moment of every run *)

Import PoolStates.

Lemma senderReady_reachable :
  reachable (H := exampleLib) ["Portal"] 1 "output" false false senderReady.
Proof.
  exists 2%nat.
  pool_step ltac:(eapply (step_spawn_worker _ _ _ _ _ _ 0); [reflexivity..|]; vm_compute; reflexivity).
  pool_step ltac:(eapply (step_spawn_sender _ _ _ _ _ _ 1); [reflexivity..|]; vm_compute; discriminate).
  apply steps_O.
Qed.

Lemma workerReady_reachable :
  reachable (H := exampleLib) ["Portal"] 1 "output" false false workerReady.
Proof.
  exists 5%nat.
  pool_step ltac:(eapply (step_spawn_worker _ _ _ _ _ _ 0); [reflexivity..|]; vm_compute; reflexivity).
  pool_step ltac:(eapply (step_spawn_sender _ _ _ _ _ _ 1); [reflexivity..|]; vm_compute; discriminate).
  pool_step ltac:(eapply step_send_job; [reflexivity..|]; vm_compute; reflexivity).
  pool_step ltac:(eapply (step_recv_job _ _ _ _ _ _ 0%nat); reflexivity).
  pool_step ltac:(eapply (step_process _ _ _ _ _ _ 0%nat);
                  [reflexivity | reflexivity | apply portal_exec]).
  apply steps_O.
Qed.

Lemma inFlight_workers (ws : list Worker) : (length (inFlight ws) <= length ws)%nat.
Proof.
  unfold inFlight. induction ws as [|w ws IH]; [reflexivity|].
  simpl. rewrite length_app. destruct w; simpl; lia.
Qed.

Lemma accounted_length (gameNames : list string) (s : State) :
  gameNames ≡ₚ accounted gameNames s ->
  length gameNames =
  (length (unsent gameNames s) + length (buf (jobQueue s)) + length (inFlight (workers s)) +
   length (buf (resultQueue s)) + length (printed (tally s)))%nat.
Proof.
  intros Hp. apply Permutation_length in Hp. unfold accounted in Hp.
  rewrite !length_app, !length_map in Hp. lia.
Qed.

Lemma filter_failures (rs : list GameResult) :
  filter (fun r => Success r = false) rs = List.filter (fun r => negb (Success r)) rs.
Proof.
  induction rs as [|r rs IH]; [reflexivity|].
  simpl. destruct (Success r) eqn:Hr.
  - rewrite filter_cons_False by (rewrite Hr; auto). exact IH.
  - rewrite filter_cons_True by (rewrite Hr; auto). simpl. now rewrite IH.
Qed.

Section PoolExtras.
Context `{GoLib}.
Variable gameNames : list string.
Variable workerCountFlag : Z.
Variable outputDirectory : string.
Variable shouldSkipExisting verbose : bool.

Local Abbreviation reachable :=
  (Pool.reachable gameNames workerCountFlag outputDirectory shouldSkipExisting verbose).
Local Abbreviation step :=
  (Pool.step gameNames workerCountFlag outputDirectory shouldSkipExisting verbose).
Local Abbreviation steps :=
  (Pool.steps gameNames workerCountFlag outputDirectory shouldSkipExisting verbose).

(** X17. No send ever blocks, and none hits a closed channel: whenever
    the sending goroutine has a name left to send, the job queue is
    open and has room; whenever a worker has a result to send, the
    result queue is open and has room.  (Both queues have the capacity
    [totalGames].) *)
Theorem pool_sends_never_block (s : State) :
  reachable s ->
  (forall gameName rest,
      sender s = SSending (gameName :: rest) ->
      closed (jobQueue s) = false /\ hasRoom (jobQueue s)) /\
  (forall i result,
      workers s !! i = Some (WSending result) ->
      closed (resultQueue s) = false /\ hasRoom (resultQueue s)).
Proof.
  intros Hs. apply Inv_reachable in Hs.
  destruct Hs as [Hp Hnames Hwg Hcj Hcr Hmain Hjc Hwd Hcl Ht Hgen].
  apply accounted_length in Hnames. split.
  - intros gameName rest Hsd. split.
    + destruct (closed (jobQueue s)); [|reflexivity].
      destruct Hjc as [Hjc _]. specialize (Hjc eq_refl). congruence.
    + unfold hasRoom. rewrite Hcj. unfold totalGames, unsent in *.
      rewrite Hsd in Hnames. simpl in Hnames. lia.
  - intros i result Hi. split.
    + assert ((1 <= liveCount (workers s))%nat)
        by (eapply liveCount_pos; [exact Hi | discriminate]).
      destruct (closer s); try assumption; destruct Hcl; lia.
    + unfold hasRoom. rewrite Hcr. unfold totalGames.
      apply inFlight_length in Hi. simpl in Hi. lia.
Qed.

(** X18. At every moment of every run each name is in exactly one
    place: not yet sent, in the job queue, with one worker, in the
    result queue as the name of a result, or printed.  No name is
    lost, none is handed to two workers, no result is collected
    twice. *)
Theorem pool_names_accounted (s : State) :
  reachable s ->
  gameNames ≡ₚ
    match sender s with
    | SNotStarted => gameNames
    | SSending rest => rest
    | SDone => []
    end ++ buf (jobQueue s) ++ inFlight (workers s) ++
    map GameName (buf (resultQueue s)) ++ map GameName (printed (tally s)).
Proof.
  intros Hs. apply Inv_reachable in Hs. exact (inv_names _ _ _ _ _ _ Hs).
Qed.

(** X19. Bounded parallelism: at no moment are more names being
    processed than [min(workerCountFlag, totalGames)] (none when that
    is negative). *)
Theorem pool_bounded_parallelism (s : State) :
  reachable s ->
  Z.of_nat (length (inFlight (workers s))) <=
    Z.max 0 (Z.min workerCountFlag (Z.of_nat (length gameNames))).
Proof.
  intros Hs. apply Inv_reachable in Hs.
  destruct Hs as [_ _ _ _ _ Hmain _ _ _ _ _].
  pose proof (inFlight_workers (workers s)) as Hle.
  assert (HW : PoolInv.W gameNames workerCountFlag =
               Z.min workerCountFlag (Z.of_nat (length gameNames))).
  { unfold PoolInv.W, actualWorkerCount, totalGames.
    destruct (Z.ltb_spec (Z.of_nat (length gameNames)) workerCountFlag); lia. }
  rewrite HW in Hmain.
  destruct (main s); lia.
Qed.

(** X20. The tally is right at every moment, not only at the end:
    [failedGameNames] holds the names of the failures printed so far,
    in the order they were printed; [failedCount] is their number;
    [completedCount] is [successCount + failedCount], the number of
    results printed, and never more than the number of names. *)
Theorem pool_tally_running (s : State) :
  reachable s ->
  let failures := List.filter (fun r => negb (Success r)) (printed (tally s)) in
  failedGameNames (tally s) = map GameName failures /\
  failedCount (tally s) = Z.of_nat (length failures) /\
  completedCount (tally s) = successCount (tally s) + failedCount (tally s) /\
  completedCount (tally s) = Z.of_nat (length (printed (tally s))) /\
  completedCount (tally s) <= Z.of_nat (length gameNames).
Proof.
  intros Hs failures. apply Inv_reachable in Hs.
  destruct Hs as [_ Hnames _ _ _ _ _ _ _ (Hcount & Hsucc & Hfail & Hlist) _].
  apply accounted_length in Hnames.
  pose proof (Success_partition (printed (tally s))) as Hpart.
  rewrite filter_failures in *. repeat split; try assumption; lia.
Qed.

(** X21. The order of the closings: the result queue is closed only
    when every worker has returned (and the wait group is at 0); a
    worker returns only when the job queue is closed and empty and the
    sender is done. *)
Theorem pool_close_after_workers (s : State) :
  reachable s ->
  (closed (resultQueue s) = true ->
   Forall (fun w => w = WDone) (workers s) /\ waitGroup s = 0) /\
  (In WDone (workers s) ->
   closed (jobQueue s) = true /\ buf (jobQueue s) = [] /\ sender s = SDone).
Proof.
  intros Hs. apply Inv_reachable in Hs.
  destruct Hs as [_ _ Hwg _ _ _ Hjc Hwd Hcl _ _]. split.
  - intros Hc.
    assert (Hz : waitGroup s = 0) by (destruct (closer s); try (exact (proj2 Hcl)); congruence).
    split; [|exact Hz]. apply Forall_forall. intros w Hw.
    apply (liveCount_zero (workers s)); [lia | now apply list_elem_of_In].
  - intros Hin. destruct (Hwd Hin) as [Hc Hb]. repeat split; try assumption.
    now apply Hjc.
Qed.

(** With a [--workers] flag of 0 or less nothing is ever processed. *)
Lemma no_workers_steps (n : nat) (s : State) :
  workerCountFlag <= 0 ->
  steps n (init gameNames) s ->
  workers s = [] /\ buf (resultQueue s) = [] /\ printed (tally s) = [] /\
  buf (jobQueue s) ++
    match sender s with
    | SNotStarted => gameNames
    | SSending rest => rest
    | SDone => []
    end = gameNames.
Proof.
  intros Hflag Hs. remember (init gameNames) as s0 eqn:E.
  induction Hs as [|n s1 s2 s3 Hs IH Hstep]; subst.
  - simpl. auto.
  - specialize (IH eq_refl). destruct IH as (Hw & Hb & Hp & Hj).
    pose proof (Inv_steps _ _ _ _ _ _ _ Hs) as HI.
    pose proof (step_no_panic _ _ _ _ _ _ _ HI Hstep) as Hnp.
    destruct HI as [_ _ _ _ _ Hmain _ _ _ _ _].
    destruct Hstep as
      [i _ Hm Hlt | i _ Hm Hge | _ Hm
      | x rest _ Hsd Hc Hroom | | _ Hsd Hc |
      | i x rest _ Hi _ | i _ Hi _ _ _ |
      | i x t r _ Hi _ | i r _ Hi _ _ |
      | _ Hcs Hz | _ Hcs Hc | | r rest _ Hm Hbuf | _ Hm Hbuf Hc ];
      simpl in Hnp; try discriminate; simpl;
      try (rewrite Hw in Hi; discriminate);
      try (rewrite Hb in Hbuf; discriminate).
    + exfalso. rewrite Hm in Hmain. destruct Hmain as (Hlen & _).
      rewrite Hw in Hlen. simpl in Hlen. subst i.
      unfold actualWorkerCount, totalGames in Hlt.
      destruct (Z.ltb_spec (Z.of_nat (length gameNames)) workerCountFlag); lia.
    + rewrite Hm in Hmain. destruct Hmain as (_ & _ & Hsd & _). rewrite Hsd in Hj. auto.
    + auto.
    + rewrite Hsd in Hj. rewrite <- app_assoc. auto.
    + rewrite Hsd in Hj. auto.
    + auto.
    + auto.
    + auto.
Qed.

(** X22. With a [--workers] flag of 0 or less no worker is started
    and nothing is ever processed or printed: the counts stay at 0;
    still nothing panics and the run does not hang, [main] can always
    move until its loop is over. *)
Theorem pool_no_workers (s : State) :
  workerCountFlag <= 0 ->
  reachable s ->
  workers s = [] /\
  printed (tally s) = [] /\
  successCount (tally s) = 0 /\ failedCount (tally s) = 0 /\
  failedGameNames (tally s) = [] /\
  panicked s = false /\
  (main s <> MDone -> exists s', step s s').
Proof.
  intros Hflag Hs. pose proof (Inv_reachable _ _ _ _ _ _ Hs) as HI.
  destruct Hs as [n Hs].
  destruct (no_workers_steps n s Hflag Hs) as (Hw & _ & Hp & _).
  pose proof (inv_tally _ _ _ _ _ _ HI) as (_ & Hsucc & Hfail & Hlist).
  rewrite Hp in Hsucc, Hfail, Hlist.
  repeat split; try assumption.
  - exact (inv_panicked _ _ _ _ _ _ HI).
  - intros Hm. eapply Inv_progress; eassumption.
Qed.

End PoolExtras.

Lemma pool_sends_never_block_witness :
  closed (jobQueue senderReady) = false /\ hasRoom (jobQueue senderReady).
Proof.
  apply (proj1 (pool_sends_never_block (H := exampleLib) ["Portal"] 1 "output" false false
                  senderReady senderReady_reachable)
               "Portal" []).
  reflexivity.
Defined.

Lemma pool_names_accounted_witness :
  ["Portal"] ≡ₚ
    [] ++ buf (jobQueue workerReady) ++ inFlight (workers workerReady) ++
    map GameName (buf (resultQueue workerReady)) ++
    map GameName (printed (tally workerReady)).
Proof.
  exact (pool_names_accounted (H := exampleLib) ["Portal"] 1 "output" false false
           workerReady workerReady_reachable).
Defined.

Lemma pool_bounded_parallelism_witness :
  Z.of_nat (length (inFlight (workers workerReady))) <=
    Z.max 0 (Z.min 1 (Z.of_nat (length ["Portal"]))).
Proof.
  exact (pool_bounded_parallelism (H := exampleLib) ["Portal"] 1 "output" false false
           workerReady workerReady_reachable).
Defined.

Lemma pool_tally_running_witness :
  failedGameNames (tally PoolExample.oneWorkerEnd) =
    map GameName (List.filter (fun r => negb (Success r))
                              (printed (tally PoolExample.oneWorkerEnd))) /\
  failedCount (tally PoolExample.oneWorkerEnd) =
    Z.of_nat (length (List.filter (fun r => negb (Success r))
                                  (printed (tally PoolExample.oneWorkerEnd)))) /\
  completedCount (tally PoolExample.oneWorkerEnd) =
    successCount (tally PoolExample.oneWorkerEnd) +
    failedCount (tally PoolExample.oneWorkerEnd) /\
  completedCount (tally PoolExample.oneWorkerEnd) =
    Z.of_nat (length (printed (tally PoolExample.oneWorkerEnd))) /\
  completedCount (tally PoolExample.oneWorkerEnd) <= Z.of_nat (length ["Portal"]).
Proof.
  exact (pool_tally_running (H := exampleLib) ["Portal"] 1 "output" false false
           PoolExample.oneWorkerEnd oneWorkerEnd_reachable).
Defined.

Lemma pool_close_after_workers_witness :
  Forall (fun w => w = WDone) (workers PoolExample.oneWorkerEnd) /\
  waitGroup PoolExample.oneWorkerEnd = 0.
Proof.
  apply (proj1 (pool_close_after_workers (H := exampleLib) ["Portal"] 1 "output" false false
                  PoolExample.oneWorkerEnd oneWorkerEnd_reachable)).
  reflexivity.
Defined.

Lemma pool_no_workers_witness :
  workers PoolExample.noWorkerEnd = [] /\
  printed (tally PoolExample.noWorkerEnd) = [] /\
  successCount (tally PoolExample.noWorkerEnd) = 0 /\
  failedCount (tally PoolExample.noWorkerEnd) = 0 /\
  failedGameNames (tally PoolExample.noWorkerEnd) = [] /\
  panicked PoolExample.noWorkerEnd = false /\
  (main PoolExample.noWorkerEnd <> MDone ->
   exists s', step (H := exampleLib) ["Portal"] 0 "output" false false
                   PoolExample.noWorkerEnd s').
Proof.
  apply (pool_no_workers (H := exampleLib) ["Portal"] 0 "output" false false
           PoolExample.noWorkerEnd).
  - lia.
  - exact noWorkerEnd_reachable.
Defined.

(** ** The names [main] reads from the input file *)

Import Strings Input Lines.

Example gameNames_examples :
  Input.gameNames ("Portal" +:+ nl +:+ "  Half-Life 2 " +:+ crlf +:+ nl +:+ "   " +:+ nl +:+ "Dota 2")
  = ["Portal"; "Half-Life 2"; "Dota 2"] /\
  Input.gameNames (nl +:+ " " +:+ crlf) = [] /\
  (* no-break space, U+00A0, and ideographic space, U+3000, around a name *)
  Input.gameNames (String "194" (String "160" ("Portal" +:+ String "227" (String "128" (String "128" "")))))
  = ["Portal"] /\
  (* a stray continuation byte stays *)
  Input.gameNames (String "160" ("Portal" +:+ String "160" "")) =
    [String "160" ("Portal" +:+ String "160" "")].
Proof. vm_compute. repeat split. Qed.


Lemma gameNames_fold (lines : list string) (acc : list string) :
  fold_left
    (fun (gameNames : list string) (line : string) =>
       let trimmedLine := string_of_list_ascii (TrimSpace (list_ascii_of_string line)) in
       if String.eqb trimmedLine "" then gameNames else gameNames ++ [trimmedLine])
    lines acc =
  acc ++ List.filter (fun trimmedLine => negb (String.eqb trimmedLine ""))
                     (map (fun line => string_of_list_ascii (TrimSpace (list_ascii_of_string line)))
                          lines).
Proof.
  revert acc. induction lines as [|line lines IH]; intros acc; simpl.
  - now rewrite app_nil_r.
  - rewrite IH. destruct (String.eqb _ ""); simpl; [reflexivity|].
    now rewrite <- app_assoc.
Qed.

(** The names are the lines that are not empty once trimmed, in the
    order of the file. *)
Lemma gameNames_filter (inputFileContent : string) :
  gameNames inputFileContent =
  List.filter (fun trimmedLine => negb (String.eqb trimmedLine ""))
              (map (fun line => string_of_list_ascii (TrimSpace (list_ascii_of_string line)))
                   (inputLines inputFileContent)).
Proof. unfold gameNames. now rewrite gameNames_fold. Qed.

(** *** [Split] *)

Lemma Split_nonempty (s : list byte) (sep : byte) : Split s sep <> [].
Proof.
  induction s as [|c tl IH]; simpl; [discriminate|].
  destruct (Ascii.eqb c sep); [discriminate|]. destruct (Split tl sep); discriminate.
Qed.

Lemma Split_no_sep (s : list byte) (sep : byte) :
  Forall (fun piece => ~ In sep piece) (Split s sep).
Proof.
  induction s as [|c tl IH]; simpl.
  - constructor; [intros [] | constructor].
  - destruct (Ascii.eqb_spec c sep) as [->|Hne].
    + constructor; [intros [] | exact IH].
    + destruct (Split tl sep) as [|piece rest]; [repeat constructor; intros [?|[]]; congruence|].
      inversion IH as [|? ? Hp Hr]; subst. constructor; [|exact Hr].
      intros [?|?]; [congruence | contradiction].
Qed.

Lemma Split_app (a b : list byte) (sep : byte) :
  Split (a ++ sep :: b) sep = Split a sep ++ Split b sep.
Proof.
  induction a as [|c tl IH]; simpl.
  - now rewrite Ascii.eqb_refl.
  - destruct (Ascii.eqb c sep); [now rewrite IH|].
    rewrite IH. pose proof (Split_nonempty tl sep) as Hne.
    destruct (Split tl sep) as [|piece rest]; [congruence | reflexivity].
Qed.

Lemma Split_piece (s : list byte) (sep : byte) :
  ~ In sep s -> Split s sep = [s].
Proof.
  induction s as [|c tl IH]; intros Hn; [reflexivity|]. simpl.
  destruct (Ascii.eqb_spec c sep) as [->|Hne]; [contradiction Hn; now left|].
  rewrite IH; [reflexivity|]. intros Hin. apply Hn. now right.
Qed.

(** *** [TrimSpace] returns a piece of its argument *)

Lemma In_take {A : Type} (x : A) (n : nat) (l : list A) : In x (take n l) -> In x l.
Proof. intros Hin. rewrite <- (take_drop n l). apply in_or_app. now left. Qed.

Lemma In_drop {A : Type} (x : A) (n : nat) (l : list A) : In x (drop n l) -> In x l.
Proof. intros Hin. rewrite <- (take_drop n l). apply in_or_app. now right. Qed.

Lemma TrimRightFunc_prefix (u : list byte) (f : rune -> bool) :
  exists n, TrimRightFunc u f = take n u.
Proof.
  unfold TrimRightFunc.
  destruct ((0 <=? _) && _); [|eexists; reflexivity].
  destruct (DecodeRuneInString _). eexists; reflexivity.
Qed.

Lemma TrimRightFunc_In (s : list byte) (f : rune -> bool) (x : byte) :
  In x (TrimRightFunc s f) -> In x s.
Proof. destruct (TrimRightFunc_prefix s f) as (n & ->). apply In_take. Qed.

Lemma TrimLeftFunc_In (s : list byte) (f : rune -> bool) (x : byte) :
  In x (TrimLeftFunc s f) -> In x s.
Proof.
  unfold TrimLeftFunc. destruct (indexFuncFrom f 0 0 s); [apply In_drop | contradiction].
Qed.

Lemma trimSpaceStop_In (r : list byte) (x : byte) : In x (trimSpaceStop r) -> In x r.
Proof.
  induction r as [|c tl IH]; [auto|]. cbn [trimSpaceStop].
  destruct (Utf8.RuneSelf <=? byteVal c).
  - intros Hin. apply TrimRightFunc_In in Hin. exact (proj2 (in_rev (c :: tl) x) Hin).
  - destruct (asciiSpace c); [intros Hin; right; auto|].
    intros Hin. exact (proj2 (in_rev (c :: tl) x) Hin).
Qed.

Lemma TrimSpace_In (s : list byte) (x : byte) : In x (TrimSpace s) -> In x s.
Proof.
  induction s as [|c tl IH]; [auto|]. cbn [TrimSpace].
  destruct (Utf8.RuneSelf <=? byteVal c).
  - intros Hin. apply TrimRightFunc_In, TrimLeftFunc_In in Hin. exact Hin.
  - destruct (asciiSpace c); [intros Hin; right; auto|].
    intros Hin. apply trimSpaceStop_In in Hin. exact (proj2 (in_rev (c :: tl) x) Hin).
Qed.

Lemma string_list_inj (a : list byte) : list_ascii_of_string (string_of_list_ascii a) = a.
Proof. apply list_ascii_of_string_of_list_ascii. Qed.

(** A name read from the file is a line of it, trimmed, and not
    empty. *)
Lemma gameNames_In (inputFileContent gameName : string) :
  In gameName (gameNames inputFileContent) ->
  gameName <> "" /\
  exists line, In line (inputLines inputFileContent) /\
               gameName = string_of_list_ascii (TrimSpace (list_ascii_of_string line)).
Proof.
  rewrite gameNames_filter. intros Hin. apply filter_In in Hin as [Hin Hne].
  apply in_map_iff in Hin as (line & <- & Hline). split; [|eauto].
  intros He. rewrite He in Hne. discriminate.
Qed.

(** X23. The names [main] reads from the input file: each is a line of
    the file with the white space at its ends trimmed; none is empty
    and none contains a newline; and there are no more names than
    lines. *)
Theorem gameNames_names (inputFileContent : string) :
  Forall (fun gameName =>
            gameName <> "" /\
            ~ In "010"%char (list_ascii_of_string gameName) /\
            exists line, In line (inputLines inputFileContent) /\
                         gameName = string_of_list_ascii
                                      (TrimSpace (list_ascii_of_string line)))
         (gameNames inputFileContent) /\
  (length (gameNames inputFileContent) <= length (inputLines inputFileContent))%nat.
Proof.
  split.
  - apply Forall_forall. intros gameName Hin. apply list_elem_of_In in Hin.
    apply gameNames_In in Hin as (Hne & line & Hline & ->).
    split; [exact Hne|]. split; [|eauto].
    rewrite string_list_inj. intros Hnl. apply TrimSpace_In in Hnl.
    unfold inputLines in Hline. apply in_map_iff in Hline as (piece & <- & Hpiece).
    rewrite string_list_inj in Hnl.
    pose proof (Split_no_sep (list_ascii_of_string inputFileContent) "010") as Hs.
    apply (Forall_In _ _ _ Hs) in Hpiece. contradiction.
  - rewrite gameNames_filter.
    etransitivity; [apply List.filter_length_le|]. now rewrite length_map.
Qed.

(** *** Lines *)

Lemma inputLines_app (a b : string) :
  inputLines (a +:+ nl +:+ b) = inputLines a ++ inputLines b.
Proof.
  unfold inputLines. rewrite list_ascii_append. simpl list_ascii_of_string.
  rewrite Split_app. apply map_app.
Qed.

(** X24. The file is read line by line: the names of a file are the
    names of what is in front of a newline followed by the names of
    what is behind it. *)
Theorem gameNames_app (a b : string) :
  gameNames (a +:+ nl +:+ b) = gameNames a ++ gameNames b.
Proof.
  rewrite !gameNames_filter, inputLines_app, map_app. apply List.filter_app.
Qed.

(** *** [TrimSpace] on ASCII white space *)

Lemma asciiSpace_low (c : byte) : asciiSpace c = true -> byteVal c <= 32.
Proof.
  unfold asciiSpace. intros Hc.
  repeat match type of Hc with
         | (_ || _) = true => apply orb_true_iff in Hc as [Hc|Hc]
         end; apply Z.eqb_eq in Hc; lia.
Qed.

Lemma asciiSpace_self (c : byte) : asciiSpace c = true -> (Utf8.RuneSelf <=? byteVal c) = false.
Proof.
  intros Hc. apply asciiSpace_low in Hc. unfold Utf8.RuneSelf.
  destruct (Z.leb_spec 128 (byteVal c)); [lia | reflexivity].
Qed.

Lemma edgeByte_self (c : byte) :
  edgeByte c = true -> (Utf8.RuneSelf <=? byteVal c) = false /\ asciiSpace c = false.
Proof.
  unfold edgeByte. intros Hc. apply andb_true_iff in Hc as [Hlow Hsp].
  apply Z.ltb_lt in Hlow. split.
  - destruct (Z.leb_spec Utf8.RuneSelf (byteVal c)); [lia | reflexivity].
  - now destruct (asciiSpace c).
Qed.

Lemma trimSpaceStop_pad (pad r : list byte) :
  Forall (fun c => asciiSpace c = true) pad ->
  trimSpaceStop (pad ++ r) = trimSpaceStop r.
Proof.
  induction 1 as [|c pad Hc _ IH]; [reflexivity|].
  cbn [app trimSpaceStop]. now rewrite (asciiSpace_self c Hc), Hc.
Qed.

Lemma rev_last (c : byte) (tl : list byte) :
  exists r, rev (c :: tl) = List.last tl c :: r.
Proof.
  destruct (exists_last (l := c :: tl)) as (l' & a & Hl); [discriminate|].
  rewrite Hl, rev_app_distr. simpl. exists (rev l'). f_equal.
  assert (Hlast : List.last (c :: tl) c = a) by (rewrite Hl; apply last_last).
  rewrite <- Hlast. destruct tl; reflexivity.
Qed.

(** White space around a name goes, the name stays. *)
Lemma TrimSpace_padded (pad1 pad2 : list byte) (c : byte) (tl : list byte) :
  Forall (fun c => asciiSpace c = true) pad1 ->
  Forall (fun c => asciiSpace c = true) pad2 ->
  edgeByte c = true -> edgeByte (List.last tl c) = true ->
  TrimSpace (pad1 ++ (c :: tl) ++ pad2) = c :: tl.
Proof.
  intros H1 H2 Hc Hl. induction H1 as [|x pad1 Hx _ IH].
  - cbn [app TrimSpace]. destruct (edgeByte_self c Hc) as [-> ->].
    change (c :: tl ++ pad2) with ((c :: tl) ++ pad2).
    rewrite rev_app_distr, trimSpaceStop_pad by now apply Forall_rev.
    destruct (rev_last c tl) as (r & Hr). rewrite Hr. cbn [trimSpaceStop].
    destruct (edgeByte_self _ Hl) as [-> ->]. rewrite <- Hr. apply rev_involutive.
  - cbn [app TrimSpace]. now rewrite (asciiSpace_self x Hx), Hx.
Qed.

Lemma TrimSpace_blank (pad : list byte) :
  Forall (fun c => asciiSpace c = true) pad -> TrimSpace pad = [].
Proof.
  induction 1 as [|x pad Hx _ IH]; [reflexivity|].
  cbn [TrimSpace]. now rewrite (asciiSpace_self x Hx), Hx.
Qed.

Lemma cleanName_bytes (name : string) :
  cleanName name = true ->
  exists c tl,
    list_ascii_of_string name = c :: tl /\
    edgeByte c = true /\ edgeByte (List.last tl c) = true /\
    ~ In "010"%char (c :: tl).
Proof.
  unfold cleanName. destruct (list_ascii_of_string name) as [|c tl]; [discriminate|].
  intros Hc. apply andb_true_iff in Hc as [Hc Hnl]. apply andb_true_iff in Hc as [Hc Hl].
  exists c, tl. repeat split; try assumption.
  intros Hin. rewrite forallb_forall in Hnl. apply Hnl in Hin.
  now rewrite Ascii.eqb_refl in Hin.
Qed.

Lemma string_of_list_inj (s : string) : string_of_list_ascii (list_ascii_of_string s) = s.
Proof. apply string_of_list_ascii_of_string. Qed.

(** One line that holds a name between white space. *)
Lemma gameNames_line (pad1 pad2 name : string) :
  Forall (fun c => asciiSpace c = true /\ c <> "010"%char) (list_ascii_of_string pad1) ->
  Forall (fun c => asciiSpace c = true /\ c <> "010"%char) (list_ascii_of_string pad2) ->
  cleanName name = true ->
  gameNames (pad1 +:+ name +:+ pad2) = [name].
Proof.
  intros H1 H2 Hn. apply cleanName_bytes in Hn as (c & tl & Hb & Hc & Hl & Hnl).
  assert (Hpad : forall pad,
             Forall (fun c => asciiSpace c = true /\ c <> "010"%char) pad ->
             Forall (fun c => asciiSpace c = true) pad /\ ~ In "010"%char pad).
  { intros pad Hp. split; [eapply Forall_impl; [exact Hp|]; now intros ? []|].
    intros Hin. apply (Forall_In _ _ _ Hp) in Hin. now destruct Hin. }
  apply Hpad in H1 as [H1 Hn1]. apply Hpad in H2 as [H2 Hn2].
  rewrite gameNames_filter. unfold inputLines.
  rewrite !list_ascii_append, Hb, Split_piece.
  - cbn [map]. rewrite string_list_inj, TrimSpace_padded by assumption.
    rewrite <- Hb, string_of_list_inj. cbn [List.filter].
    destruct (String.eqb_spec name ""); [|reflexivity].
    subst name. discriminate.
  - intros Hin. apply in_app_or in Hin as [Hin|Hin]; [contradiction|].
    apply in_app_or in Hin as [Hin|Hin]; contradiction.
Qed.

(** X25. A file written with one name per line is read back as those
    names, in order, whether its lines end in LF or in CR LF, for
    names without a newline that start and end with an ASCII
    character that is not white space. *)
Theorem gameNames_unlines (eol : string) (names : list string) :
  eol = nl \/ eol = crlf ->
  Forall (fun name => cleanName name = true) names ->
  gameNames (unlines eol names) = names.
Proof.
  intros Heol Hnames. induction Hnames as [|name names Hn _ IH]; [reflexivity|].
  cbn [unlines fold_right]. fold (unlines eol names).
  assert (Hcr : Forall (fun c => asciiSpace c = true /\ c <> "010"%char)
                       (list_ascii_of_string (String "013" ""))).
  { repeat constructor. discriminate. }
  destruct Heol as [-> | ->].
  - rewrite gameNames_filter, inputLines_app, map_app, List.filter_app, <- !gameNames_filter, IH.
    assert (Hline : gameNames (name +:+ "") = [name])
      by exact (gameNames_line "" "" name ltac:(constructor) ltac:(constructor) Hn).
    replace (name +:+ "") with name in Hline; [now rewrite Hline|].
    clear. induction name as [|c name IH]; [reflexivity|].
    change (String c name +:+ "") with (String c (name +:+ "")). congruence.
  - assert (Hs : name +:+ crlf +:+ unlines crlf names =
                 (name +:+ String "013" "") +:+ nl +:+ unlines crlf names).
    { clear. induction name as [|c name IH]; [reflexivity|].
      change (String c name +:+ crlf +:+ unlines crlf names)
        with (String c (name +:+ crlf +:+ unlines crlf names)).
      rewrite IH. reflexivity. }
    rewrite Hs, gameNames_filter, inputLines_app, map_app, List.filter_app, <- !gameNames_filter, IH.
    assert (Hline : gameNames (name +:+ String "013" "") = [name])
      by exact (gameNames_line "" (String "013" "") name ltac:(constructor) Hcr Hn).
    now rewrite Hline.
Qed.

Lemma gameNames_unlines_witness :
  gameNames (unlines crlf ["Portal"; "Half-Life 2"]) = ["Portal"; "Half-Life 2"].
Proof.
  apply gameNames_unlines.
  - right. reflexivity.
  - repeat constructor.
Defined.

(** *** The ends of what [TrimSpace] returns *)

Lemma asciiSpace_IsSpace (c : byte) : asciiSpace c = true -> IsSpace (byteVal c) = true.
Proof.
  unfold asciiSpace. intros Hc.
  repeat match type of Hc with
         | (_ || _) = true => apply orb_true_iff in Hc as [Hc|Hc]
         end; apply Z.eqb_eq in Hc; rewrite Hc; reflexivity.
Qed.

Lemma isCont_high (b : byte) : Utf8.isCont b = true -> 128 <= byteVal b.
Proof.
  unfold Utf8.isCont, Utf8.locb. intros Hb. apply andb_true_iff in Hb as [Hb _].
  now apply Z.leb_le in Hb.
Qed.

(** A rune that starts with a byte that is not ASCII is made of such
    bytes only. *)
Lemma nextRune_high_bytes (c : byte) (rest : list byte) :
  128 <= byteVal c ->
  (1 <= snd (Utf8.nextRune (c :: rest)))%nat /\
  Forall (fun b => 128 <= byteVal b) (take (snd (Utf8.nextRune (c :: rest))) (c :: rest)).
Proof.
  intros Hc. unfold Utf8.nextRune, Utf8.RuneSelf.
  destruct (Z.ltb_spec (byteVal c) 128); [lia|].
  unfold Utf8.decoderune.
  assert (H1 : (1 <= 1)%nat /\ Forall (fun b => 128 <= byteVal b) (take 1 (c :: rest))).
  { split; [lia|]. simpl. rewrite take_0. now repeat constructor. }
  destruct ((Utf8.t2 <=? byteVal c) && (byteVal c <? Utf8.t3)).
  { destruct rest as [|s1 rest]; [exact H1|].
    destruct (Utf8.isCont s1) eqn:E1; [|exact H1].
    match goal with |- context [if ?b then _ else _] => destruct b end; [|exact H1].
    split; [simpl; lia|]. simpl. rewrite take_0.
    repeat constructor; auto using isCont_high. }
  destruct ((Utf8.t3 <=? byteVal c) && (byteVal c <? Utf8.t4)).
  { destruct rest as [|s1 [|s2 rest]]; try exact H1.
    destruct (Utf8.isCont s1) eqn:E1; [|exact H1].
    destruct (Utf8.isCont s2) eqn:E2; [|exact H1]. cbn [andb].
    match goal with |- context [if ?b then _ else _] => destruct b end; [|exact H1].
    split; [simpl; lia|]. simpl. rewrite take_0.
    repeat constructor; auto using isCont_high. }
  destruct ((Utf8.t4 <=? byteVal c) && (byteVal c <? Utf8.t5)); [|exact H1].
  destruct rest as [|s1 [|s2 [|s3 rest]]]; try exact H1.
  destruct (Utf8.isCont s1) eqn:E1; [|exact H1].
  destruct (Utf8.isCont s2) eqn:E2; [|exact H1].
  destruct (Utf8.isCont s3) eqn:E3; [|exact H1]. cbn [andb].
  match goal with |- context [if ?b then _ else _] => destruct b end; [|exact H1].
  split; [simpl; lia|]. simpl. rewrite take_0.
  repeat constructor; auto using isCont_high.
Qed.

Lemma nextRune_width (s : list byte) : (1 <= snd (Utf8.nextRune s))%nat.
Proof.
  destruct s as [|c rest]; [simpl; lia|].
  destruct (Z_lt_dec (byteVal c) 128) as [Hc|Hc].
  - rewrite nextRune_low by assumption. simpl. lia.
  - apply nextRune_high_bytes. lia.
Qed.

Lemma byteAt_take (u : list byte) (n : nat) (i : Z) :
  0 <= i < Z.of_nat n -> byteAt (take n u) i = byteAt u i.
Proof.
  intros Hi. unfold byteAt.
  rewrite <- (take_drop n u) at 2.
  destruct (Nat.lt_ge_cases (Z.to_nat i) (length (take n u))) as [Hlt|Hge].
  - now rewrite app_nth1.
  - rewrite nth_overflow by assumption.
    rewrite length_take in Hge.
    rewrite nth_overflow; [reflexivity|].
    rewrite length_app, length_take, length_drop. lia.
Qed.

Lemma byteAt_drop (u : list byte) (i : Z) (c : byte) (rest : list byte) :
  0 <= i -> drop (Z.to_nat i) u = c :: rest -> byteAt u i = c.
Proof.
  intros Hi Hd. unfold byteAt. rewrite <- (take_drop (Z.to_nat i) u), Hd.
  assert (Hlen : length (take (Z.to_nat i) u) = Z.to_nat i).
  { rewrite length_take. apply Nat.min_l.
    destruct (Nat.le_gt_cases (Z.to_nat i) (length u)) as [|Hgt]; [assumption|].
    rewrite drop_ge in Hd by lia. discriminate. }
  rewrite app_nth2 by lia. rewrite Hlen, Nat.sub_diag. reflexivity.
Qed.

Lemma drop_byteAt (u : list byte) (i : Z) :
  0 <= i < Z.of_nat (length u) ->
  exists rest, drop (Z.to_nat i) u = byteAt u i :: rest.
Proof.
  intros Hi. destruct (drop (Z.to_nat i) u) as [|c rest] eqn:Hd.
  - apply (f_equal length) in Hd. rewrite length_drop in Hd. simpl in Hd. lia.
  - exists rest. f_equal. symmetry. eapply byteAt_drop; [lia | exact Hd].
Qed.

Lemma backToStart_le (n : nat) (s : list byte) (start lim : Z) :
  backToStart n s start lim <= start.
Proof.
  revert start. induction n as [|n IH]; intros start; simpl; [lia|].
  destruct (start <? lim); [lia|]. destruct (RuneStart (byteAt s start)); [lia|].
  specialize (IH (start - 1)). lia.
Qed.

(** What [DecodeLastRuneInString] returns for a string that is not
    empty: at least one byte and no more than there are, and when the
    rune starts with an ASCII byte it is that byte, the last one. *)
Lemma DecodeLastRuneInString_size (s : list byte) :
  s <> [] ->
  let len := Z.of_nat (length s) in
  1 <= snd (DecodeLastRuneInString s) <= len /\
  (byteVal (byteAt s (len - snd (DecodeLastRuneInString s))) < 128 ->
   snd (DecodeLastRuneInString s) = 1 /\
   fst (DecodeLastRuneInString s) = byteVal (byteAt s (len - 1))).
Proof.
  intros Hne len. unfold DecodeLastRuneInString. fold len.
  assert (Hlen : 1 <= len) by (destruct s; [congruence | subst len; simpl length; lia]).
  destruct (Z.eqb_spec len 0); [lia|].
  unfold Utf8.RuneSelf.
  destruct (Z.ltb_spec (byteVal (byteAt s (len - 1))) 128) as [Hlow|Hhigh].
  { simpl. split; [lia | auto]. }
  pose proof (backToStart_le 4 s (len - 1 - 1) (Z.max 0 (len - UTFMax))) as Hback.
  set (start := Z.max 0 (backToStart 4 s (len - 1 - 1) (Z.max 0 (len - UTFMax)))).
  assert (Hstart : 0 <= start < len) by (subst start; lia).
  destruct (drop_byteAt s start) as (rest & Hd); [subst len; lia|].
  rewrite Hd.
  change (DecodeRuneInString (byteAt s start :: rest))
    with (Utf8.nextRune (byteAt s start :: rest)).
  destruct (Utf8.nextRune (byteAt s start :: rest)) as [r size] eqn:Hnext.
  destruct (Z.eqb_spec (start + Z.of_nat size) len) as [Hend|Hend]; cbn [negb fst snd].
  - pose proof (nextRune_width (byteAt s start :: rest)) as Hw.
    rewrite Hnext in Hw. simpl in Hw.
    split; [lia|]. intros Hb. exfalso.
    replace (len - Z.of_nat size) with start in Hb by lia.
    rewrite nextRune_low in Hnext by assumption.
    injection Hnext as _ <-. replace start with (len - 1) in Hb by lia. lia.
  - split; [lia|]. intros Hb. lia.
Qed.

Lemma lastIndexFuncFrom_some (f : rune -> bool) (n : nat) (s : list byte) (i0 i : Z) :
  i0 <= Z.of_nat (length s) ->
  lastIndexFuncFrom f n s i0 = Some i ->
  exists i',
    0 < i' <= i0 /\
    i = i' - snd (DecodeLastRuneInString (take (Z.to_nat i') s)) /\
    f (fst (DecodeLastRuneInString (take (Z.to_nat i') s))) = false.
Proof.
  revert i0. induction n as [|n IH]; intros i0 Hlen Hsome; [discriminate|].
  cbn [lastIndexFuncFrom] in Hsome.
  destruct (Z.ltb_spec 0 i0) as [Hpos|]; [|discriminate].
  destruct (DecodeLastRuneInString (take (Z.to_nat i0) s)) as [r size] eqn:Hd.
  assert (Hsize : 1 <= size <= i0).
  { pose proof (DecodeLastRuneInString_size (take (Z.to_nat i0) s)) as Hs.
    rewrite Hd in Hs. cbn [fst snd] in Hs.
    rewrite length_take, Nat.min_l in Hs by lia.
    destruct Hs as [Hs _]; [|lia].
    intros He. apply (f_equal length) in He. rewrite length_take in He. simpl in He. lia. }
  destruct (f r) eqn:Hf.
  - apply IH in Hsome as (i' & Hi' & Hi & Hfr); [|lia].
    exists i'. repeat split; try assumption; lia.
  - injection Hsome as <-. exists i0. rewrite Hd. cbn [fst snd].
    repeat split; try assumption; lia.
Qed.

Lemma last_take_succ (u : list byte) (i : Z) (x : byte) (tl : list byte) :
  0 <= i < Z.of_nat (length u) ->
  take (Z.to_nat (i + 1)) u = x :: tl -> List.last tl x = byteAt u i.
Proof.
  intros Hi Ht.
  destruct (drop_byteAt u i Hi) as (rest & Hd).
  assert (Hsplit : take (Z.to_nat (i + 1)) u = take (Z.to_nat i) u ++ [byteAt u i]).
  { replace (Z.to_nat (i + 1)) with (Z.to_nat i + 1)%nat by lia.
    rewrite <- (take_drop (Z.to_nat i) u) at 1. rewrite Hd.
    rewrite take_app_add'; [reflexivity|].
    rewrite length_take. lia. }
  rewrite Hsplit in Ht.
  assert (Hl : List.last (x :: tl) x = byteAt u i) by (rewrite <- Ht; apply last_last).
  rewrite <- Hl. destruct tl; reflexivity.
Qed.

Lemma last_high (l : list byte) (x : byte) (tl : list byte) :
  Forall (fun b => 128 <= byteVal b) l -> l <> [] ->
  forall pre, pre ++ l = x :: tl -> 128 <= byteVal (List.last tl x).
Proof.
  intros Hl Hne pre Hp.
  destruct (exists_last Hne) as (l' & a & ->).
  apply Forall_app in Hl as [_ Ha]. inversion Ha; subst.
  rewrite app_assoc in Hp.
  assert (Hlast : List.last (x :: tl) x = a) by (rewrite <- Hp; apply last_last).
  replace (List.last tl x) with a; [assumption|].
  rewrite <- Hlast. destruct tl; reflexivity.
Qed.

(** [TrimRightFunc] with [unicode.IsSpace] leaves no ASCII white space
    at the end. *)
Lemma TrimRightFunc_last (u : list byte) (x : byte) (tl : list byte) :
  TrimRightFunc u IsSpace = x :: tl -> asciiSpace (List.last tl x) = false.
Proof.
  unfold TrimRightFunc.
  destruct (lastIndexFuncFrom IsSpace (length u) u (Z.of_nat (length u))) as [i|] eqn:Hi;
    [|simpl; rewrite take_0; discriminate].
  apply lastIndexFuncFrom_some in Hi as (i' & Hi' & Hi & Hf); [|lia].
  pose proof (DecodeLastRuneInString_size (take (Z.to_nat i') u)) as Hs.
  rewrite length_take, Nat.min_l in Hs by lia.
  destruct Hs as [Hsize Hascii].
  { intros He. apply (f_equal length) in He. rewrite length_take in He. simpl in He. lia. }
  rewrite Z2Nat.id in Hsize, Hascii by lia. rewrite <- Hi in Hascii.
  rewrite byteAt_take in Hascii by lia.
  assert (Hrange : 0 <= i < Z.of_nat (length u)) by lia.
  unfold Utf8.RuneSelf.
  destruct (Z.leb_spec 0 i) as [_|]; [|lia]. cbn [andb].
  destruct (Z.leb_spec 128 (byteVal (byteAt u i))) as [Hhigh|Hlow].
  - destruct (drop_byteAt u i Hrange) as (rest & Hd). rewrite Hd.
    change (DecodeRuneInString (byteAt u i :: rest))
      with (Utf8.nextRune (byteAt u i :: rest)).
    destruct (nextRune_high_bytes (byteAt u i) rest Hhigh) as [Hw Hbytes].
    destruct (Utf8.nextRune (byteAt u i :: rest)) as [r wid]. cbn [snd] in *.
    intros Ht.
    assert (Hsplit : take (Z.to_nat (i + Z.of_nat wid)) u =
                     take (Z.to_nat i) u ++ take wid (byteAt u i :: rest)).
    { replace (Z.to_nat (i + Z.of_nat wid)) with (Z.to_nat i + wid)%nat by lia.
      rewrite <- (take_drop (Z.to_nat i) u) at 1. rewrite Hd.
      rewrite take_app_add'; [reflexivity|].
      rewrite length_take. lia. }
    rewrite Hsplit in Ht.
    assert (128 <= byteVal (List.last tl x)).
    { eapply last_high; [exact Hbytes | | exact Ht].
      destruct wid; [lia | discriminate]. }
    destruct (asciiSpace (List.last tl x)) eqn:Hsp; [|reflexivity].
    apply asciiSpace_low in Hsp. lia.
  - intros Ht. rewrite (last_take_succ u i x tl Hrange Ht).
    destruct (Hascii Hlow) as [Hone Hr].
    rewrite Hr in Hf. rewrite byteAt_take in Hf by lia.
    replace (i' - 1) with i in Hf by lia.
    destruct (asciiSpace (byteAt u i)) eqn:Hsp; [|reflexivity].
    apply asciiSpace_IsSpace in Hsp. congruence.
Qed.

Lemma indexFuncFrom_some (f : rune -> bool) (s : list byte) (skip : nat) (i0 i : Z) :
  indexFuncFrom f skip i0 s = Some i ->
  i0 <= i /\ f (fst (Utf8.nextRune (drop (Z.to_nat (i - i0)) s))) = false /\
  (Z.to_nat (i - i0) < length s)%nat.
Proof.
  revert skip i0. induction s as [|c tl IH]; intros skip i0 Hsome; [discriminate|].
  cbn [indexFuncFrom] in Hsome.
  assert (Hrec : forall k, indexFuncFrom f k (i0 + 1) tl = Some i ->
                           i0 <= i /\
                           f (fst (Utf8.nextRune (drop (Z.to_nat (i - i0)) (c :: tl)))) = false /\
                           (Z.to_nat (i - i0) < length (c :: tl))%nat).
  { intros k Hk. apply IH in Hk as (Hle & Hf & Hlen).
    replace (Z.to_nat (i - i0)) with (S (Z.to_nat (i - (i0 + 1)))) by lia.
    simpl. repeat split; [lia | exact Hf | lia]. }
  destruct skip as [|k]; [|now apply Hrec in Hsome].
  destruct (Utf8.nextRune (c :: tl)) as [r w] eqn:Hn.
  destruct (f r) eqn:Hf; [now apply Hrec in Hsome|].
  injection Hsome as <-. rewrite Z.sub_diag. simpl drop. rewrite Hn.
  repeat split; [lia | exact Hf | simpl; lia].
Qed.

(** [TrimLeftFunc] with [unicode.IsSpace] leaves no ASCII white space
    at the start. *)
Lemma TrimLeftFunc_head (s : list byte) (x : byte) (tl : list byte) :
  TrimLeftFunc s IsSpace = x :: tl -> asciiSpace x = false.
Proof.
  unfold TrimLeftFunc.
  destruct (indexFuncFrom IsSpace 0 0 s) as [i|] eqn:Hi; [|discriminate].
  apply indexFuncFrom_some in Hi as (Hle & Hf & _). rewrite Z.sub_0_r in Hf.
  intros Hd. rewrite Hd in Hf.
  destruct (asciiSpace x) eqn:Hsp; [|reflexivity].
  rewrite nextRune_low in Hf by (apply asciiSpace_low in Hsp; lia).
  apply asciiSpace_IsSpace in Hsp. simpl in Hf. congruence.
Qed.

Lemma TrimRightFunc_head (u : list byte) (f : rune -> bool) (x : byte) (tl : list byte) :
  TrimRightFunc u f = x :: tl -> exists tl', u = x :: tl'.
Proof.
  destruct (TrimRightFunc_prefix u f) as (n & ->).
  destruct u as [|c u]; [now rewrite take_nil|].
  destruct n; [discriminate|]. simpl. intros [= -> _]. eauto.
Qed.

Lemma trimSpaceStop_edges (r : list byte) (c : byte) (x : byte) (tl : list byte) :
  asciiSpace c = false ->
  (exists pre, rev r = c :: pre) ->
  trimSpaceStop r = x :: tl ->
  asciiSpace x = false /\ asciiSpace (List.last tl x) = false.
Proof.
  intros Hc. induction r as [|b r IH]; intros (pre & Hpre) Ht; [discriminate|].
  cbn [trimSpaceStop] in Ht.
  destruct (Utf8.RuneSelf <=? byteVal b).
  - split; [|now apply TrimRightFunc_last in Ht].
    apply TrimRightFunc_head in Ht as (tl' & Hr). rewrite Hr in Hpre. now injection Hpre as ->.
  - destruct (asciiSpace b) eqn:Hb.
    + apply IH; [|exact Ht]. simpl in Hpre.
      destruct (rev r) as [|y ys] eqn:Hrev.
      * simpl in Hpre. injection Hpre as -> _. congruence.
      * simpl in Hpre. injection Hpre as -> _. eauto.
    + rewrite Hpre in Ht. injection Ht as <- <-. split; [assumption|].
      destruct (rev_last c pre) as (q & Hq).
      assert (Hrr : rev (c :: pre) = b :: r).
      { rewrite <- Hpre. apply rev_involutive. }
      rewrite Hrr in Hq. injection Hq as <- _. exact Hb.
Qed.

(** What [TrimSpace] returns neither starts nor ends with ASCII white
    space. *)
Lemma TrimSpace_edges (s : list byte) (x : byte) (tl : list byte) :
  TrimSpace s = x :: tl ->
  asciiSpace x = false /\ asciiSpace (List.last tl x) = false.
Proof.
  induction s as [|c s IH]; [discriminate|]. cbn [TrimSpace].
  destruct (Utf8.RuneSelf <=? byteVal c).
  - unfold TrimFunc. intros Ht. split; [|now apply TrimRightFunc_last in Ht].
    apply TrimRightFunc_head in Ht as (tl' & Hl). now apply TrimLeftFunc_head in Hl.
  - destruct (asciiSpace c) eqn:Hc; [exact IH|].
    apply (trimSpaceStop_edges _ c); [exact Hc|].
    rewrite rev_involutive. eauto.
Qed.

(** X26. No name read from the file starts or ends with ASCII white
    space (space, tab, carriage return, vertical tab, form feed),
    whatever bytes the line holds, valid UTF-8 or not. *)
Theorem gameNames_edges (inputFileContent : string) :
  Forall (fun gameName =>
            exists c tl,
              list_ascii_of_string gameName = c :: tl /\
              asciiSpace c = false /\ asciiSpace (List.last tl c) = false)
         (gameNames inputFileContent).
Proof.
  apply Forall_forall. intros gameName Hin. apply list_elem_of_In in Hin.
  apply gameNames_In in Hin as (Hne & line & _ & ->).
  rewrite string_list_inj.
  destruct (TrimSpace (list_ascii_of_string line)) as [|c tl] eqn:Ht;
    [now contradiction Hne|].
  exists c, tl. split; [reflexivity|]. eapply TrimSpace_edges, Ht.
Qed.

(** The bound on the loop of [lastIndexFunc] is never what ends it. *)
Lemma lastIndexFuncFrom_fuel (f : rune -> bool) (s : list byte) (n m : nat) (i : Z) :
  i <= Z.of_nat (length s) -> i <= Z.of_nat n -> i <= Z.of_nat m ->
  lastIndexFuncFrom f n s i = lastIndexFuncFrom f m s i.
Proof.
  revert m i. induction n as [|n IH]; intros m i Hlen Hn Hm.
  - destruct m; [reflexivity|]. cbn [lastIndexFuncFrom].
    destruct (Z.ltb_spec 0 i); [lia | reflexivity].
  - destruct m as [|m]; cbn [lastIndexFuncFrom].
    + destruct (Z.ltb_spec 0 i); [lia | reflexivity].
    + destruct (Z.ltb_spec 0 i) as [Hpos|]; [|reflexivity].
      pose proof (DecodeLastRuneInString_size (take (Z.to_nat i) s)) as Hs.
      rewrite length_take, Nat.min_l in Hs by lia.
      destruct Hs as [Hsize _].
      { intros He. apply (f_equal length) in He. rewrite length_take in He. simpl in He. lia. }
      destruct (DecodeLastRuneInString (take (Z.to_nat i) s)) as [r size].
      cbn [snd] in Hsize. destruct (f r); [|reflexivity].
      apply IH; lia.
Qed.

(** ** [main]: from the input file to the pool, and the failure text *)

(** X27. Every name [main] reads from the input file is one
    [findSteamGameID] sends a request for: in a run of [main] the
    error "empty game name" is never met, the result is the one the
    answer to the request decides. *)
Theorem gameNames_resolvable `{GoLib} (inputFileContent gameName : string)
        (verbose : bool) (t : list Call) (result : Z * option error) :
  In gameName (gameNames inputFileContent) ->
  exec (Resolver.findSteamGameID gameName verbose) t result ->
  exists got : Result Response,
    List.filter notLog t = [CHttpGet (Resolver.requestURL gameName) got] /\
    result = resolveOutcome got.
Proof.
  intros Hin Hex. apply gameNames_In in Hin as [Hne _].
  apply findSteamGameID_exec in Hex
    as [(-> & _)|(_ & l1 & got & l2 & -> & H1 & H2 & ->)]; [congruence|].
  exists got. split; [|reflexivity].
  rewrite List.filter_app. simpl.
  now rewrite (filter_logOnly l1), (filter_logOnly l2).
Qed.

Lemma gameNames_resolvable_witness :
  exists got : Result Response,
    List.filter notLog (snd (runResolver emptyWorld true)) =
      [CHttpGet (Resolver.requestURL "Portal") got] /\
    fst (fst (runResolver emptyWorld true)) = resolveOutcome got.
Proof.
  apply (gameNames_resolvable (H := exampleLib) ("Portal" +:+ crlf) "Portal" true
           (snd (runResolver emptyWorld true)) (fst (fst (runResolver emptyWorld true)))).
  - vm_compute. left. reflexivity.
  - exact (run_exec handler (Resolver.findSteamGameID "Portal" true) emptyWorld).
Defined.

(** X28. What the collecting loop shows for a failure of
    [processSingleGame]: such a result always carries an error, so in
    verbose mode the text is the text of that error, never the
    generic one; without verbose mode it is "Not found" for every
    kind of failure. *)
Theorem errorMessage_failure `{GoLib} (gameName outputDirectory : string)
        (shouldSkipExisting verbose : bool) (t : list Call) (result : GameResult) :
  exec (processSingleGame gameName outputDirectory shouldSkipExisting verbose) t result ->
  Success result = false ->
  exists err,
    Error result = Some err /\
    Output.errorMessage true result = errorText err /\
    Output.errorMessage false result = "Not found".
Proof.
  intros Hex Hs. apply result_shape in Hex as [Hr|(err & ->)].
  - rewrite Hr in Hs. discriminate.
  - exists err. repeat split.
Qed.

Lemma errorMessage_failure_witness :
  exists err,
    Error (fst (fst (runPortal lockedWorld false true))) = Some err /\
    Output.errorMessage true (fst (fst (runPortal lockedWorld false true))) = errorText err /\
    Output.errorMessage false (fst (fst (runPortal lockedWorld false true))) = "Not found".
Proof.
  apply (errorMessage_failure (H := exampleLib) "Portal" "output" false true
           (snd (runPortal lockedWorld false true))).
  - exact (run_exec handler (processSingleGame "Portal" "output" false true) lockedWorld).
  - vm_compute. reflexivity.
Defined.
